(** * Clause Ease: contract-language simplifier

    A shallow embedding of the text-analysis pipeline of the repository
    (components module1 .. module5, readability_metrics,
    main.calculate_reading_ease and the upload checks of
    app.process_document) together with the properties its
    specification states about it and further properties of the code.

    Python values are modelled as follows.
    - [str] is a list of Unicode code points ([N]); [len] is [length].
    - Python floats are the kernel's binary64 floats ([PrimFloat]).
    - Module-level mutable globals are threaded as explicit state.
    - Third-party capabilities (the Unicode database, nltk, spaCy, the
      Hugging Face pipeline) are parameters; a call that raises is [None]. *)

From Stdlib Require Import List NArith ZArith Bool Lia Floats.
From Stdlib Require Strings.String Strings.Ascii.
From stdpp Require Import base gmap.
Import ListNotations.
Import Strings.String.StringSyntax.

Set Warnings "-inexact-float,-clear-no-such-hyp".
Local Open Scope nat_scope.

(** ** Python strings *)

(** A code point, and a Python [str]. *)
Abbreviation char := N (only parsing).
Abbreviation str := (list N).

(** An ASCII literal of the source, as a [str]. *)
Definition lit (s : String.string) : str :=
  List.map Ascii.N_of_ascii (String.list_ascii_of_string s).
Arguments lit s%_string_scope.

(** Equality of strings ([==] on [str]). *)
Fixpoint str_eqb (a b : str) : bool :=
  match a, b with
  | [], [] => true
  | x :: a', y :: b' => (x =? y)%N && str_eqb a' b'
  | _, _ => false
  end.

Definition NL : char := 10%N.
Definition CR : char := 13%N.
Definition SPACE : char := 32%N.
Definition DQUOTE : char := 34%N.
Definition SQUOTE : char := 39%N.
Definition HYPHEN : char := 45%N.
Definition DOT : char := 46%N.
Definition NBSP : char := 160%N.
(** The four curly quotation marks U+2018, U+2019, U+201C, U+201D. *)
Definition LSQUO : char := 8216%N.
Definition RSQUO : char := 8217%N.
Definition LDQUO : char := 8220%N.
Definition RDQUO : char := 8221%N.

Definition in_range (lo hi c : N) : bool := (lo <=? c)%N && (c <=? hi)%N.

(** [str.isspace] on one code point, which is also the class [\s] of [re]
    on [str] patterns (CPython's Py_UNICODE_ISSPACE). *)
Definition isspace (c : char) : bool :=
  in_range 9 13 c || in_range 28 32 c || (c =? 133)%N || (c =? 160)%N
  || (c =? 5760)%N || in_range 8192 8202 c || (c =? 8232)%N || (c =? 8233)%N
  || (c =? 8239)%N || (c =? 8287)%N || (c =? 12288)%N.

Definition is_ascii (c : char) : bool := (c <? 128)%N.
Definition ascii_isupper (c : char) : bool := in_range 65 90 c.
Definition ascii_islower (c : char) : bool := in_range 97 122 c.
Definition ascii_isalpha (c : char) : bool := ascii_isupper c || ascii_islower c.
Definition ascii_isdigit (c : char) : bool := in_range 48 57 c.
Definition ascii_tolower (c : char) : char :=
  if ascii_isupper c then (c + 32)%N else c.
Definition ascii_toupper (c : char) : char :=
  if ascii_islower c then (c - 32)%N else c.

(** What the Unicode database decides above U+007F.  The source never
    names these tables; they are CPython's, so they stay abstract. *)
Class UnicodeData := {
  (** [str.lower] of a string that is not pure ASCII *)
  uni_lower : str -> str;
  (** Py_UNICODE_ISALPHA above U+007F *)
  uni_isalpha : char -> bool;
  (** Py_UNICODE_ISALNUM above U+007F (the class [\w] minus underscore) *)
  uni_isalnum : char -> bool;
  (** Py_UNICODE_ISDECIMAL above U+007F (the class [\d]) *)
  uni_isdecimal : char -> bool
}.

(** A database with nothing above U+007F, to run the model on ASCII text. *)
Definition ascii_only : UnicodeData := {|
  uni_lower := fun s => List.map ascii_tolower s;
  uni_isalpha := fun _ => false;
  uni_isalnum := fun _ => false;
  uni_isdecimal := fun _ => false
|}.

Fixpoint lstrip (s : str) : str :=
  match s with
  | c :: s' => if isspace c then lstrip s' else s
  | [] => []
  end.

Definition rstrip (s : str) : str := rev (lstrip (rev s)).

(** [s.strip()] *)
Definition strip (s : str) : str := rstrip (lstrip s).

(** Truth value of a string: [if s]. *)
Definition truthy (s : str) : bool :=
  match s with [] => false | _ :: _ => true end.

Fixpoint startswith (p s : str) : bool :=
  match p, s with
  | [], _ => true
  | a :: p', b :: s' => (a =? b)%N && startswith p' s'
  | _ :: _, [] => false
  end.

(** [w in t] on strings. *)
Fixpoint contains (w t : str) : bool :=
  startswith w t ||
  match t with
  | [] => false
  | _ :: t' => contains w t'
  end.

(** [s[a:b]] for indices [0 <= a], [0 <= b]. *)
Definition slice (s : str) (a b : nat) : str := firstn (b - a) (skipn a s).

(** [s.replace(old, new)] for a non-empty [old]: occurrences are found
    left to right and do not overlap.  [skip] counts the characters of an
    occurrence still to be passed over. *)
Fixpoint replace_from (old new s : str) (skip : nat) : str :=
  match s with
  | [] => []
  | c :: s' =>
      match skip with
      | S n => replace_from old new s' n
      | O =>
          if startswith old s
          then new ++ replace_from old new s' (length old - 1)
          else c :: replace_from old new s' 0
      end
  end.

Definition replace (old new s : str) : str := replace_from old new s 0.

(** [s.split()]: the maximal runs of non-whitespace. [cur] is the run
    being read, last character first. *)
Fixpoint split_from (s cur : str) : list str :=
  match s with
  | [] => match cur with [] => [] | _ => [rev cur] end
  | c :: s' =>
      if isspace c
      then match cur with
           | [] => split_from s' []
           | _ => rev cur :: split_from s' []
           end
      else split_from s' (c :: cur)
  end.

Definition split (s : str) : list str := split_from s [].

(** Truth value of a list: [if l]. *)
Definition truthy_list {A} (l : list A) : bool :=
  match l with [] => false | _ :: _ => true end.

(** [sep.join(parts)] *)
Fixpoint join (sep : str) (parts : list str) : str :=
  match parts with
  | [] => []
  | [p] => p
  | p :: rest => p ++ sep ++ join sep rest
  end.

Section Unicode.
Context {U : UnicodeData}.

(** [s.lower()]: CPython lowers a pure-ASCII string byte by byte and
    hands any other string to the Unicode database. *)
Definition lower (s : str) : str :=
  if forallb is_ascii s then List.map ascii_tolower s else uni_lower s.

Definition isalpha_char (c : char) : bool :=
  if is_ascii c then ascii_isalpha c else uni_isalpha c.

Definition isalnum_char (c : char) : bool :=
  if is_ascii c then ascii_isalpha c || ascii_isdigit c else uni_isalnum c.

Definition isdecimal_char (c : char) : bool :=
  if is_ascii c then ascii_isdigit c else uni_isdecimal c.

(** [s.isalpha()] *)
Definition isalpha (s : str) : bool := truthy s && forallb isalpha_char s.

(** The class [\w] of [re]. *)
Definition is_word (c : char) : bool := isalnum_char c || (c =? 95)%N.

(** ** Regular expressions

    The fragment of [re] the source uses: single-character classes,
    the boundary [\b], sequence, alternation, one capturing group and
    greedy repetition of a class.  Matching is by backtracking with a
    continuation, as in [re]: the first way to match, in the order
    "more repetitions first, left alternative first", is the match. *)

Inductive regex :=
| Eps
| Chr (p : char -> bool)
| WordB
| Seq (r1 r2 : regex)
| Alt (r1 r2 : regex)
| Rep (p : char -> bool) (lo : nat) (hi : option nat)
| Grp (r : regex).

(** A match: its span and the span of group 1. *)
Record rmatch := {
  m_start : nat;
  m_end : nat;
  m_group1 : option (nat * nat)
}.

(** Where the matcher stands: the character before, the text ahead, the
    index, and the span captured so far. *)
Definition kont (A : Type) :=
  option char -> str -> nat -> option (nat * nat) -> option A.

Definition more_allowed (hi : option nat) : bool :=
  match hi with Some O => false | _ => true end.

(** Greedy [p{lo,hi}]; [hi = None] is no upper bound. *)
Fixpoint rep_greedy {A} (p : char -> bool) (lo : nat) (hi : option nat)
    (prev : option char) (s : str) (pos : nat) (g : option (nat * nat))
    (k : kont A) {struct s} : option A :=
  match s with
  | c :: s' =>
      if p c && more_allowed hi then
        match rep_greedy p (pred lo) (option_map pred hi) (Some c) s' (S pos) g k with
        | Some r => Some r
        | None => match lo with O => k prev s pos g | S _ => None end
        end
      else match lo with O => k prev s pos g | S _ => None end
  | [] => match lo with O => k prev s pos g | S _ => None end
  end.

Definition word_opt (c : option char) : bool :=
  match c with Some x => is_word x | None => false end.

Fixpoint rmatch_at {A} (r : regex) (prev : option char) (s : str) (pos : nat)
    (g : option (nat * nat)) (k : kont A) {struct r} : option A :=
  match r with
  | Eps => k prev s pos g
  | Chr p =>
      match s with
      | c :: s' => if p c then k (Some c) s' (S pos) g else None
      | [] => None
      end
  | WordB =>
      if xorb (word_opt prev) (word_opt (hd_error s)) then k prev s pos g else None
  | Seq r1 r2 =>
      rmatch_at r1 prev s pos g (fun prev' s' pos' g' => rmatch_at r2 prev' s' pos' g' k)
  | Alt r1 r2 =>
      match rmatch_at r1 prev s pos g k with
      | Some x => Some x
      | None => rmatch_at r2 prev s pos g k
      end
  | Rep p lo hi => rep_greedy p lo hi prev s pos g k
  | Grp r1 =>
      rmatch_at r1 prev s pos g (fun prev' s' pos' _ => k prev' s' pos' (Some (pos, pos')))
  end.

(** The match of [r] that starts at [pos], if any. *)
Definition match_here (r : regex) (prev : option char) (s : str) (pos : nat)
    : option rmatch :=
  rmatch_at r prev s pos None
    (fun _ _ pos' g => Some {| m_start := pos; m_end := pos'; m_group1 := g |}).

(** [re.finditer(r, text)]: matches left to right, not overlapping.
    Every pattern of the source consumes at least one character; [skip]
    counts the characters of the last match still to be passed over. *)
Fixpoint finditer_from (r : regex) (prev : option char) (s : str) (pos skip : nat)
    : list rmatch :=
  match s with
  | [] => []
  | c :: s' =>
      match skip with
      | S n => finditer_from r (Some c) s' (S pos) n
      | O =>
          match match_here r prev s pos with
          | Some m => m :: finditer_from r (Some c) s' (S pos) (m_end m - pos - 1)
          | None => finditer_from r (Some c) s' (S pos) 0
          end
      end
  end.

Definition finditer (r : regex) (text : str) : list rmatch :=
  finditer_from r None text 0 0.

(** [re.sub(r, repl, text)] for a literal replacement. *)
Fixpoint sub_from (r : regex) (repl : str) (prev : option char) (s : str)
    (pos skip : nat) : str :=
  match s with
  | [] => []
  | c :: s' =>
      match skip with
      | S n => sub_from r repl (Some c) s' (S pos) n
      | O =>
          match match_here r prev s pos with
          | Some m => repl ++ sub_from r repl (Some c) s' (S pos) (m_end m - pos - 1)
          | None => c :: sub_from r repl (Some c) s' (S pos) 0
          end
      end
  end.

Definition re_sub (r : regex) (repl text : str) : str :=
  sub_from r repl None text 0 0.

(** [re.split(r, text)] for a pattern without groups; [cur] is the piece
    being read, last character first. *)
Fixpoint split_re_from (r : regex) (prev : option char) (s : str)
    (pos skip : nat) (cur : str) : list str :=
  match s with
  | [] => [rev cur]
  | c :: s' =>
      match skip with
      | S n => split_re_from r (Some c) s' (S pos) n cur
      | O =>
          match match_here r prev s pos with
          | Some m => rev cur :: split_re_from r (Some c) s' (S pos) (m_end m - pos - 1) []
          | None => split_re_from r (Some c) s' (S pos) 0 (c :: cur)
          end
      end
  end.

Definition re_split (r : regex) (text : str) : list str :=
  split_re_from r None text 0 0 [].

(** Pattern builders. *)
Definition seq (rs : list regex) : regex := fold_right Seq Eps rs.
Definition eqc (c : char) : char -> bool := N.eqb c.
Definition word (s : str) : regex := seq (List.map (fun c => Chr (eqc c)) s).
Definition star (p : char -> bool) : regex := Rep p 0 None.
Definition plus (p : char -> bool) : regex := Rep p 1 None.
Definition opt (p : char -> bool) : regex := Rep p 0 (Some 1).

(** [re.IGNORECASE] on a [str] pattern: a cased ASCII character of the
    pattern matches both cases and the non-ASCII code points that fold to
    it (U+0130 and U+0131 for i, U+017F for s, U+212A for k). *)
Definition folds_to (lo c : char) : bool :=
  ((lo =? 105)%N && ((c =? 304)%N || (c =? 305)%N))
  || ((lo =? 115)%N && (c =? 383)%N)
  || ((lo =? 107)%N && (c =? 8490)%N).

Definition eqc_i (p c : char) : bool :=
  if ascii_isalpha p
  then (ascii_tolower c =? ascii_tolower p)%N || folds_to (ascii_tolower p) c
  else (c =? p)%N.

Definition word_i (s : str) : regex := seq (List.map (fun c => Chr (eqc_i c)) s).

(** [[A-Z]] under [re.IGNORECASE]. *)
Definition upper_i (c : char) : bool :=
  ascii_isalpha c || (c =? 304)%N || (c =? 305)%N || (c =? 383)%N || (c =? 8490)%N.

(** ** components/module2_text_preprocessing.py *)

(** The class [[\r\f\v]]. *)
Definition is_cr_ff_vt (c : char) : bool :=
  (c =? 13)%N || (c =? 12)%N || (c =? 11)%N.

(** [quote_map], as Python reads the literal of the source file: every
    quotation mark in it is a straight ASCII one, so the first two
    entries share the key U+0022, and the two lines that start with three
    apostrophes form one triple-quoted key (colon, space, the three
    characters U+0022 U+0027 U+0022, comma, newline, eight spaces) whose
    value is the apostrophe. *)
Definition quote_map : list (str * str) :=
  [ ([DQUOTE], [DQUOTE]);
    (lit ": " ++ [DQUOTE; SQUOTE; DQUOTE] ++ lit "," ++ [NL] ++ lit "        ",
     [SQUOTE]) ].

Definition clean_text (text : str) : str :=
  let text := replace [NBSP] [SPACE] text in
  let text := re_sub (Chr is_cr_ff_vt) [] text in
  let text := re_sub (plus isspace) [SPACE] text in
  let text :=
    fold_left (fun t kv => replace (fst kv) (snd kv) t) quote_map text in
  strip text.

(** The clause markers, compiled with [re.IGNORECASE | re.MULTILINE]
    (no pattern has [^] or [$], so the second flag changes nothing). *)
Definition markers : list (regex * str) :=
  [ (Grp (seq [word_i (lit "Annexure"); opt (eqc HYPHEN); star isspace]),
     lit "ANNEXURE");
    (Grp (word_i (lit "AGREEMENT FORMAT")), lit "HEADING");
    (Grp (word_i (lit "(ON NON-JUDICIAL")), lit "SUBHEADING");
    (Grp (seq [word_i (lit "This"); plus isspace; word_i (lit "agreement");
               plus isspace; word_i (lit "is"); plus isspace; word_i (lit "made")]),
     lit "PREAMBLE");
    (Grp (seq [WordB; word_i (lit "AND"); star isspace; Chr (eqc NL)]),
     lit "AND_SEPARATOR");
    (Grp (seq [word_i (lit "Whereas"); plus isspace; word_i (lit "the");
               plus isspace; word_i (lit "Employer")]),
     lit "WHEREAS");
    (Grp (word_i (lit "NOW THIS AGREEMENT WITNESSETH")), lit "WITNESSETH");
    (Grp (seq [Chr (eqc NL); star isspace; plus isdecimal_char; Chr (eqc DOT);
               plus isspace; Chr upper_i]),
     lit "NUMBERED_CLAUSE");
    (Grp (word_i (lit "In witness whereof")), lit "IN_WITNESS");
    (Grp (word_i (lit "The Common Seal")), lit "SEAL");
    (Grp (word_i (lit "Signed Sealed and Delivered")), lit "SIGNED");
    (Grp (word_i (lit "For & on behalf of Employer")), lit "EMPLOYER_SIG");
    (Grp (word_i (lit "For & on behalf of Contractor")), lit "CONTRACTOR_SIG");
    (Grp (seq [WordB; word_i (lit "Note:")]), lit "NOTE") ].

(** One entry of [splits]: [(match.start(), label, match.group(0))]. *)
Record split_point := {
  sp_pos : nat;
  sp_label : str;
  sp_text : str
}.

(** [splits.sort(key=lambda x: x[0])]; Python's sort is stable. *)
Fixpoint insert_split (x : split_point) (l : list split_point) : list split_point :=
  match l with
  | [] => [x]
  | y :: l' =>
      if sp_pos x <=? sp_pos y then x :: l else y :: insert_split x l'
  end.

Definition sort_splits (l : list split_point) : list split_point :=
  fold_right insert_split [] l.

(** The line breaks normalised: [\r\n?] and then [\n+] become one newline. *)
Definition normalize_breaks (text : str) : str :=
  let text := re_sub (seq [Chr (eqc CR); opt (eqc NL)]) [NL] text in
  re_sub (plus (eqc NL)) [NL] text.

Definition find_splits (text : str) : list split_point :=
  sort_splits
    (flat_map
       (fun pl =>
          List.map
            (fun m => {| sp_pos := m_start m;
                         sp_label := snd pl;
                         sp_text := slice text (m_start m) (m_end m) |})
            (finditer (fst pl) text))
       markers).

(** The paragraph fallback. *)
Definition paragraph_clauses (text : str) : list str :=
  let paragraphs :=
    List.map strip
      (List.filter (fun p => truthy (strip p))
         (re_split (seq [Chr (eqc NL); star isspace; plus (eqc NL)]) text)) in
  List.filter (fun p => 20 <? length p) paragraphs.

(** The body of the loop over [splits] from index [i] on: a marker's
    clause runs to the next marker, or to the end of the text. *)
Fixpoint marker_clauses (text : str) (splits : list split_point) : list str :=
  match splits with
  | [] => []
  | x :: rest =>
      let end_pos :=
        match rest with
        | y :: _ => sp_pos y
        | [] => length text
        end in
      let clause_text := strip (slice text (sp_pos x) end_pos) in
      (if truthy clause_text && (15 <? length clause_text)
       then [clause_text] else [])
      ++ marker_clauses text rest
  end.

(** The text before the first marker, added at [i == 0] when [pos > 0]. *)
Definition pre_marker_clause (text : str) (splits : list split_point) : list str :=
  match splits with
  | x :: _ => if 0 <? sp_pos x then [strip (slice text 0 (sp_pos x))] else []
  | [] => []
  end.

(** The final clean-up comprehension. *)
Definition clean_up (clauses : list str) : list str :=
  List.map strip
    (List.filter (fun c => truthy (strip c) && (10 <? length (strip c))) clauses).

Definition segment_clauses (text : str) : list str :=
  if negb (truthy text) || negb (truthy (strip text)) then [text]
  else
    let text := normalize_breaks text in
    let splits := find_splits text in
    match splits with
    | [] =>
        let clauses := paragraph_clauses text in
        if truthy_list clauses then clauses else [text]
    | _ :: _ =>
        let clauses := pre_marker_clause text splits ++ marker_clauses text splits in
        let clauses := clean_up clauses in
        if truthy_list clauses then clauses else [text]
    end.

End Unicode.

(** ** components/module3_clause_detection.py *)

(** The keyword rules of [_rule_based_classify], top to bottom: the
    keywords of each [if] and the label it returns. *)
Definition RULES : list (list str * str) :=
  [ ([lit "confidential"; lit "confidentiality"; lit "non-disclosure"; lit "nda";
      lit "proprietary information"], lit "Confidentiality");
    ([lit "terminate"; lit "termination"; lit "expire"; lit "end of contract";
      lit "breach"; lit "cancel"], lit "Termination");
    ([lit "indemnify"; lit "indemnity"; lit "hold harmless"; lit "defend against"],
     lit "Indemnity");
    ([lit "arbitration"; lit "dispute"; lit "mediation"; lit "court";
      lit "sole arbitrator"; lit "litigation"], lit "Dispute Resolution");
    ([lit "governing law"; lit "laws in force"; lit "law of "; lit "applicable law"],
     lit "Governing Law");
    ([lit "payment"; lit "fee"; lit "invoice"; lit "compensation"; lit "price";
      lit "remuneration"; lit "salary"], lit "Payment Terms");
    ([lit "intellectual property"; lit "copyright"; lit "trademark"; lit "patent";
      lit "ip rights"; lit "ownership"], lit "Intellectual Property");
    ([lit "warranty"; lit "warranties"; lit "represent"; lit "guarantee";
      lit "assurance"], lit "Warranties");
    ([lit "limitation of liability"; lit "limited to"; lit "aggregate liability";
      lit "consequential damages"], lit "Limitation of Liability");
    ([lit "force majeure"; lit "act of god"; lit "natural disaster";
      lit "unforeseen circumstances"], lit "Force Majeure");
    ([lit "assignment"; lit "transfer"; lit "assign rights"; lit "delegate"],
     lit "Assignment");
    ([lit "non-compete"; lit "non compete"; lit "competitive"; lit "solicitation";
      lit "restrictive covenant"], lit "Non-Compete");
    ([lit "severability"; lit "severable"; lit "invalid provision";
      lit "unenforceable"], lit "Severability");
    ([lit "amendment"; lit "modify"; lit "modification"; lit "change";
      lit "variation"], lit "Amendment");
    ([lit "notice"; lit "notification"; lit "inform"; lit "written notice";
      lit "email to"], lit "Notice") ].

(** [any(w in t for w in keywords)] *)
Definition any_in (keywords : list str) (t : str) : bool :=
  existsb (fun w => contains w t) keywords.

(** The chain of [if ... return label], ending in [return "Other"]. *)
Fixpoint first_rule (rules : list (list str * str)) (t : str) : str :=
  match rules with
  | [] => lit "Other"
  | (keywords, label) :: rest =>
      if any_in keywords t then label else first_rule rest t
  end.

Section Classifier.
Context {U : UnicodeData}.

Definition _rule_based_classify (text : str) : str :=
  let t := lower text in
  first_rule RULES t.

Definition CLAUSE_LABELS : list str :=
  [ lit "Confidentiality"; lit "Termination"; lit "Indemnity";
    lit "Dispute Resolution"; lit "Governing Law"; lit "Payment Terms";
    lit "Intellectual Property"; lit "Warranties"; lit "Limitation of Liability";
    lit "Force Majeure"; lit "Assignment"; lit "Non-Compete"; lit "Severability";
    lit "Amendment"; lit "Notice" ].

(** [detect_clause_type]; [model] is the loaded classifier ([_model] and
    [_tokenizer]), which answers with a label index or raises. *)
Definition detect_clause_type (model : option (str -> option nat)) (text : str) : str :=
  if negb (truthy text) || negb (truthy (strip text)) then lit "Other"
  else
    match model with
    | Some predict =>
        match predict text with
        | Some predicted => nth predicted CLAUSE_LABELS (lit "Other")
        | None => _rule_based_classify text
        end
    | None => _rule_based_classify text
    end.

End Classifier.

(** ** components/module4_legal_terms.py *)

Definition _LEXICON : list (str * str) :=
  [
    (lit "indemnity", lit "Indemnity Clause");
    (lit "indemnify", lit "Indemnity Clause");
    (lit "security deposit", lit "Payment Terms");
    (lit "termination", lit "Termination Clause");
    (lit "arbitration", lit "Dispute Resolution");
    (lit "dispute resolution", lit "Dispute Resolution");
    (lit "force majeure", lit "Force Majeure");
    (lit "governing law", lit "Governing Law");
    (lit "warranty", lit "Warranty");
    (lit "confidential", lit "Confidentiality");
    (lit "intellectual property", lit "IP Rights");
    (lit "non-compete", lit "Non-Compete");
    (lit "severability", lit "Severability");
    (lit "amendment", lit "Amendment Rights");
    (lit "assignment", lit "Assignment Rights");
    (lit "liability", lit "Liability");
    (lit "damages", lit "Damages") ].
Definition _DEFINITIONS_items : list (str * str) :=
  [
    (lit "indemnity",
     lit "A promise to protect someone from financial loss or legal liability");
    (lit "indemnify",
     lit "To compensate or reimburse someone for loss or damage");
    (lit "security deposit",
     lit "Money held by one party as protection in case of damage or default");
    (lit "termination",
     lit "The act of ending or canceling a contract or agreement");
    (lit "arbitration",
     lit "Resolving a dispute outside of court with a neutral third party making the decision");
    (lit "dispute resolution",
     lit "Methods used to settle disagreements or conflicts");
    (lit "force majeure",
     lit "Unforeseeable circumstances that prevent someone from fulfilling a contract (like natural disasters)");
    (lit "governing law",
     lit "The legal system and rules that apply to a contract");
    (lit "the governing law",
     lit "The legal system and rules that apply to this contract");
    (lit "warranty",
     lit "A guarantee or promise about the quality or condition of something");
    (lit "confidential",
     lit "Information that must be kept private and not shared with others");
    (lit "intellectual property",
     lit "Creations of the mind like inventions, designs, brand names, and artistic works");
    (lit "non-compete",
     lit "An agreement not to compete with a business in the same industry or area");
    (lit "severability",
     lit "If one part of a contract is invalid, the rest of the contract remains valid");
    (lit "amendment",
     lit "A formal change or addition to a contract or document");
    (lit "assignment",
     lit "Transferring rights or responsibilities from one party to another");
    (lit "liability",
     lit "Legal responsibility for something, especially for costs or damages");
    (lit "damages",
     lit "Money paid as compensation for loss or injury");
    (lit "consideration",
     lit "Something of value exchanged between parties in a contract");
    (lit "breach",
     lit "Breaking or violating the terms of a contract");
    (lit "covenant",
     lit "A formal promise or agreement in a contract");
    (lit "party",
     lit "A person or organization involved in a contract or legal agreement");
    (lit "effective date",
     lit "The date when a contract or agreement officially begins");
    (lit "notice",
     lit "Formal communication or warning given to another party");
    (lit "terms and conditions",
     lit "The detailed rules and requirements of an agreement");
    (lit "agreement",
     lit "A mutual understanding or arrangement between two or more parties");
    (lit "obligations",
     lit "Duties or responsibilities that must be fulfilled under a contract");
    (lit "rights",
     lit "Legal entitlements or permissions granted by a contract");
    (lit "default",
     lit "Failure to fulfill an obligation or payment as required");
    (lit "cure period",
     lit "Time given to fix a problem or breach before penalties apply");
    (lit "remedies",
     lit "Solutions or compensations available when a contract is broken");
    (lit "waiver",
     lit "Voluntarily giving up a right or claim");
    (lit "execution",
     lit "The act of signing and making a contract legally binding");
    (lit "representations",
     lit "Statements of fact made by one party to another");
    (lit "warranties",
     lit "Promises or guarantees about facts or conditions");
    (lit "audit",
     lit "An official examination or review of records or accounts");
    (lit "compliance",
     lit "Following or obeying rules, laws, or requirements");
    (lit "confidentiality",
     lit "The state of keeping information secret or private");
    (lit "disclosure",
     lit "Revealing or making information known");
    (lit "exclusivity",
     lit "The right to be the only one to do something in an agreement");
    (lit "jurisdiction",
     lit "The authority of a court or legal system to hear a case");
    (lit "limitation of liability",
     lit "A cap or restriction on the amount of damages that can be claimed");
    (lit "liquidated damages",
     lit "A predetermined amount of money to be paid if a contract is broken");
    (lit "material breach",
     lit "A serious violation of a contract that affects its core purpose");
    (lit "mutual consent",
     lit "Agreement by all parties involved");
    (lit "non-disclosure",
     lit "An agreement to keep certain information confidential");
    (lit "performance",
     lit "Completing the obligations required by a contract");
    (lit "renewal",
     lit "Extending a contract for an additional period");
    (lit "representations and warranties",
     lit "Statements and promises made about facts and conditions");
    (lit "services",
     lit "Work or assistance provided under an agreement");
    (lit "service",
     lit "Work or assistance provided under an agreement");
    (lit "the service provider",
     lit "The person or company providing work or assistance under the agreement");
    (lit "service provider",
     lit "The person or company providing work or assistance");
    (lit "parties",
     lit "People or organizations involved in a contract or legal agreement");
    (lit "the effective date",
     lit "The specific date when a contract or agreement officially begins");
    (lit "sole discretion",
     lit "The complete freedom to make a decision without needing approval");
    (lit "sublicense",
     lit "Permission granted by a licensee to allow someone else to use licensed rights");
    (lit "subsidiary",
     lit "A company controlled by another company");
    (lit "term",
     lit "The length or duration of a contract");
    (lit "third party",
     lit "A person or entity not directly involved in an agreement");
    (lit "title",
     lit "Legal ownership of property or rights");
    (lit "venue",
     lit "The location where a legal case will be heard");
    (lit "void",
     lit "Having no legal effect or validity");
    (lit "voidable",
     lit "Valid but can be legally canceled under certain conditions");
    (lit "the state of uttarakhand",
     lit "A state in northern India, mentioned as the governing jurisdiction");
    (lit "state",
     lit "A political territory with its own government and laws") ].

Definition _DEFINITIONS : gmap str str := list_to_map _DEFINITIONS_items.

Record legal_term := {
  term : str;
  category : str;
  definition : str;
  simplified_explanation : str
}.

(** [_DEFINITIONS.get(key, "Legal terminology used in contracts.")] *)
Definition define (key : str) : str :=
  default (lit "Legal terminology used in contracts.") (_DEFINITIONS !! key).

Definition new_term (t cat key : str) : legal_term :=
  {| term := t; category := cat;
     definition := define key; simplified_explanation := define key |}.

(** [found] and [seen], and one guarded [found.append] / [seen.add]. *)
Definition terms_state : Type := list legal_term * gset str.

Definition add_term (st : terms_state) (cand : str * legal_term) : terms_state :=
  if decide (fst cand ∈ snd st) then st
  else (fst st ++ [snd cand], snd st ∪ {[ fst cand ]}).

(** [s.title()] on ASCII text: a letter is capitalised unless the
    character before it is a letter. *)
Fixpoint title_from (s : str) (after_letter : bool) : str :=
  match s with
  | [] => []
  | c :: s' =>
      (if after_letter then ascii_tolower c else ascii_toupper c)
      :: title_from s' (ascii_isalpha c)
  end.

Definition title (s : str) : str := title_from s false.

Definition is_quote (c : char) : bool := (c =? DQUOTE)%N || (c =? SQUOTE)%N.

(** The class [[A-Za-z\s]]. *)
Definition term_char (c : char) : bool := ascii_isalpha c || isspace c.

(** The group [([A-Z][A-Za-z\s]{2,30})]. *)
Definition term_group : regex :=
  Grp (Seq (Chr ascii_isupper) (Rep term_char 2 (Some 30))).

Definition quoted_pattern : regex :=
  Seq (Chr is_quote) (Seq term_group (Chr is_quote)).

Definition definition_pattern : regex :=
  Seq term_group
    (Seq (star isspace)
       (Alt (word (lit "(hereinafter"))
          (Alt (word (lit "shall mean"))
             (Alt (word (lit "means")) (word (lit "refers to")))))).

(** [match.group(1)] *)
Definition group1 (text : str) (m : rmatch) : str :=
  match m_group1 m with
  | Some (a, b) => slice text a b
  | None => []
  end.

(** A named entity of spaCy: [ent.text] and [ent.label_]. *)
Record entity := {
  ent_text : str;
  ent_label : str
}.

Section Terms.
Context {U : UnicodeData}.

(** The candidates of the two pattern loops: key and record. *)
Definition pattern_candidates (pattern : regex) (text : str) : list (str * legal_term) :=
  List.map
    (fun m =>
       let t := strip (group1 text m) in
       let term_lower := lower t in
       (term_lower, new_term t (lit "Defined Term") term_lower))
    (finditer pattern text).

(** The candidates of the lexicon loop. *)
Definition lexicon_candidates (text : str) : list (str * legal_term) :=
  let t := lower text in
  List.map
    (fun kc => (fst kc, new_term (title (fst kc)) (snd kc) (fst kc)))
    (List.filter (fun kc => contains (fst kc) t) _LEXICON).

(** The entities the spaCy loop does not skip. *)
Definition entity_kept (e : entity) : bool :=
  existsb (str_eqb (ent_label e)) [lit "LAW"; lit "ORG"; lit "EVENT"]
  && (let t := strip (ent_text e) in
      negb (contains [DQUOTE] t || contains [SQUOTE] t)
      && (let words := split (lower t) in
          length words =? size (list_to_set words : gset str))).

(** The candidates of the spaCy loop; [nlp] is [_SPACY_NLP], which
    returns [doc.ents] or raises. *)
Definition entity_candidates (nlp : option (str -> option (list entity))) (text : str)
    : list (str * legal_term) :=
  match nlp with
  | Some run =>
      match run (slice text 0 5000) with
      | Some ents =>
          List.map
            (fun e =>
               let t := strip (ent_text e) in
               (lower t, new_term t (ent_label e ++ lit " Entity") (lower t)))
            (List.filter entity_kept ents)
      | None => []
      end
  | None => []
  end.

Definition extract_legal_terms (nlp : option (str -> option (list entity)))
    (text : str) : list legal_term :=
  if negb (truthy text) || negb (truthy (strip text)) then []
  else
    let st : terms_state := ([], ∅) in
    let st := fold_left add_term (pattern_candidates quoted_pattern text) st in
    let st := fold_left add_term (pattern_candidates definition_pattern text) st in
    let st := fold_left add_term (lexicon_candidates text) st in
    let st := fold_left add_term (entity_candidates nlp text) st in
    fst st.

End Terms.

(** ** Python floats *)

(** [float(n)] for a length or count [n]; exact below 2^53, which every
    length of a Python object in memory is. *)
Definition float_of_nat (n : nat) : float :=
  PrimFloat.of_uint63 (Uint63.of_Z (Z.of_nat n)).

(** [int(x)]: truncation towards zero (of a finite float). *)
Definition int_of_float (x : float) : Z :=
  match Prim2SF x with
  | S754_finite s m e =>
      let v := if (0 <=? e)%Z then (Z.pos m * 2 ^ e)%Z
               else (Z.pos m / 2 ^ (- e))%Z in
      if s then (- v)%Z else v
  | _ => 0%Z
  end.

(** [n] hundredths, rounded half to even, of the rational [num / den]. *)
Definition hundredths_half_even (num den : Z) : Z :=
  let q := (100 * num / den)%Z in
  let r := (100 * num mod den)%Z in
  if (2 * r <? den)%Z then q
  else if (den <? 2 * r)%Z then (q + 1)%Z
  else if Z.even q then q else (q + 1)%Z.

(** [round(x, 2)]: CPython rounds the exact value of [x] to two decimals,
    half to even, and returns the float nearest to that decimal.  A float
    with a non-negative exponent is an integer and is returned as it is;
    zeros, infinities and NaN are returned as they are.  The number of
    hundredths is converted exactly when it is below 2^53, so for every
    [x] of magnitude below 2^46, which covers the scores in [0, 100]. *)
Definition round2 (x : float) : float :=
  match Prim2SF x with
  | S754_finite s m e =>
      if (0 <=? e)%Z then x
      else
        let k := hundredths_half_even (Z.pos m) (2 ^ (- e)) in
        let r := (PrimFloat.of_uint63 (Uint63.of_Z k) / 100)%float in
        if s then (- r)%float else r
  | _ => x
  end.

(** [min(a, b)] and [max(a, b)] of Python: the first argument unless the
    second is strictly smaller (larger). *)
Definition py_min (a b : float) : float := if (b <? a)%float then b else a.
Definition py_max (a b : float) : float := if (a <? b)%float then b else a.

(** ** components/module5_language_simplification.py *)

(** The summarisation pipeline once loaded.  It samples, so its answer
    may differ from call to call: the first argument numbers the calls.
    The other arguments are the sentence, [max_length] and [temperature].
    It raises ([None]) or returns a list of dictionaries, each with its
    ['summary_text'] when it has one. *)
Definition paraphraser : Type :=
  nat -> str -> Z -> float -> option (list (option str)).

(** The module's globals [_simplifier] and [_load_attempted]. *)
Record simplifier_state := {
  _simplifier : option paraphraser;
  _load_attempted : bool
}.

(** What the process finds around it: whether [transformers] imports
    ([_HAS_HF]), what [pipeline("summarization", ...)] gives ([None] when
    it raises), and nltk's [sent_tokenize] ([None] when the import or the
    call raises). *)
Record simplifier_env := {
  _HAS_HF : bool;
  pipeline : option paraphraser;
  sent_tokenize : str -> option (list str)
}.

Definition ensure_simplifier_loaded (env : simplifier_env) (st : simplifier_state)
    : bool * simplifier_state :=
  if _load_attempted st
  then (match _simplifier st with Some _ => true | None => false end, st)
  else
    let st := {| _simplifier := _simplifier st; _load_attempted := true |} in
    if negb (_HAS_HF env) then (false, st)
    else
      match pipeline env with
      | Some p => (true, {| _simplifier := Some p; _load_attempted := true |})
      | None => (false, {| _simplifier := None; _load_attempted := true |})
      end.

(** [old.capitalize()] on ASCII text. *)
Definition capitalize (s : str) : str :=
  match s with
  | [] => []
  | c :: s' => ascii_toupper c :: List.map ascii_tolower s'
  end.

(** The loop over [replacements.items()]. *)
Definition apply_replacements (replacements : list (str * str)) (text : str) : str :=
  fold_left
    (fun text on_ =>
       let text := replace (fst on_) (snd on_) text in
       replace (capitalize (fst on_)) (capitalize (snd on_)) text)
    replacements text.

Section Simplifier.
Context {U : UnicodeData}.

Definition _aggressive_simplification (text : str) (max_length : nat) : str :=
  let words := split text in
  let text :=
    if max_length <? length words then
      let text := join [SPACE] (firstn max_length words) in
      if truthy text && isalnum_char (List.last text 0%N) then text ++ [DOT] else text
    else text in
  apply_replacements
    [ (lit "aforementioned", lit "mentioned");
      (lit "herein", lit "here");
      (lit "thereof", lit "of it");
      (lit "whereby", lit "by which");
      (lit "hereunder", lit "under this");
      (lit "thereto", lit "to it");
      (lit "pursuant to", lit "according to");
      (lit "notwithstanding", lit "despite") ]
    text.

Definition _moderate_simplification (text : str) (max_length : nat) : str :=
  apply_replacements
    [ (lit "aforementioned", lit "mentioned");
      (lit "herein", lit "here");
      (lit "pursuant to", lit "according to") ]
    text.

(** The level-specific parameters: [temperature], [length_ratio] and
    [max_sentence_length]. *)
Record level_parameters := {
  temperature : float;
  length_ratio : float;
  max_sentence_length : nat
}.

Definition parameters_of (level : str) : level_parameters :=
  if str_eqb level (lit "basic") then
    {| temperature := 0.5; length_ratio := 0.85; max_sentence_length := 30 |}
  else if str_eqb level (lit "intermediate") then
    {| temperature := 0.7; length_ratio := 0.70; max_sentence_length := 25 |}
  else
    {| temperature := 1.0; length_ratio := 0.55; max_sentence_length := 20 |}.

(** The post-processing of an accepted summary, by level. *)
Definition post_process (level : str) (ai_output : str) (max_sentence_length : nat) : str :=
  if str_eqb level (lit "advanced")
  then _aggressive_simplification ai_output max_sentence_length
  else if str_eqb level (lit "intermediate")
  then _moderate_simplification ai_output max_sentence_length
  else ai_output.

(** One turn of the loop over the sentences: what is appended for
    [sent]; [n] numbers the call of the pipeline. *)
Definition simplify_sentence (simplifier : paraphraser) (level : str) (n : nat)
    (sent : str) : str :=
  let ps := parameters_of level in
  let sent_words := length (split sent) in
  let dynamic_max_length :=
    Z.max 15
      (Z.min (int_of_float (float_of_nat sent_words * length_ratio ps)) 50) in
  match simplifier n sent dynamic_max_length (temperature ps) with
  | Some (Some summary_text :: _) =>
      let ai_output := strip summary_text in
      let ai_output := post_process level ai_output (max_sentence_length ps) in
      if (5 <? length ai_output)
         && (float_of_nat (length ai_output) <=? float_of_nat (length sent) * 1.5)%float
      then ai_output
      else sent
  | Some _ => sent
  | None => sent
  end.

(** The loop: sentences under 20 characters pass without a call. *)
Fixpoint simplify_sentences (simplifier : paraphraser) (level : str) (n : nat)
    (sentences : list str) : list str :=
  match sentences with
  | [] => []
  | sent :: rest =>
      if length (strip sent) <? 20
      then sent :: simplify_sentences simplifier level n rest
      else simplify_sentence simplifier level n sent
           :: simplify_sentences simplifier level (S n) rest
  end.

(** [simplify_text(text, max_length, level)]: the result and the globals
    afterwards. *)
Definition simplify_text (env : simplifier_env) (st : simplifier_state)
    (text : str) (max_length : nat) (level : str) : str * simplifier_state :=
  if negb (truthy text) || negb (truthy (strip text)) then (text, st)
  else
    let st :=
      if _HAS_HF env
         && (match _simplifier st with None => true | Some _ => false end)
         && negb (_load_attempted st)
      then snd (ensure_simplifier_loaded env st)
      else st in
    match _simplifier st with
    | Some simplifier =>
        if 10 <? length (split text) then
          match sent_tokenize env text with
          | Some sentences =>
              (join [SPACE] (simplify_sentences simplifier level 0 sentences), st)
          | None => (text, st)
          end
        else (text, st)
    | None => (text, st)
    end.

End Simplifier.

(** ** components/readability_metrics.py and main.calculate_reading_ease *)

(** [char in "aeiouy"] *)
Definition is_vowel (c : char) : bool :=
  existsb (N.eqb c) (lit "aeiouy").

(** The loop of [count_syllables]: the vowel groups entered from here
    on, given whether the previous character was a vowel. *)
Fixpoint vowel_groups (word : str) (previous_was_vowel : bool) : nat :=
  match word with
  | [] => 0
  | c :: rest =>
      (if is_vowel c && negb previous_was_vowel then 1 else 0)
      + vowel_groups rest (is_vowel c)
  end.

(** [word.endswith('e')] and [word[:-1]] *)
Definition endswith_e (word : str) : bool :=
  match rev word with
  | c :: _ => (c =? 101)%N
  | [] => false
  end.

Section Readability.
Context {U : UnicodeData}.

Definition count_syllables (word : str) : nat :=
  let word := lower word in
  if length word <=? 1 then 1
  else
    let word := if endswith_e word then removelast word else word in
    Nat.max 1 (vowel_groups word false).

(** nltk's tokenisers; [None] when the call raises. *)
Record tokenizers := {
  nltk_sent_tokenize : str -> option (list str);
  nltk_word_tokenize : str -> option (list str)
}.

Definition calculate_reading_ease (tk : tokenizers) (text : str) : float :=
  if negb (truthy text) || negb (truthy (strip text)) then 0.0%float
  else
    match nltk_sent_tokenize tk text, nltk_word_tokenize tk text with
    | Some sentences, Some tokens =>
        let words := List.filter isalpha tokens in
        if (length sentences =? 0) || (length words =? 0) then 0.0%float
        else
          let syllable_count := list_sum (List.map count_syllables words) in
          let words_per_sentence :=
            (float_of_nat (length words)
             / float_of_nat (Nat.max (length sentences) 1))%float in
          let syllables_per_word :=
            (float_of_nat syllable_count
             / float_of_nat (Nat.max (length words) 1))%float in
          let score :=
            (206.835 - (1.015 * words_per_sentence)
             - (84.6 * syllables_per_word))%float in
          round2 (py_max (py_min score 100.0) 0.0)
    | _, _ => 0.0%float
    end.

End Readability.

(** * Further components *)

(** ** components/module1_document_ingestion.py *)

Definition SLASH : char := 47%N.

(** [s.rfind(c)] for one character: the last index, if any. *)
Fixpoint rfind_from (c : char) (s : str) (i : nat) (last : option nat) : option nat :=
  match s with
  | [] => last
  | x :: s' => rfind_from c s' (S i) (if (x =? c)%N then Some i else last)
  end.

Definition rfind (c : char) (s : str) : option nat := rfind_from c s 0 None.

(** [os.path.splitext(p)[1]] (POSIX): the part from the last dot on,
    when that dot comes after the last slash and after a character of
    the file name that is not a dot. *)
Definition splitext_ext (p : str) : str :=
  match rfind DOT p with
  | None => []
  | Some dot =>
      let filename := match rfind SLASH p with Some i => S i | None => 0 end in
      if dot <? filename then []
      else if existsb (fun c => negb (c =? DOT)%N) (slice p filename dot)
           then skipn dot p
           else []
  end.

(** The file system and the two readers.  A reader gives the texts of the
    pages (of the paragraphs) of a file, or the message of the exception
    it raises. *)
Record ingestion_env := {
  path_exists : str -> bool;
  fitz_pages : str -> str + list str;
  docx_paragraphs : str -> str + list str
}.

Definition extract_text_from_pdf (env : ingestion_env) (pdf_path : str) : str :=
  match fitz_pages env pdf_path with
  | inr pages => strip (concat pages)
  | inl e => lit "[ERROR] Could not extract PDF: " ++ e
  end.

Definition extract_text_from_docx (env : ingestion_env) (docx_path : str) : str :=
  match docx_paragraphs env docx_path with
  | inr paragraphs =>
      strip (concat (List.map (fun para => strip para ++ [NL])
                       (List.filter (fun para => truthy (strip para)) paragraphs)))
  | inl e => lit "[ERROR] Could not extract DOCX: " ++ e
  end.

Section Ingestion.
Context {U : UnicodeData}.

Definition extract_text (env : ingestion_env) (file_path : str) : str :=
  if negb (path_exists env file_path) then lit "[ERROR] File not found."
  else
    let ext := lower (splitext_ext file_path) in
    if str_eqb ext (lit ".pdf") then extract_text_from_pdf env file_path
    else if str_eqb ext (lit ".docx") then extract_text_from_docx env file_path
    else lit "[ERROR] Unsupported file type. Only PDF and DOCX are supported.".

End Ingestion.

(** ** components/module2_text_preprocessing.py, the clause records *)

(** The dictionary that [preprocess_clause] returns. *)
Record clause_record := {
  raw_text : str;
  cleaned_text : str;
  sentences : list str;
  entities : list (str * str)
}.

Section Preprocessing.
Context {U : UnicodeData}.

(** [extract_entities]; [nlp] is the module's spaCy model, which gives
    the entities of a text or raises. *)
Definition extract_entities (nlp : option (str -> option (list entity))) (text : str)
    : list (str * str) :=
  match nlp with
  | None => []
  | Some run =>
      match run text with
      | Some ents => List.map (fun e => (ent_text e, ent_label e)) ents
      | None => []
      end
  end.

(** [preprocess_clause]; nltk's [sent_tokenize] is called without a
    handler, so its exception ([None]) is the function's. *)
Definition preprocess_clause (tokenize : str -> option (list str))
    (nlp : option (str -> option (list entity))) (clause_text : str)
    : option clause_record :=
  let cleaned := clean_text clause_text in
  match tokenize cleaned with
  | Some sents =>
      Some {| raw_text := clause_text; cleaned_text := cleaned;
              sentences := sents; entities := extract_entities nlp cleaned |}
  | None => None
  end.

(** The loop of [preprocess_contract_text] over the clauses. *)
Fixpoint preprocess_clauses (tokenize : str -> option (list str))
    (nlp : option (str -> option (list entity))) (clauses : list str)
    : option (list clause_record) :=
  match clauses with
  | [] => Some []
  | clause :: rest =>
      match preprocess_clause tokenize nlp clause with
      | Some result =>
          match preprocess_clauses tokenize nlp rest with
          | Some processed => Some (result :: processed)
          | None => None
          end
      | None => None
      end
  end.

Definition preprocess_contract_text (tokenize : str -> option (list str))
    (nlp : option (str -> option (list entity))) (raw : str)
    : option (list clause_record) :=
  let cleaned_text := clean_text raw in
  let clauses := segment_clauses cleaned_text in
  preprocess_clauses tokenize nlp clauses.

End Preprocessing.

(** ** components/module3_clause_detection.py, the model *)

(** What loading finds: whether [transformers] and [torch] import
    ([_HAS_TRANSFORMERS]) and what [from_pretrained] gives for tokenizer
    and model together ([None] when either raises). *)
Record classifier_env := {
  _HAS_TRANSFORMERS : bool;
  from_pretrained : option (str -> option nat)
}.

(** [_load_model]: the answer and the globals [_model] / [_tokenizer]
    afterwards, given the globals before. *)
Definition _load_model (env : classifier_env) (model : option (str -> option nat))
    : bool * option (str -> option nat) :=
  if negb (_HAS_TRANSFORMERS env) then (false, model)
  else
    match from_pretrained env with
    | Some m => (true, Some m)
    | None => (false, None)
    end.

Definition ensure_model_loaded (env : classifier_env)
    (model : option (str -> option nat)) : bool * option (str -> option nat) :=
  _load_model env model.

Section Batch.
Context {U : UnicodeData}.

Definition detect_clause_types_batch (model : option (str -> option nat))
    (texts : list str) : list str :=
  List.map (detect_clause_type model) texts.

End Batch.

(** ** components/readability_metrics.py, the metrics *)

(** A JSON number of the metrics: [avg_words_per_sentence] is the integer
    0 or a float. *)
Inductive number :=
| Int (n : nat)
| Float (x : float).

Record metrics := {
  sentence_count : nat;
  word_count : nat;
  avg_words_per_sentence : number;
  complex_word_count : nat
}.

Definition zero_metrics : metrics :=
  {| sentence_count := 0; word_count := 0;
     avg_words_per_sentence := Int 0; complex_word_count := 0 |}.

Section Metrics.
Context {U : UnicodeData}.

(** [count_complex_words]; the exception of [word_tokenize] is the
    function's. *)
Definition count_complex_words (tk : tokenizers) (text : str) : option nat :=
  match nltk_word_tokenize tk (lower text) with
  | Some words =>
      Some (length (List.filter
                      (fun w => (2 <? length w) && (3 <=? count_syllables w)) words))
  | None => None
  end.

Definition calculate_all_metrics (tk : tokenizers) (text : str) : metrics :=
  if negb (truthy text) || (length (strip text) =? 0) then zero_metrics
  else
    match nltk_sent_tokenize tk text, nltk_word_tokenize tk text,
          count_complex_words tk text with
    | Some sents, Some tokens, Some complex =>
        let words := List.filter isalpha tokens in
        {| sentence_count := length sents;
           word_count := length words;
           avg_words_per_sentence :=
             if 0 <? length sents
             then Float (round2 (float_of_nat (length words)
                                 / float_of_nat (length sents))%float)
             else Int 0;
           complex_word_count := complex |}
    | _, _, _ => zero_metrics
    end.

End Metrics.

(** ** app.py, the checks of [process_document] on an upload *)

(** [s.endswith(suffix)] *)
Definition endswith (suffix s : str) : bool := startswith (rev suffix) (rev s).

(** [not raw_text or not raw_text.strip()] *)
Definition no_text (raw_text : str) : bool :=
  negb (truthy raw_text) || negb (truthy (strip raw_text)).

Section Upload.
Context {U : UnicodeData}.

(** [filename.lower().endswith(('.pdf', '.docx', '.txt'))] *)
Definition allowed_upload (filename : str) : bool :=
  existsb (fun e => endswith e (lower filename))
    [lit ".pdf"; lit ".docx"; lit ".txt"].

End Upload.

(** * Auxiliary definitions

    Closed forms, predicates and sample environments that the properties
    below are stated with. *)

(** A string that does not begin with whitespace. *)
Definition no_lead (s : str) : Prop :=
  match s with [] => True | c :: _ => isspace c = false end.

(** Length of the longest prefix of [s] inside the class [p]. *)
Fixpoint run_length (p : char -> bool) (s : str) : nat :=
  match s with
  | c :: s' => if p c then S (run_length p s') else 0
  | [] => 0
  end.

(** One replacement per maximal run of the class [p]; [in_run] tells
    that the run has been replaced already. *)
Fixpoint collapse (p : char -> bool) (repl s : str) (in_run : bool) : str :=
  match s with
  | [] => []
  | c :: s' =>
      if p c
      then (if in_run then collapse p repl s' true
            else repl ++ collapse p repl s' true)
      else c :: collapse p repl s' false
  end.

(** Every character of the class [p] is the character [x]. *)
Definition only (p : char -> bool) (x : char) (s : str) : Prop :=
  Forall (fun c => p c = true -> c = x) s.

(** No two characters of the class [p] in a row. *)
Definition no_pair (p : char -> bool) (s : str) : Prop :=
  forall l1 a b l2,
    s = l1 ++ a :: b :: l2 -> p a = true -> p b = true -> False.

(** The two together, read left to right; [after] tells that the
    character before [s] is in the class. *)
Fixpoint single_runs (p : char -> bool) (x : char) (after : bool) (s : str) : Prop :=
  match s with
  | [] => True
  | c :: s' =>
      if p c then c = x /\ after = false /\ single_runs p x true s'
      else single_runs p x false s'
  end.

(** The shape of a normalised text. *)
Definition normalized (s : str) : Prop :=
  only isspace SPACE s /\ no_pair isspace s /\ no_lead s /\ no_lead (rev s).

(** The candidates that a guarded loop appends, given what was seen. *)
Fixpoint kept (seen : gset str) (cands : list (str * legal_term))
    : list (str * legal_term) :=
  match cands with
  | [] => []
  | c :: rest =>
      if decide (fst c ∈ seen) then kept seen rest
      else c :: kept (seen ∪ {[ fst c ]}) rest
  end.

Section Candidates.
Context {U : UnicodeData}.

(** All the candidates of one run, in the order of the four loops. *)
Definition candidates (nlp : option (str -> option (list entity))) (text : str)
    : list (str * legal_term) :=
  pattern_candidates quoted_pattern text
  ++ pattern_candidates definition_pattern text
  ++ lexicon_candidates text
  ++ entity_candidates nlp text.

End Candidates.

(** A process without [transformers], for the examples. *)
Definition no_hf : simplifier_env :=
  {| _HAS_HF := false; pipeline := None; sent_tokenize := fun t => Some [t] |}.

(** A pipeline that always answers with the same summary, and a process
    in which it can be loaded. *)
Definition fixed_summary : paraphraser :=
  fun _ _ _ _ => Some [Some (lit "The parties agree as stated herein.")].

Definition with_pipeline : simplifier_env :=
  {| _HAS_HF := true; pipeline := Some fixed_summary;
     sent_tokenize := fun t => Some [t] |}.

(** The syllable estimate in the words of the specification: lower-case
    the word, strip one trailing 'e', count the entries into a vowel
    group, at least 1. *)
Definition strip_trailing_e (word : str) : str :=
  if endswith_e word then removelast word else word.

Definition syllable_estimate {U : UnicodeData} (word : str) : nat :=
  Nat.max 1 (vowel_groups (strip_trailing_e (lower word)) false).

(** The score in the words of the specification, in binary64 arithmetic:
    206.835 - 1.015 (words/sentences) - 84.6 (syllables/words), clamped
    to [0,100] and rounded to 2 decimals. *)
Definition reading_ease_formula (sentences words syllables : nat) : float :=
  round2
    (py_max
       (py_min
          (206.835
           - 1.015 * (float_of_nat words / float_of_nat sentences)
           - 84.6 * (float_of_nat syllables / float_of_nat words))%float
          100.0)
       0.0).

(** nltk replaced by whitespace splitting, one sentence per text: on the
    text "123" it answers as nltk does. *)
Definition whitespace_tokenizers : tokenizers :=
  {| nltk_sent_tokenize := fun t => Some [t];
     nltk_word_tokenize := fun t => Some (split t) |}.

(** A pattern that cannot match at any position of [s], whatever
    follows it in the pattern. *)
Definition fails {U : UnicodeData} (r : regex) (s : str) : Prop :=
  forall (A : Type) (k : kont A) pre s' prev pos g,
    s = pre ++ s' -> rmatch_at r prev s' pos g k = None.

(** What a match of [r] consumes, and what it leaves in group 1, when it
    starts at index [pos] with [g] captured so far.  The boundary [\b]
    consumes nothing; its condition on the context is left out. *)
Fixpoint accepts (r : regex) (pos : nat) (g : option (nat * nat)) (w : str)
    (g' : option (nat * nat)) : Prop :=
  match r with
  | Eps => w = [] /\ g' = g
  | Chr p => exists c, w = [c] /\ p c = true /\ g' = g
  | WordB => w = [] /\ g' = g
  | Seq r1 r2 =>
      exists w1 w2 g1,
        w = w1 ++ w2 /\ accepts r1 pos g w1 g1
        /\ accepts r2 (pos + length w1) g1 w2 g'
  | Alt r1 r2 => accepts r1 pos g w g' \/ accepts r2 pos g w g'
  | Rep p lo hi =>
      Forall (fun c => p c = true) w /\ lo <= length w
      /\ (forall h, hi = Some h -> length w <= h) /\ g' = g
  | Grp r1 => (exists g1, accepts r1 pos g w g1) /\ g' = Some (pos, pos + length w)
  end.

(** A pattern without capturing group. *)
Fixpoint group_free (r : regex) : bool :=
  match r with
  | Seq r1 r2 | Alt r1 r2 => group_free r1 && group_free r2
  | Grp _ => false
  | _ => true
  end.

(** The shape of a term that one of the two patterns captured. *)
Definition captured_term (t : str) : Prop :=
  exists c rest,
    t = c :: rest /\ ascii_isupper c = true
    /\ Forall (fun x => term_char x = true) rest /\ length rest <= 30
    /\ no_lead (rev t).

(** [c] is a contiguous piece of [t]. *)
Definition piece_of (c t : str) : Prop := exists pre post, t = pre ++ c ++ post.

(** The candidate clauses of the loop over [splits], before the length
    test: [text[pos:end_pos].strip()] for each marker in turn. *)
Fixpoint marker_candidates (text : str) (splits : list split_point) : list str :=
  match splits with
  | [] => []
  | x :: rest =>
      strip (slice text (sp_pos x)
               (match rest with
                | y :: _ => sp_pos y
                | [] => length text
                end))
      :: marker_candidates text rest
  end.

(** [match.group(1).strip()]: the term of a match of one of the two
    patterns of the extractor. *)
Definition match_term (text : str) (m : rmatch) : str := strip (group1 text m).

(** A match of the quoted pattern that starts before index [n] leaves
    the phrase that opens at [n] alone: it does not run over the quote
    at [n], and it does not have the key of the term [t] with another
    spelling. *)
Definition leaves_phrase {U : UnicodeData} (text : str) (n : nat) (t : str)
    (m : rmatch) : Prop :=
  m_start m < n ->
  m_end m <= n /\ (lower (match_term text m) = lower t -> match_term text m = t).

(** * Properties *)

(** ** Strings *)

Lemma str_eqb_eq (a b : str) : str_eqb a b = true <-> a = b.
Proof.
  revert b; induction a as [|x a IH]; intros [|y b]; simpl; split; try congruence.
  - intros H. apply andb_true_iff in H as [H1 H2].
    apply N.eqb_eq in H1. apply IH in H2. congruence.
  - intros H. injection H as -> ->. rewrite N.eqb_refl. simpl. now apply IH.
Qed.

Lemma lstrip_suffix (s : str) :
  exists pre, s = pre ++ lstrip s /\ Forall (fun c => isspace c = true) pre.
Proof.
  induction s as [|c s IH]; simpl.
  - exists []. split; [reflexivity | constructor].
  - destruct (isspace c) eqn:E.
    + destruct IH as (pre & H1 & H2). exists (c :: pre). split.
      * simpl. now rewrite <- H1.
      * now constructor.
    + exists []. split; [reflexivity | constructor].
Qed.

Lemma lstrip_no_lead (s : str) : no_lead (lstrip s).
Proof.
  induction s as [|c s IH]; simpl; [exact I|].
  destruct (isspace c) eqn:E; [exact IH | exact E].
Qed.

Lemma lstrip_id (s : str) : no_lead s -> lstrip s = s.
Proof. destruct s as [|c s]; simpl; [reflexivity | now intros ->]. Qed.

Lemma no_lead_app_l (a b : str) : no_lead (a ++ b) -> no_lead a.
Proof. destruct a; simpl; auto. Qed.

Lemma rstrip_prefix (s : str) :
  exists post, s = rstrip s ++ post /\ Forall (fun c => isspace c = true) post.
Proof.
  unfold rstrip. destruct (lstrip_suffix (rev s)) as (pre & H1 & H2).
  exists (rev pre). split.
  - rewrite <- rev_app_distr, <- H1. now rewrite rev_involutive.
  - now apply Forall_rev.
Qed.

Lemma strip_no_lead (s : str) : no_lead (strip s).
Proof.
  unfold strip. destruct (rstrip_prefix (lstrip s)) as (post & H1 & _).
  apply no_lead_app_l with post. rewrite <- H1. apply lstrip_no_lead.
Qed.

Lemma strip_no_trail (s : str) : no_lead (rev (strip s)).
Proof. unfold strip, rstrip. rewrite rev_involutive. apply lstrip_no_lead. Qed.

Lemma strip_id (s : str) : no_lead s -> no_lead (rev s) -> strip s = s.
Proof.
  intros H1 H2. unfold strip, rstrip.
  rewrite (lstrip_id s H1), (lstrip_id (rev s) H2). apply rev_involutive.
Qed.

Lemma strip_strip (s : str) : strip (strip s) = strip s.
Proof. apply strip_id; [apply strip_no_lead | apply strip_no_trail]. Qed.

(** The parts of a string that [strip] keeps and drops. *)
Lemma strip_parts (s : str) :
  exists pre post, s = pre ++ strip s ++ post
    /\ Forall (fun c => isspace c = true) pre
    /\ Forall (fun c => isspace c = true) post.
Proof.
  destruct (lstrip_suffix s) as (pre & H1 & H2).
  destruct (rstrip_prefix (lstrip s)) as (post & H3 & H4).
  exists pre, post. unfold strip. now rewrite <- H3.
Qed.

(** ** The simple patterns of the normaliser, in closed form *)

Section Patterns.
Context {U : UnicodeData}.

Lemma rep_greedy_all (p : char -> bool) (start : nat) (s : str) :
  forall prev pos g,
    rep_greedy p 0 None prev s pos g
      (fun _ _ pos' g' => Some {| m_start := start; m_end := pos'; m_group1 := g' |})
    = Some {| m_start := start; m_end := pos + run_length p s; m_group1 := g |}.
Proof.
  induction s as [|c s IH]; intros prev pos g; simpl.
  - now rewrite Nat.add_0_r.
  - destruct (p c); simpl.
    + rewrite IH. do 2 f_equal. lia.
    + now rewrite Nat.add_0_r.
Qed.

Lemma match_here_plus (p : char -> bool) (prev : option char) (s : str) (pos : nat) :
  match_here (plus p) prev s pos =
  match s with
  | c :: s' =>
      if p c
      then Some {| m_start := pos; m_end := S pos + run_length p s'; m_group1 := None |}
      else None
  | [] => None
  end.
Proof.
  unfold match_here, plus. destruct s as [|c s']; simpl; [reflexivity|].
  destruct (p c); simpl; [|reflexivity].
  now rewrite rep_greedy_all.
Qed.

Lemma sub_plus_collapse (p : char -> bool) (repl s : str) :
  forall prev pos,
    sub_from (plus p) repl prev s pos 0 = collapse p repl s false
    /\ sub_from (plus p) repl prev s pos (run_length p s) = collapse p repl s true.
Proof.
  induction s as [|c s IH]; intros prev pos; [split; reflexivity|].
  cbn [sub_from collapse run_length]. rewrite match_here_plus.
  destruct (p c) eqn:E.
  - cbn [m_end]. replace (S pos + run_length p s - pos - 1) with (run_length p s) by lia.
    split; [f_equal|]; apply IH.
  - split; f_equal; apply IH.
Qed.

Lemma re_sub_plus (p : char -> bool) (repl s : str) :
  re_sub (plus p) repl s = collapse p repl s false.
Proof. apply sub_plus_collapse. Qed.

Lemma sub_chr_filter (p : char -> bool) (s : str) :
  forall prev pos,
    sub_from (Chr p) [] prev s pos 0 = List.filter (fun c => negb (p c)) s.
Proof.
  induction s as [|c s IH]; intros prev pos; [reflexivity|].
  cbn [sub_from List.filter]. unfold match_here. cbn [rmatch_at].
  destruct (p c); cbn.
  - replace (S pos - pos - 1) with 0 by lia. apply IH.
  - f_equal. apply IH.
Qed.

Lemma re_sub_chr (p : char -> bool) (s : str) :
  re_sub (Chr p) [] s = List.filter (fun c => negb (p c)) s.
Proof. apply sub_chr_filter. Qed.

End Patterns.

Lemma replace_char (a b : char) (s : str) :
  replace [a] [b] s = List.map (fun c => if (a =? c)%N then b else c) s.
Proof.
  unfold replace. induction s as [|c s IH]; [reflexivity|].
  cbn [replace_from startswith List.map length]. 
  destruct (a =? c)%N; cbn; now rewrite IH.
Qed.

Lemma startswith_In (old s : str) (c : char) :
  startswith old s = true -> In c old -> In c s.
Proof.
  revert s; induction old as [|a old IH]; intros [|b s] H Hin; simpl in *;
    try contradiction; try discriminate.
  apply andb_true_iff in H as [H1 H2]. apply N.eqb_eq in H1. subst b.
  destruct Hin as [->|Hin]; [now left | right; now apply IH].
Qed.

(** A key with a character that the text lacks is never found. *)
Lemma replace_absent (old new s : str) (c : char) :
  In c old -> ~ In c s -> replace old new s = s.
Proof.
  intros Hold. unfold replace. induction s as [|b s IH]; intros Hs; [reflexivity|].
  cbn [replace_from]. destruct (startswith old (b :: s)) eqn:E.
  - exfalso. apply Hs. now apply startswith_In with old.
  - f_equal. apply IH. intros H. apply Hs. now right.
Qed.

(** ** Runs of a character class *)

Section Runs.
Variables (p : char -> bool) (x : char).
Hypothesis p_x : p x = true.

Lemma collapse_single_runs (s : str) (b : bool) :
  single_runs p x b (collapse p [x] s b).
Proof using p_x.
  revert b; induction s as [|c s IH]; intros b; simpl; [exact I|].
  destruct (p c) eqn:E.
  - destruct b; [apply IH|]. simpl. rewrite p_x. repeat split. apply IH.
  - simpl. rewrite E. apply IH.
Qed.

Lemma single_runs_only (s : str) (b : bool) : single_runs p x b s -> only p x s.
Proof using Type.
  revert b; induction s as [|c s IH]; intros b H; [constructor|].
  simpl in H. destruct (p c) eqn:E.
  - destruct H as (-> & _ & H). constructor; [reflexivity | now apply IH with true].
  - constructor; [congruence | now apply IH with false].
Qed.

Lemma single_runs_no_pair (s : str) (b : bool) : single_runs p x b s -> no_pair p s.
Proof using Type.
  revert b; induction s as [|c s IH]; intros b H l1 y z l2 Heq Hy Hz.
  - destruct l1; discriminate.
  - simpl in H. destruct l1 as [|w l1]; simpl in Heq; injection Heq as -> ->.
    + rewrite Hy in H. destruct H as (_ & _ & H). simpl in H. rewrite Hz in H.
      destruct H as (_ & H & _). discriminate.
    + destruct (p w); [destruct H as (_ & _ & H)|];
        eapply IH; eauto.
Qed.

Lemma no_pair_tail (c : char) (s : str) : no_pair p (c :: s) -> no_pair p s.
Proof using Type. intros H l1 a b l2 ->. apply (H (c :: l1) a b l2). reflexivity. Qed.

Lemma no_pair_segment (pre s post : str) :
  no_pair p (pre ++ s ++ post) -> no_pair p s.
Proof using Type.
  intros H l1 a b l2 ->. apply (H (pre ++ l1) a b (l2 ++ post)).
  rewrite <- !app_assoc. reflexivity.
Qed.

Lemma only_segment (pre s post : str) :
  only p x (pre ++ s ++ post) -> only p x s.
Proof using Type.
  unfold only. intros H.
  apply Forall_app in H as [_ H]. now apply Forall_app in H as [H _].
Qed.

Lemma only_absent (s : str) (c : char) :
  only p x s -> p c = true -> c <> x -> ~ In c s.
Proof using Type.
  intros H Hc Hn Hin. unfold only in H. rewrite List.Forall_forall in H.
  apply Hn. now apply H.
Qed.

(** A text whose runs are single already is left as it is. *)
Lemma collapse_fixed (s : str) :
  only p x s -> no_pair p s ->
  collapse p [x] s false = s
  /\ (match s with [] => True | c :: _ => p c = false end ->
      collapse p [x] s true = s).
Proof using Type.
  induction s as [|c s IH]; intros H1 H2; [split; reflexivity|].
  inversion H1 as [|? ? Hc H1']; subst.
  specialize (IH H1' (no_pair_tail _ _ H2)) as [IHa IHb].
  simpl. destruct (p c) eqn:E.
  - rewrite (Hc eq_refl) in *. split.
    + simpl. f_equal. apply IHb. destruct s as [|d s]; [exact I|].
      destruct (p d) eqn:Ed; [|reflexivity].
      exfalso. apply (H2 [] x d s); auto.
    + intros Hl. congruence.
  - split; [|intros _]; now f_equal.
Qed.

End Runs.

(** ** The text normaliser *)

Section Normaliser.
Context {U : UnicodeData}.

(** [clean_text] in closed form: the quotation-mark loop changes nothing,
    because its first key is replaced by itself and its second key holds a
    newline, which the whitespace pass has removed. *)
Lemma clean_text_closed_form (s : str) :
  clean_text s =
  strip (collapse isspace [SPACE]
           (List.filter (fun c => negb (is_cr_ff_vt c))
              (List.map (fun c => if (NBSP =? c)%N then SPACE else c) s))
           false).
Proof.
  unfold clean_text. rewrite replace_char, re_sub_chr, re_sub_plus.
  set (t := collapse _ _ _ _). f_equal. cbn [fold_left quote_map fst snd].
  rewrite replace_char.
  assert (Hid : List.map (fun c => if (DQUOTE =? c)%N then DQUOTE else c) t = t).
  { rewrite <- (map_id t) at 2. apply map_ext. intros c.
    destruct (N.eqb_spec DQUOTE c); congruence. }
  rewrite Hid. apply replace_absent with NL.
  - vm_compute. repeat first [left; reflexivity | right].
  - apply only_absent with isspace SPACE.
    + apply single_runs_only with false. now apply collapse_single_runs.
    + reflexivity.
    + discriminate.
Qed.

Lemma clean_text_normalized (s : str) : normalized (clean_text s).
Proof.
  rewrite clean_text_closed_form. set (t := collapse _ _ _ _).
  assert (Ht : single_runs isspace SPACE false t)
    by now apply collapse_single_runs.
  destruct (strip_parts t) as (pre & post & Heq & _ & _).
  split; [|split; [|split]].
  - apply only_segment with pre post. rewrite <- Heq.
    now apply single_runs_only with false.
  - apply no_pair_segment with pre post. rewrite <- Heq.
    now apply single_runs_no_pair with SPACE false.
  - apply strip_no_lead.
  - apply strip_no_trail.
Qed.

Lemma clean_text_fixes_normalized (s : str) : normalized s -> clean_text s = s.
Proof.
  intros (H1 & H2 & H3 & H4). rewrite clean_text_closed_form.
  assert (Hm : List.map (fun c => if (NBSP =? c)%N then SPACE else c) s = s).
  { rewrite <- (map_id s) at 2. apply map_ext_in. intros c Hc.
    destruct (N.eqb_spec NBSP c) as [<-|]; [|reflexivity].
    exfalso. revert Hc. now apply only_absent with isspace SPACE. }
  rewrite Hm.
  assert (Hf : List.filter (fun c => negb (is_cr_ff_vt c)) s = s).
  { apply forallb_filter_id. apply forallb_forall. intros c Hc.
    unfold only in H1. rewrite List.Forall_forall in H1. specialize (H1 c Hc).
    unfold is_cr_ff_vt.
    destruct (N.eqb_spec c 13) as [->|]; [now specialize (H1 eq_refl)|].
    destruct (N.eqb_spec c 12) as [->|]; [now specialize (H1 eq_refl)|].
    destruct (N.eqb_spec c 11) as [->|]; [now specialize (H1 eq_refl)|].
    reflexivity. }
  rewrite Hf. destruct (collapse_fixed isspace SPACE s H1 H2) as [-> _].
  now apply strip_id.
Qed.

End Normaliser.

(** ** The clause segmenter *)

Section Segmenter.
Context {U : UnicodeData}.

(** A pattern that must begin with a character of the class [q] changes
    nothing in a text without such a character. *)
Lemma sub_from_no_start (q : char -> bool) (r : regex) (repl s : str) :
  Forall (fun c => q c = false) s ->
  forall prev pos, sub_from (Seq (Chr q) r) repl prev s pos 0 = s.
Proof.
  induction 1 as [|c s Hc _ IH]; intros prev pos; [reflexivity|].
  cbn [sub_from]. unfold match_here. cbn [rmatch_at]. rewrite Hc.
  f_equal. apply IH.
Qed.

Lemma normalize_breaks_fixed (text : str) :
  ~ In CR text -> no_pair (eqc NL) text -> normalize_breaks text = text.
Proof.
  intros Hcr Hnl. unfold normalize_breaks.
  assert (H1 : re_sub (seq [Chr (eqc CR); opt (eqc NL)]) [NL] text = text).
  { apply sub_from_no_start. apply List.Forall_forall. intros c Hc.
    unfold eqc. destruct (N.eqb_spec CR c); [subst; contradiction | reflexivity]. }
  rewrite H1, re_sub_plus.
  apply (collapse_fixed (eqc NL) NL); [|assumption].
  apply List.Forall_forall. intros c _ Hc. unfold eqc in Hc.
  apply N.eqb_eq in Hc. congruence.
Qed.

(** A normalised text has no line break at all. *)
Lemma normalize_breaks_normalized (text : str) :
  normalized text -> normalize_breaks text = text.
Proof.
  intros (H & _). apply normalize_breaks_fixed.
  - apply only_absent with isspace SPACE; [exact H | reflexivity | discriminate].
  - intros l1 a b l2 -> Ha _. unfold eqc in Ha. apply N.eqb_eq in Ha. subst a.
    revert H. unfold only. rewrite List.Forall_forall. intros H.
    specialize (H NL). discriminate H; [|reflexivity].
    apply List.in_or_app. right. now left.
Qed.

Lemma truthy_list_nonempty {A} (l : list A) : truthy_list l = true -> l <> [].
Proof. destruct l; [discriminate | discriminate]. Qed.

Lemma marker_clauses_long (text : str) (splits : list split_point) :
  Forall (fun c => strip c = c /\ 15 < length c) (marker_clauses text splits).
Proof.
  induction splits as [|x rest IH]; [constructor|].
  cbn [marker_clauses]. apply Forall_app. split; [|exact IH].
  match goal with |- context [strip (slice ?t ?a ?b)] => set (c := strip (slice t a b)) end.
  destruct (truthy c && (15 <? length c)) eqn:E; [|constructor].
  apply andb_true_iff in E as [_ E]. apply Nat.ltb_lt in E.
  repeat constructor; [apply strip_strip | exact E].
Qed.

Lemma clean_up_app (a b : list str) : clean_up (a ++ b) = clean_up a ++ clean_up b.
Proof. unfold clean_up. now rewrite List.filter_app, List.map_app. Qed.

Lemma clean_up_long (l : list str) :
  Forall (fun c => 10 < length c) (clean_up l).
Proof.
  unfold clean_up. induction l as [|c l IH]; [constructor|].
  cbn [List.filter]. destruct (truthy (strip c) && (10 <? length (strip c))) eqn:E;
    [|exact IH].
  apply andb_true_iff in E as [_ E]. apply Nat.ltb_lt in E.
  cbn [List.map]. now constructor.
Qed.

Lemma clean_up_fixed (l : list str) :
  Forall (fun c => strip c = c /\ 15 < length c) l -> clean_up l = l.
Proof.
  unfold clean_up. induction 1 as [|c l [Hs Hl] _ IH]; [reflexivity|].
  cbn [List.filter]. rewrite Hs.
  assert (E1 : truthy c = true) by (destruct c; [simpl in Hl; lia | reflexivity]).
  assert (E2 : (10 <? length c) = true) by (apply Nat.ltb_lt; lia).
  rewrite E1, E2. cbn [andb List.map]. rewrite Hs. f_equal. exact IH.
Qed.

Lemma pre_marker_clause_short (text : str) (splits : list split_point) :
  length (pre_marker_clause text splits) <= 1.
Proof.
  destruct splits as [|x rest]; simpl; [lia|]. destruct (0 <? sp_pos x); simpl; lia.
Qed.

Lemma paragraph_clauses_long (text : str) :
  Forall (fun p => 20 < length p) (paragraph_clauses text).
Proof.
  unfold paragraph_clauses. apply List.Forall_forall. intros p Hp.
  apply List.filter_In in Hp as [_ Hp]. now apply Nat.ltb_lt.
Qed.

(** The marker path of [segment_clauses], with the clean-up pass pushed
    inside: it can only drop the text before the first marker. *)
Lemma segment_clauses_marker_path (text : str) :
  truthy (strip text) = true ->
  find_splits (normalize_breaks text) <> [] ->
  let t := normalize_breaks text in
  let kept := clean_up (pre_marker_clause t (find_splits t))
              ++ marker_clauses t (find_splits t) in
  segment_clauses text = if truthy_list kept then kept else [t].
Proof.
  intros Hs Hm t kept. unfold segment_clauses.
  assert (Ht : truthy text = true).
  { destruct text; [discriminate | reflexivity]. }
  rewrite Ht, Hs. cbn [negb orb]. fold t.
  destruct (find_splits t) as [|x rest] eqn:E; [contradiction|].
  rewrite clean_up_app, (clean_up_fixed (marker_clauses t (x :: rest))).
  - reflexivity.
  - apply marker_clauses_long.
Qed.

End Segmenter.

(** ** Claims on the text normaliser and the clause segmenter *)

(** C9: the text normaliser is idempotent: for every string [s],
    [clean_text (clean_text s)] equals [clean_text s]. *)
Theorem clean_text_idempotent {U : UnicodeData} (s : str) :
  clean_text (clean_text s) = clean_text s.
Proof.
  apply clean_text_fixes_normalized. apply clean_text_normalized.
Qed.

(** C2, at the failing input: the text of eight code points
    U+201C H i U+201D space U+2018 x U+2019 comes back unchanged, curly
    quotation marks included; the empty text gives the empty text. *)
Theorem clean_text_keeps_curly_quotes {U : UnicodeData} :
  clean_text [LDQUO; 72; 105; RDQUO; SPACE; LSQUO; 120; RSQUO]%N
  = [LDQUO; 72; 105; RDQUO; SPACE; LSQUO; 120; RSQUO]%N
  /\ clean_text [] = [].
Proof.
  rewrite !clean_text_closed_form. split; vm_compute; reflexivity.
Qed.

(** C1, as stated, fails on the whole-text fallback: for the input
    a CR LF b no marker matches and no paragraph is longer than 20
    characters, and the one clause returned is a LF b, not the input. *)
Lemma segment_clauses_whole_text_counterexample :
  ~ (forall (U : UnicodeData) (text : str),
       text <> [] ->
       find_splits (normalize_breaks text) = [] ->
       paragraph_clauses (normalize_breaks text) = [] ->
       segment_clauses text = [text]).
Proof.
  intros H.
  specialize (H ascii_only [97; CR; NL; 98]%N).
  assert (E : @segment_clauses ascii_only [97; CR; NL; 98]%N = [[97; NL; 98]%N])
    by (vm_compute; reflexivity).
  rewrite E in H. 
  assert (C : [[97; NL; 98]%N] = [[97; CR; NL; 98]%N]).
  { apply H; [discriminate | vm_compute; reflexivity | vm_compute; reflexivity]. }
  discriminate C.
Qed.

(** C1, amended: [segment_clauses] never returns the empty list.  A blank
    input comes back as its own single clause.  Otherwise, with [t] the
    input after line-break normalisation: when markers match in [t] the
    result is the marker-delimited clauses that pass the length filters,
    or [[t]] when none passes; when no marker matches it is the stripped
    blank-line paragraphs longer than 20 characters, or [[t]] when there
    is none.  [t] is the input itself when the input has no carriage
    return and no two newlines in a row, so for every output of
    [clean_text]. *)
Theorem segment_clauses_nonempty_cases {U : UnicodeData} (text : str) :
  let t := normalize_breaks text in
  let kept := clean_up (pre_marker_clause t (find_splits t))
              ++ marker_clauses t (find_splits t) in
  segment_clauses text <> []
  /\ (truthy (strip text) = false -> segment_clauses text = [text])
  /\ (truthy (strip text) = true -> find_splits t <> [] ->
      segment_clauses text = if truthy_list kept then kept else [t])
  /\ (truthy (strip text) = true -> find_splits t = [] ->
      segment_clauses text =
        if truthy_list (paragraph_clauses t) then paragraph_clauses t else [t])
  /\ Forall (fun p => 20 < length p) (paragraph_clauses t)
  /\ (~ In CR text -> no_pair (eqc NL) text -> t = text)
  /\ (forall raw, text = clean_text raw -> t = text).
Proof.
  intros t kept.
  assert (Hblank : truthy (strip text) = false -> segment_clauses text = [text]).
  { intros E. unfold segment_clauses. rewrite E.
    now rewrite orb_true_r. }
  assert (Hmark : truthy (strip text) = true -> find_splits t <> [] ->
                  segment_clauses text = if truthy_list kept then kept else [t]).
  { intros E1 E2. now apply segment_clauses_marker_path. }
  assert (Hpara : truthy (strip text) = true -> find_splits t = [] ->
                  segment_clauses text =
                    if truthy_list (paragraph_clauses t) then paragraph_clauses t
                    else [t]).
  { intros E1 E2. unfold segment_clauses.
    assert (Ht : truthy text = true) by (destruct text; [discriminate | reflexivity]).
    rewrite Ht, E1. cbn [negb orb]. fold t. now rewrite E2. }
  split; [|split; [exact Hblank | split; [exact Hmark | split; [exact Hpara | split; [|split]]]]].
  4:{ intros raw ->. apply normalize_breaks_normalized. apply clean_text_normalized. }
  - destruct (truthy (strip text)) eqn:E1.
    + destruct (find_splits t) as [|x rest] eqn:E2.
      * rewrite (Hpara eq_refl eq_refl).
        destruct (paragraph_clauses t); simpl; discriminate.
      * rewrite (Hmark eq_refl); [|discriminate].
        destruct kept; simpl; discriminate.
    + rewrite (Hblank eq_refl). discriminate.
  - apply paragraph_clauses_long.
  - apply normalize_breaks_fixed.
Qed.

(** C3, as stated, fails: in "Hello world!! Note: this clause is long
    enough." the marker [Note:] matches, and the text before it, 13
    characters long, is returned as a clause. *)
Lemma marker_path_short_clause_counterexample :
  ~ (forall (U : UnicodeData) (text : str),
       truthy (strip text) = true ->
       find_splits (normalize_breaks text) <> [] ->
       Forall (fun c => 15 <= length c) (segment_clauses text)).
Proof.
  intros H.
  specialize (H ascii_only (lit "Hello world!! Note: this clause is long enough.")).
  assert (E : @segment_clauses ascii_only
                (lit "Hello world!! Note: this clause is long enough.")
              = [lit "Hello world!!"; lit "Note: this clause is long enough."])
    by (vm_compute; reflexivity).
  rewrite E in H.
  assert (C : Forall (fun c : str => 15 <= length c)
                [lit "Hello world!!"; lit "Note: this clause is long enough."]).
  { apply H; [vm_compute; reflexivity | vm_compute; discriminate]. }
  inversion C as [|? ? C1 _]. vm_compute in C1. lia.
Qed.

Lemma long_truthy (c : str) (n : nat) :
  truthy c && (n <? length c) = (n <? length c).
Proof. destruct c as [|x c]; reflexivity. Qed.

(** The marker loop keeps exactly the candidates longer than 15. *)
Lemma marker_clauses_filter {U : UnicodeData} (text : str) (splits : list split_point) :
  marker_clauses text splits
  = List.filter (fun c => 15 <? length c) (marker_candidates text splits).
Proof.
  induction splits as [|x rest IH]; [reflexivity|].
  cbn [marker_clauses marker_candidates List.filter]. rewrite long_truthy, IH.
  now destruct (15 <? _).
Qed.

(** The clean-up pass keeps the text before the first marker exactly
    when it is longer than 10. *)
Lemma clean_up_pre_marker {U : UnicodeData} (text : str) (splits : list split_point) :
  clean_up (pre_marker_clause text splits)
  = List.filter (fun c => 10 <? length c) (pre_marker_clause text splits).
Proof.
  unfold pre_marker_clause, clean_up. destruct splits as [|x rest]; [reflexivity|].
  destruct (0 <? sp_pos x); [|reflexivity].
  cbn [List.filter]. rewrite strip_strip, long_truthy.
  destruct (10 <? _); [|reflexivity]. cbn [List.map]. now rewrite strip_strip.
Qed.

(** C3, amended: when markers are found, the candidate clauses that
    start at a marker are kept exactly when their stripped length is
    above 15, and the text before the first marker exactly when its
    stripped length is above 10 (it only meets the clean-up filter).
    The result is the kept pre-marker text followed by the kept marker
    clauses, in order; when nothing is kept it is the whole normalised
    text as one clause.  So a marker clause of at most 15 characters is
    always dropped, and a returned list of kept clauses has at most one
    leading clause longer than 10 followed by clauses longer than 15. *)
Theorem marker_path_lengths {U : UnicodeData} (text : str) :
  truthy (strip text) = true ->
  find_splits (normalize_breaks text) <> [] ->
  let t := normalize_breaks text in
  let lead := List.filter (fun c => 10 <? length c)
                (pre_marker_clause t (find_splits t)) in
  let rest := List.filter (fun c => 15 <? length c)
                (marker_candidates t (find_splits t)) in
  segment_clauses text = (if truthy_list (lead ++ rest) then lead ++ rest else [t])
  /\ length lead <= 1
  /\ Forall (fun c => 10 < length c) lead
  /\ Forall (fun c => 15 < length c) rest.
Proof.
  intros Hs Hm t lead rest.
  pose proof (segment_clauses_marker_path text Hs Hm) as E. cbv zeta in E. fold t in E.
  rewrite clean_up_pre_marker, marker_clauses_filter in E.
  fold lead rest in E. split; [exact E|]. split; [|split].
  - subst lead. etransitivity; [apply List.filter_length_le | apply pre_marker_clause_short].
  - apply List.Forall_forall. intros c Hc. apply List.filter_In in Hc as [_ Hc].
    now apply Nat.ltb_lt.
  - apply List.Forall_forall. intros c Hc. apply List.filter_In in Hc as [_ Hc].
    now apply Nat.ltb_lt.
Qed.

(** The marker path on a text with a pre-marker text of 13 characters,
    a marker clause of 8 characters, which is dropped, and a marker
    clause of 33 characters. *)
Lemma marker_path_lengths_witness :
  @segment_clauses ascii_only
    (lit "Hello world!! Note: a. Note: this clause is long enough.")
  = [lit "Hello world!!"; lit "Note: this clause is long enough."].
Proof.
  pose proof (@marker_path_lengths ascii_only
                (lit "Hello world!! Note: a. Note: this clause is long enough.")) as H.
  cbv zeta in H. destruct H as [E _].
  - vm_compute. reflexivity.
  - vm_compute. discriminate.
  - rewrite E. vm_compute. reflexivity.
Defined.

(** ** The rule-based classifier *)

(** The first rule with a matching keyword decides. *)
Lemma first_rule_first_match (earlier later : list (list str * str))
    (keywords : list str) (label t : str) :
  Forall (fun rule => any_in (fst rule) t = false) earlier ->
  any_in keywords t = true ->
  first_rule (earlier ++ (keywords, label) :: later) t = label.
Proof.
  induction 1 as [|[ks l] earlier Hr _ IH]; intros Hk; simpl.
  - now rewrite Hk.
  - simpl in Hr. rewrite Hr. now apply IH.
Qed.

Lemma first_rule_no_match (rules : list (list str * str)) (t : str) :
  Forall (fun rule => any_in (fst rule) t = false) rules ->
  first_rule rules t = lit "Other".
Proof.
  induction 1 as [|[ks l] rules Hr _ IH]; simpl; [reflexivity|].
  simpl in Hr. now rewrite Hr.
Qed.

Lemma startswith_map (f : char -> char) (w t : str) :
  startswith w t = true -> startswith (List.map f w) (List.map f t) = true.
Proof.
  revert t; induction w as [|a w IH]; intros [|b t] H; cbn in *;
    try reflexivity; try discriminate.
  apply andb_true_iff in H as [H1 H2]. apply N.eqb_eq in H1. subst b.
  rewrite N.eqb_refl. now apply IH.
Qed.

Lemma contains_map (f : char -> char) (w t : str) :
  contains w t = true -> contains (List.map f w) (List.map f t) = true.
Proof.
  induction t as [|b t IH]; intros H; cbn [contains List.map] in *.
  - rewrite orb_false_r in *. now apply (startswith_map f w []).
  - apply orb_true_iff in H as [H|H]; apply orb_true_iff.
    + left. now apply (startswith_map f w (b :: t)).
    + right. now apply IH.
Qed.

Lemma any_in_member (keywords : list str) (w t : str) :
  In w keywords -> contains w t = true -> any_in keywords t = true.
Proof.
  intros Hin Hc. unfold any_in. apply existsb_exists. now exists w.
Qed.

(** C6: the rule-based classifier is a function of the lower-cased input
    alone, evaluated against the ordered keyword table, where the first
    label with a matching keyword wins.  A text whose lower-cased form
    contains "indemnify" and no keyword of the two categories listed
    before Indemnity is classified "Indemnity" (so is an ASCII text that
    contains "indemnify" itself, under the same condition); a text whose
    lower-cased form contains no keyword of the table is classified
    "Other". *)
Theorem rule_based_classify_first_match {U : UnicodeData} :
  (forall text, _rule_based_classify text = first_rule RULES (lower text))
  /\ (forall text1 text2,
        lower text1 = lower text2 ->
        _rule_based_classify text1 = _rule_based_classify text2)
  /\ (forall text,
        contains (lit "indemnify") (lower text) = true ->
        Forall (fun rule => any_in (fst rule) (lower text) = false) (firstn 2 RULES) ->
        _rule_based_classify text = lit "Indemnity")
  /\ (forall text,
        forallb is_ascii text = true ->
        contains (lit "indemnify") text = true ->
        Forall (fun rule => any_in (fst rule) (lower text) = false) (firstn 2 RULES) ->
        _rule_based_classify text = lit "Indemnity")
  /\ (forall text,
        Forall (fun rule => any_in (fst rule) (lower text) = false) RULES ->
        _rule_based_classify text = lit "Other").
Proof.
  assert (Hi : forall text,
             contains (lit "indemnify") (lower text) = true ->
             Forall (fun rule => any_in (fst rule) (lower text) = false)
               (firstn 2 RULES) ->
             _rule_based_classify text = lit "Indemnity").
  { intros text Hc He. unfold _rule_based_classify.
    change RULES with (firstn 2 RULES ++ List.nth 2 RULES ([], []) :: skipn 3 RULES).
    apply first_rule_first_match; [exact He|].
    apply any_in_member with (lit "indemnify"); [|exact Hc].
    cbn. now left. }
  split; [reflexivity|]. split; [|split; [exact Hi | split]].
  - intros text1 text2 E. unfold _rule_based_classify. now rewrite E.
  - intros text Ha Hc He. apply Hi; [|exact He].
    unfold lower. rewrite Ha.
    now apply (contains_map ascii_tolower (lit "indemnify") text).
  - intros text H. now apply first_rule_no_match.
Qed.

(** The classifier on a text with "indemnify" and on one without keyword. *)
Lemma rule_based_classify_witness :
  @_rule_based_classify ascii_only (lit "The Contractor shall indemnify the Employer.")
    = lit "Indemnity"
  /\ @_rule_based_classify ascii_only (lit "Hello there.") = lit "Other".
Proof.
  destruct (@rule_based_classify_first_match ascii_only) as (_ & _ & Hi & _ & Ho).
  split.
  - apply Hi.
    + vm_compute. reflexivity.
    + repeat constructor.
  - apply Ho. repeat constructor.
Defined.

(** ** The legal-term extractor *)

Lemma fold_add_term (cands : list (str * legal_term)) :
  forall found seen,
    fold_left add_term cands (found, seen)
    = (found ++ List.map snd (kept seen cands),
       seen ∪ list_to_set (List.map fst cands)).
Proof.
  induction cands as [|c rest IH]; intros found seen; cbn [fold_left kept List.map].
  - rewrite app_nil_r. f_equal. set_solver.
  - unfold add_term at 2. cbn [fst snd]. destruct (decide (fst c ∈ seen)) as [Hin|Hin].
    + rewrite IH. f_equal. set_solver.
    + rewrite IH. cbn [List.map]. rewrite <- app_assoc. f_equal. set_solver.
Qed.

Lemma kept_app (seen : gset str) (a b : list (str * legal_term)) :
  kept seen (a ++ b) = kept seen a ++ kept (seen ∪ list_to_set (List.map fst a)) b.
Proof.
  revert seen; induction a as [|c a IH]; intros seen; cbn [app kept List.map].
  - f_equal. set_solver.
  - destruct (decide (fst c ∈ seen)) as [Hin|Hin].
    + rewrite IH. do 2 f_equal. set_solver.
    + cbn [app]. rewrite IH. do 3 f_equal. set_solver.
Qed.

(** The kept candidates are those that come first with their key. *)
Lemma kept_first (cands : list (str * legal_term)) :
  forall seen c,
    In c (kept seen cands) <->
    exists l1 l2, cands = l1 ++ c :: l2
                  /\ (fst c ∉ seen) /\ ~ In (fst c) (List.map fst l1).
Proof.
  induction cands as [|d rest IH]; intros seen c; cbn [kept].
  - split; [contradiction|]. intros (l1 & l2 & H & _). destruct l1; discriminate.
  - destruct (decide (fst d ∈ seen)) as [Hin|Hin].
    + rewrite IH. split.
      * intros (l1 & l2 & -> & H1 & H2). exists (d :: l1), l2.
        split; [reflexivity|]. split; [exact H1|].
        cbn. intros [E|E]; [|contradiction]. congruence.
      * intros (l1 & l2 & H & H1 & H2). destruct l1 as [|e l1]; cbn in H.
        -- injection H as -> _. contradiction.
        -- injection H as -> ->. exists l1, l2. split; [reflexivity|].
           split; [exact H1|]. intros E. apply H2. now right.
    + cbn [In]. rewrite IH. split.
      * intros [->|(l1 & l2 & -> & H1 & H2)].
        -- exists [], rest. split; [reflexivity|]. split; [exact Hin|]. intros [].
        -- exists (d :: l1), l2. split; [reflexivity|].
           split; [set_solver|]. cbn. intros [E|E]; [|contradiction]. set_solver.
      * intros (l1 & l2 & H & H1 & H2). destruct l1 as [|e l1]; cbn in H.
        -- injection H as -> _. now left.
        -- injection H as -> ->. right. exists l1, l2. split; [reflexivity|].
           split; [|intros E; apply H2; now right].
           assert (fst c <> fst e) by (intros E; apply H2; now left).
           set_solver.
Qed.

Lemma kept_keys_NoDup (cands : list (str * legal_term)) :
  forall seen, List.NoDup (List.map fst (kept seen cands)).
Proof.
  induction cands as [|d rest IH]; intros seen; cbn [kept]; [constructor|].
  destruct (decide (fst d ∈ seen)) as [Hin|Hin]; [apply IH|].
  cbn [List.map]. constructor; [|apply IH].
  intros H. apply List.in_map_iff in H as (c & Hk & Hc).
  apply kept_first in Hc as (_ & _ & _ & Hc & _). apply Hc. set_solver.
Qed.

Lemma kept_subset (cands : list (str * legal_term)) (seen : gset str) c :
  In c (kept seen cands) -> In c cands.
Proof.
  intros H. apply kept_first in H as (l1 & l2 & -> & _).
  apply List.in_or_app. right. now left.
Qed.

Section Terms_properties.
Context {U : UnicodeData}.

(** The four loops are one guarded pass over [candidates]. *)
Lemma extract_legal_terms_kept nlp (text : str) :
  truthy (strip text) = true ->
  extract_legal_terms nlp text = List.map snd (kept ∅ (candidates nlp text)).
Proof.
  intros Hs. unfold extract_legal_terms, candidates.
  assert (Ht : truthy text = true) by (destruct text; [discriminate | reflexivity]).
  rewrite Ht, Hs. cbn [negb orb].
  rewrite !fold_add_term. cbn [fst app].
  rewrite !kept_app, !List.map_app, <- !app_assoc.
  repeat f_equal; set_solver.
Qed.

(** The key under which a candidate is guarded is its term, lower-cased. *)
Lemma lexicon_titles :
  Forall (fun kc => lower (title (fst kc)) = fst kc) _LEXICON.
Proof. repeat constructor. Qed.

Lemma candidates_keys nlp (text : str) :
  Forall (fun c => fst c = lower (term (snd c))) (candidates nlp text).
Proof.
  unfold candidates. repeat (apply Forall_app; split).
  - unfold pattern_candidates. apply List.Forall_forall. intros c Hc.
    apply List.in_map_iff in Hc as (m & <- & _). reflexivity.
  - unfold pattern_candidates. apply List.Forall_forall. intros c Hc.
    apply List.in_map_iff in Hc as (m & <- & _). reflexivity.
  - unfold lexicon_candidates. apply List.Forall_forall. intros c Hc.
    apply List.in_map_iff in Hc as (kc & <- & Hkc).
    apply List.filter_In in Hkc as [Hkc _].
    pose proof lexicon_titles as H. rewrite List.Forall_forall in H.
    cbn [fst snd term new_term]. symmetry. now apply H.
  - unfold entity_candidates. destruct nlp as [run|]; [|constructor].
    destruct (run _) as [ents|]; [|constructor].
    apply List.Forall_forall. intros c Hc.
    apply List.in_map_iff in Hc as (e & <- & _). reflexivity.
Qed.

End Terms_properties.

(** *** Uniqueness and priority *)

(** The first occurrence of a key in [a ++ b] lies in [a], or the key is
    not in [a] and the occurrence is the first one in [b]. *)
Lemma first_in_app (a b l1 l2 : list (str * legal_term)) c :
  a ++ b = l1 ++ c :: l2 ->
  ~ In (fst c) (List.map fst l1) ->
  In c a
  \/ (~ In (fst c) (List.map fst a)
      /\ exists l1', b = l1' ++ c :: l2 /\ ~ In (fst c) (List.map fst l1')).
Proof.
  revert l1; induction a as [|d a IH]; intros l1 H Hn.
  - right. split; [intros []|]. now exists l1.
  - destruct l1 as [|e l1]; cbn in H; injection H as -> H.
    + left. now left.
    + destruct (IH l1 H) as [Hin|(Hk & l1' & -> & Hl)].
      * intros E. apply Hn. now right.
      * left. now right.
      * right. split.
        -- cbn. intros [E|E]; [apply Hn; now left | contradiction].
        -- now exists l1'.
Qed.

Section Terms_claims.
Context {U : UnicodeData}.

(** C4: no two records returned by [extract_legal_terms] share the same
    case-insensitive term key (the term, lower-cased), and the records
    are exactly the candidates that come first with their key in the
    order quoted-term patterns, definitional-cue patterns, lexicon
    keywords, entities: a record stems from the earliest stage that
    produces its key. *)
Theorem extract_legal_terms_unique_first_wins
    (nlp : option (str -> option (list entity))) (text : str) :
  let result := extract_legal_terms nlp text in
  let stage1 := pattern_candidates quoted_pattern text in
  let stage2 := pattern_candidates definition_pattern text in
  let stage3 := lexicon_candidates text in
  let stage4 := entity_candidates nlp text in
  let keys := List.map (fst : str * legal_term -> str) in
  List.NoDup (List.map (fun r => lower (term r)) result)
  /\ (forall r, In r result ->
        exists l1 l2,
          stage1 ++ stage2 ++ stage3 ++ stage4 = l1 ++ (lower (term r), r) :: l2
          /\ ~ In (lower (term r)) (keys l1))
  /\ (forall r, In r result ->
        let k := lower (term r) in
        In (k, r) stage1
        \/ (~ In k (keys stage1) /\ In (k, r) stage2)
        \/ (~ In k (keys stage1) /\ ~ In k (keys stage2) /\ In (k, r) stage3)
        \/ (~ In k (keys stage1) /\ ~ In k (keys stage2) /\ ~ In k (keys stage3)
            /\ In (k, r) stage4))
  /\ (truthy (strip text) = true ->
      forall l1 k r l2,
        stage1 ++ stage2 ++ stage3 ++ stage4 = l1 ++ (k, r) :: l2 ->
        ~ In k (keys l1) -> In r result).
Proof.
  intros result stage1 stage2 stage3 stage4 keys.
  destruct (truthy (strip text)) eqn:Hs.
  2:{ assert (E : result = []).
      { unfold result, extract_legal_terms. rewrite Hs. now rewrite orb_true_r. }
      rewrite E. split; [constructor|]. split; [intros r []|].
      split; [intros r [] | discriminate]. }
  assert (E : result = List.map snd (kept ∅ (candidates nlp text)))
    by now apply extract_legal_terms_kept.
  assert (Hkey : forall c, In c (kept ∅ (candidates nlp text)) ->
                           fst c = lower (term (snd c))).
  { intros c Hc. apply kept_subset in Hc.
    pose proof (candidates_keys nlp text) as H. rewrite List.Forall_forall in H.
    now apply H. }
  assert (Hfirst : forall r, In r result ->
            exists l1 l2,
              stage1 ++ stage2 ++ stage3 ++ stage4 = l1 ++ (lower (term r), r) :: l2
              /\ ~ In (lower (term r)) (keys l1)).
  { intros r Hr. rewrite E in Hr. apply List.in_map_iff in Hr as ([k r'] & Er & Hc).
    cbn in Er. subst r'. pose proof (Hkey _ Hc) as Hk. cbn in Hk. subst k.
    apply kept_first in Hc as (l1 & l2 & Hc & _ & Hn). now exists l1, l2. }
  split; [|split; [exact Hfirst | split]].
  - rewrite E, List.map_map.
    rewrite (List.map_ext_in _ fst); [apply kept_keys_NoDup|].
    intros c Hc. symmetry. now apply Hkey.
  - intros r Hr k. destruct (Hfirst r Hr) as (l1 & l2 & Hc & Hn). fold k in Hc, Hn.
    destruct (first_in_app _ _ _ _ _ Hc Hn) as [H1|(N1 & l1' & Hc2 & Hn2)];
      [now left | right].
    destruct (first_in_app _ _ _ _ _ Hc2 Hn2) as [H2|(N2 & l2' & Hc3 & Hn3)];
      [now left | right].
    destruct (first_in_app _ _ _ _ _ Hc3 Hn3) as [H3|(N3 & l3' & Hc4 & Hn4)];
      [now left | right].
    repeat split; try assumption. rewrite Hc4. apply List.in_or_app. right. now left.
  - intros _ l1 k r l2 Hc Hn. rewrite E. apply List.in_map_iff.
    exists (k, r). split; [reflexivity|]. apply kept_first.
    exists l1, l2. split; [exact Hc|]. split; [set_solver | exact Hn].
Qed.

End Terms_claims.

(** *** Quoted defined terms *)

Lemma slice_middle (a b c : str) :
  slice (a ++ b ++ c) (length a) (length a + length b) = b.
Proof.
  unfold slice. replace (length a + length b - length a) with (length b) by lia.
  rewrite List.skipn_app, List.skipn_all, Nat.sub_diag, List.skipn_O. cbn [app].
  rewrite List.firstn_app, List.firstn_all, Nat.sub_diag, List.firstn_O.
  apply app_nil_r.
Qed.

Lemma strip_truthy (s : str) (c : char) :
  In c s -> isspace c = false -> truthy (strip s) = true.
Proof.
  intros Hin Hc. destruct (strip_parts s) as (pre & post & E & Hpre & Hpost).
  destruct (strip s) as [|d t]; [|reflexivity]. exfalso.
  rewrite E in Hin. cbn in Hin. apply List.in_app_or in Hin.
  rewrite List.Forall_forall in Hpre, Hpost.
  destruct Hin as [H|H]; [apply Hpre in H | apply Hpost in H]; congruence.
Qed.

(** ** The matcher is sound *)

Lemma accepts_group_free (r : regex) :
  group_free r = true ->
  forall pos g w g', accepts r pos g w g' -> g' = g.
Proof.
  induction r as [| p | | r1 IH1 r2 IH2 | r1 IH1 r2 IH2 | p lo hi | r1 IH1];
    cbn [group_free accepts]; intros Hf pos g w g' H.
  - tauto.
  - destruct H as (c & _ & _ & H). exact H.
  - tauto.
  - apply andb_true_iff in Hf as [F1 F2].
    destruct H as (w1 & w2 & g1 & _ & H1 & H2).
    rewrite (IH2 F2 _ _ _ _ H2). exact (IH1 F1 _ _ _ _ H1).
  - apply andb_true_iff in Hf as [F1 F2].
    destruct H as [H|H]; [exact (IH1 F1 _ _ _ _ H) | exact (IH2 F2 _ _ _ _ H)].
  - tauto.
  - discriminate.
Qed.

Section Soundness.
Context {U : UnicodeData}.

Lemma rep_greedy_sound {A} (p : char -> bool) (s : str) :
  forall lo hi prev pos g (k : kont A) x,
    rep_greedy p lo hi prev s pos g k = Some x ->
    exists w s' prev',
      s = w ++ s' /\ Forall (fun c => p c = true) w /\ lo <= length w
      /\ (forall h, hi = Some h -> length w <= h)
      /\ k prev' s' (pos + length w) g = Some x.
Proof.
  assert (Hnil : forall lo hi prev pos g (k : kont A) x t,
             match lo with O => k prev t pos g | S _ => None end = Some x ->
             exists w s' prev',
               t = w ++ s' /\ Forall (fun c => p c = true) w /\ lo <= length w
               /\ (forall h, hi = Some h -> length w <= h)
               /\ k prev' s' (pos + length w) g = Some x).
  { intros lo hi prev pos g k x t H. destruct lo; [|discriminate].
    exists [], t, prev. cbn [app length]. rewrite Nat.add_0_r.
    repeat split; [constructor | lia | intros; lia | exact H]. }
  induction s as [|c s IH]; intros lo hi prev pos g k x H; cbn [rep_greedy] in H.
  - exact (Hnil _ hi _ _ _ _ _ _ H).
  - destruct (p c && more_allowed hi) eqn:E; [|exact (Hnil _ hi _ _ _ _ _ _ H)].
    apply andb_true_iff in E as [Ep Em].
    destruct (rep_greedy p (pred lo) (option_map pred hi) (Some c) s (S pos) g k)
      as [y|] eqn:Er; [|exact (Hnil _ hi _ _ _ _ _ _ H)].
    injection H as <-.
    apply IH in Er as (w & s' & prev' & -> & Hw & Hlo & Hhi & Hk).
    exists (c :: w), s', prev'. cbn [app length].
    replace (pos + S (length w)) with (S pos + length w) by lia.
    repeat split; [now constructor | lia | | exact Hk].
    intros h ->. destruct h as [|h]; [discriminate|].
    specialize (Hhi h eq_refl). lia.
Qed.

Lemma rmatch_at_sound {A} (r : regex) :
  forall prev s pos g (k : kont A) x,
    rmatch_at r prev s pos g k = Some x ->
    exists w s' prev' g',
      s = w ++ s' /\ accepts r pos g w g'
      /\ k prev' s' (pos + length w) g' = Some x.
Proof.
  induction r as [| p | | r1 IH1 r2 IH2 | r1 IH1 r2 IH2 | p lo hi | r1 IH1];
    intros prev s pos g k x H; cbn [rmatch_at] in H.
  - exists [], s, prev, g. cbn. rewrite Nat.add_0_r. auto.
  - destruct s as [|c s]; [discriminate|]. destruct (p c) eqn:Ep; [|discriminate].
    exists [c], s, (Some c), g. cbn [app length accepts].
    replace (pos + 1) with (S pos) by lia. split; [reflexivity|].
    split; [now exists c | exact H].
  - destruct (xorb _ _); [|discriminate].
    exists [], s, prev, g. cbn. rewrite Nat.add_0_r. auto.
  - apply IH1 in H as (w1 & s1 & prev1 & g1 & -> & H1 & H).
    apply IH2 in H as (w2 & s2 & prev2 & g2 & -> & H2 & H).
    exists (w1 ++ w2), s2, prev2, g2. rewrite <- app_assoc, length_app, Nat.add_assoc.
    split; [reflexivity|]. split; [|exact H]. cbn [accepts]. now exists w1, w2, g1.
  - destruct (rmatch_at r1 prev s pos g k) as [y|] eqn:E1.
    + injection H as <-. apply IH1 in E1 as (w & s' & prev' & g' & -> & H1 & H).
      exists w, s', prev', g'. cbn [accepts]. auto.
    + apply IH2 in H as (w & s' & prev' & g' & -> & H2 & H).
      exists w, s', prev', g'. cbn [accepts]. auto.
  - apply rep_greedy_sound in H as (w & s' & prev' & -> & Hw & Hlo & Hhi & Hk).
    exists w, s', prev', g. cbn [accepts]. auto 6.
  - apply IH1 in H as (w & s' & prev' & g' & -> & H1 & H).
    exists w, s', prev', (Some (pos, pos + length w)). cbn [accepts].
    split; [reflexivity|]. split; [|exact H]. split; [now exists g' | reflexivity].
Qed.

Lemma match_here_sound (r : regex) prev (s : str) pos m :
  match_here r prev s pos = Some m ->
  exists w s' g',
    s = w ++ s' /\ accepts r pos None w g'
    /\ m = {| m_start := pos; m_end := pos + length w; m_group1 := g' |}.
Proof.
  unfold match_here. intros H.
  apply rmatch_at_sound in H as (w & s' & prev' & g' & -> & Ha & H).
  injection H as <-. now exists w, s', g'.
Qed.

Lemma finditer_from_sound (r : regex) (s : str) :
  forall prev pos skip m,
    In m (finditer_from r prev s pos skip) ->
    exists pre w s' g',
      s = pre ++ w ++ s' /\ accepts r (pos + length pre) None w g'
      /\ m = {| m_start := pos + length pre;
                m_end := pos + length pre + length w; m_group1 := g' |}.
Proof.
  induction s as [|c s IH]; intros prev pos skip m H; cbn [finditer_from] in H;
    [contradiction|].
  assert (Hrec : forall prev' skip',
             In m (finditer_from r prev' s (S pos) skip') ->
             exists pre w s' g',
               c :: s = pre ++ w ++ s' /\ accepts r (pos + length pre) None w g'
               /\ m = {| m_start := pos + length pre;
                         m_end := pos + length pre + length w; m_group1 := g' |}).
  { intros prev' skip' Hin.
    apply IH in Hin as (pre & w & s' & g' & -> & Ha & ->).
    exists (c :: pre), w, s', g'. cbn [app length].
    replace (pos + S (length pre)) with (S pos + length pre) by lia. auto. }
  destruct skip as [|n]; [|now apply Hrec in H].
  destruct (match_here r prev (c :: s) pos) as [m0|] eqn:E; [|now apply Hrec in H].
  destruct H as [<-|H]; [|now apply Hrec in H].
  apply match_here_sound in E as (w & s' & g' & E & Ha & ->).
  exists [], w, s', g'. cbn [app length]. rewrite Nat.add_0_r. auto.
Qed.

Lemma finditer_sound (r : regex) (text : str) m :
  In m (finditer r text) ->
  exists pre w s' g',
    text = pre ++ w ++ s' /\ accepts r (length pre) None w g'
    /\ m = {| m_start := length pre; m_end := length pre + length w;
              m_group1 := g' |}.
Proof.
  intros H. apply finditer_from_sound in H. exact H.
Qed.

End Soundness.

Lemma ascii_isupper_not_space (c : char) : ascii_isupper c = true -> isspace c = false.
Proof.
  unfold ascii_isupper, isspace, in_range. intros H.
  apply andb_true_iff in H as [H1 H2].
  apply N.leb_le in H1. apply N.leb_le in H2.
  repeat (apply orb_false_iff; split);
    first [ apply N.eqb_neq; lia
          | apply andb_false_iff;
            first [ right; apply N.leb_gt; lia | left; apply N.leb_gt; lia ] ].
Qed.

Section Quoted.
Context {U : UnicodeData}.

(** A greedy repetition that can take the whole run [run], and whose
    continuation succeeds right after it, takes the whole run. *)
Lemma rep_greedy_exact {A} (p : char -> bool) (run tail : str) (x : A) :
  Forall (fun c => p c = true) run ->
  match tail with [] => True | c :: _ => p c = false end ->
  forall lo hi prev pos g (k : kont A),
    lo <= length run -> length run <= hi ->
    (forall prev', k prev' tail (pos + length run) g = Some x) ->
    rep_greedy p lo (Some hi) prev (run ++ tail) pos g k = Some x.
Proof.
  intros Hrun Htail. induction Hrun as [|c run Hc _ IH];
    intros lo hi prev pos g k Hlo Hhi Hk.
  - cbn in Hlo. assert (lo = 0) by lia. subst lo.
    specialize (Hk prev). cbn in Hk. rewrite Nat.add_0_r in Hk.
    cbn [app]. destruct tail as [|d tail]; cbn; [exact Hk|].
    rewrite Htail. cbn. exact Hk.
  - cbn [app rep_greedy]. rewrite Hc. cbn in Hhi.
    destruct hi as [|hi]; [lia|]. cbn [more_allowed andb option_map pred].
    rewrite (IH (pred lo) hi (Some c) (S pos) g k); [reflexivity | cbn in Hlo; lia | lia |].
    intros prev'. specialize (Hk prev'). cbn in Hk.
    now replace (S pos + length run) with (pos + S (length run)) by lia.
Qed.

Lemma quote_not_term_char (q : char) : is_quote q = true -> term_char q = false.
Proof.
  unfold is_quote. intros H. apply orb_true_iff in H as [H|H];
    apply N.eqb_eq in H; subst q; reflexivity.
Qed.

(** The quoted-term pattern on a quoted capitalised phrase. *)
Lemma match_here_quoted (q1 q2 c : char) (rest suffix : str) prev pos :
  is_quote q1 = true -> is_quote q2 = true ->
  ascii_isupper c = true ->
  Forall (fun x => term_char x = true) rest ->
  2 <= length rest <= 30 ->
  match_here quoted_pattern prev (q1 :: c :: rest ++ q2 :: suffix) pos
  = Some {| m_start := pos;
            m_end := S (S (S pos + length rest));
            m_group1 := Some (S pos, S (S pos + length rest)) |}.
Proof.
  intros Hq1 Hq2 Hc Hrest [Hlo Hhi].
  unfold match_here, quoted_pattern, term_group. cbn [rmatch_at].
  rewrite Hq1, Hc.
  apply rep_greedy_exact; try assumption; try lia.
  - now apply quote_not_term_char.
  - intros prev'. rewrite Hq2. do 3 f_equal; lia.
Qed.

(** No match of the quoted-term pattern starts in a text without
    straight quotation marks. *)
Lemma finditer_quoted_skip (prefix s : str) :
  Forall (fun x => is_quote x = false) prefix ->
  forall prev pos,
    exists prev',
      finditer_from quoted_pattern prev (prefix ++ s) pos 0
      = finditer_from quoted_pattern prev' s (pos + length prefix) 0.
Proof.
  induction 1 as [|c prefix Hc _ IH]; intros prev pos.
  - exists prev. cbn. now rewrite Nat.add_0_r.
  - cbn [app finditer_from]. unfold match_here at 1, quoted_pattern at 1.
    cbn [rmatch_at]. rewrite Hc.
    destruct (IH (Some c) (S pos)) as (prev' & E). exists prev'.
    rewrite E. cbn [length]. now replace (S pos + length prefix) with (pos + S (length prefix)) by lia.
Qed.

(** The first candidate of the quoted-term loop. *)
Lemma quoted_candidates_head (prefix suffix : str) (q1 q2 c : char) (rest : str) :
  Forall (fun x => is_quote x = false) prefix ->
  is_quote q1 = true -> is_quote q2 = true ->
  ascii_isupper c = true ->
  Forall (fun x => term_char x = true) rest ->
  2 <= length rest <= 30 ->
  let t := strip (c :: rest) in
  exists more,
    pattern_candidates quoted_pattern (prefix ++ q1 :: c :: rest ++ q2 :: suffix)
    = (lower t, new_term t (lit "Defined Term") (lower t)) :: more.
Proof.
  intros Hp Hq1 Hq2 Hc Hrest Hlen t.
  unfold pattern_candidates, finditer.
  destruct (finditer_quoted_skip prefix (q1 :: c :: rest ++ q2 :: suffix) Hp None 0)
    as (prev' & E).
  rewrite E. cbn [finditer_from Nat.add].
  rewrite (match_here_quoted q1 q2 c rest suffix prev' (length prefix)) by assumption.
  cbn [List.map]. eexists. f_equal.
  assert (G : group1 (prefix ++ q1 :: c :: rest ++ q2 :: suffix)
                {| m_start := length prefix;
                   m_end := S (S (S (length prefix) + length rest));
                   m_group1 := Some (S (length prefix),
                                     S (S (length prefix) + length rest)) |}
              = c :: rest).
  { unfold group1. cbn [m_group1].
    change (prefix ++ q1 :: c :: rest ++ q2 :: suffix)
      with (prefix ++ [q1] ++ (c :: rest) ++ q2 :: suffix).
    rewrite app_assoc.
    replace (S (length prefix)) with (length (prefix ++ [q1]))
      by (rewrite length_app; cbn; lia).
    replace (S (length (prefix ++ [q1]) + length rest))
      with (length (prefix ++ [q1]) + length (c :: rest)) by (cbn; lia).
    apply slice_middle. }
  rewrite G. reflexivity.
Qed.

End Quoted.

Lemma filter_nil_iff {A} (f : A -> bool) (l : list A) :
  (forall x, In x l -> f x = false) -> List.filter f l = [].
Proof.
  induction l as [|a l IH]; intros H; [reflexivity|]. cbn.
  rewrite (H a) by now left. apply IH. intros x Hx. apply H. now right.
Qed.

(** A list has a first element with a decidable property, or none. *)
Lemma first_with {A} (f : A -> bool) (l : list A) :
  Forall (fun x => f x = false) l
  \/ exists l1 x l2, l = l1 ++ x :: l2 /\ Forall (fun y => f y = false) l1 /\ f x = true.
Proof.
  induction l as [|a l IH]; [left; constructor|].
  destruct (f a) eqn:E.
  - right. exists [], a, l. repeat split; [constructor | exact E].
  - destruct IH as [IH|(l1 & x & l2 & -> & H1 & H2)].
    + left. now constructor.
    + right. exists (a :: l1), x, l2. repeat split; [now constructor | exact H2].
Qed.

Section Scan.
Context {U : UnicodeData}.

Lemma match_here_start (r : regex) prev (s : str) pos m :
  match_here r prev s pos = Some m -> m_start m = pos.
Proof.
  intros H. apply match_here_sound in H as (w & s' & g' & _ & _ & ->). reflexivity.
Qed.

(** The scan of [a ++ b] when no match that starts in [a] runs into
    [b]: the matches that start in [a], then the scan of [b]. *)
Lemma finditer_from_split (r : regex) (a b : str) :
  forall prev pos skip,
    skip <= length a ->
    Forall (fun m => m_start m < pos + length a -> m_end m <= pos + length a)
      (finditer_from r prev (a ++ b) pos skip) ->
    exists before prev',
      finditer_from r prev (a ++ b) pos skip
      = before ++ finditer_from r prev' b (pos + length a) 0
      /\ Forall (fun m => m_start m < pos + length a) before.
Proof.
  induction a as [|c a IH]; intros prev pos skip Hskip Hall.
  - cbn in Hskip. assert (skip = 0) by lia. subst skip.
    exists [], prev. cbn [app length]. rewrite Nat.add_0_r. split; [reflexivity | constructor].
  - cbn [app length finditer_from] in *.
    replace (pos + S (length a)) with (S pos + length a) in * by lia.
    destruct skip as [|n].
    + destruct (match_here r prev (c :: a ++ b) pos) as [m|] eqn:E.
      * pose proof (match_here_start _ _ _ _ _ E) as Hst.
        apply List.Forall_cons_iff in Hall as [Hm Hrest].
        destruct (IH (Some c) (S pos) (m_end m - pos - 1)) as (before & prev' & E' & Hb);
          [rewrite Hst in Hm; lia | exact Hrest |].
        exists (m :: before), prev'. rewrite E'. split; [reflexivity|].
        constructor; [lia | exact Hb].
      * destruct (IH (Some c) (S pos) 0) as (before & prev' & E' & Hb);
          [lia | exact Hall |].
        exists before, prev'. now rewrite E'.
    + destruct (IH (Some c) (S pos) n) as (before & prev' & E' & Hb);
        [lia | exact Hall |].
      exists before, prev'. now rewrite E'.
Qed.

End Scan.

Section Quoted_claims.
Context {U : UnicodeData}.

Lemma quoted_term_first (nlp : option (str -> option (list entity)))
    (prefix suffix : str) (q1 q2 c : char) (rest : str) :
  Forall (fun x => is_quote x = false) prefix ->
  is_quote q1 = true -> is_quote q2 = true ->
  ascii_isupper c = true ->
  Forall (fun x => term_char x = true) rest ->
  2 <= length rest <= 30 ->
  let text := prefix ++ q1 :: c :: rest ++ q2 :: suffix in
  let t := strip (c :: rest) in
  List.filter (fun r => str_eqb (term r) t) (extract_legal_terms nlp text)
  = [new_term t (lit "Defined Term") (lower t)].
Proof.
  intros Hp Hq1 Hq2 Hc Hrest Hlen text t.
  assert (Hs : truthy (strip text) = true).
  { apply strip_truthy with c.
    - unfold text. apply List.in_or_app. right. right. now left.
    - unfold ascii_isupper, in_range in Hc. apply andb_true_iff in Hc as [H1 H2].
      apply N.leb_le in H1, H2. unfold isspace, in_range.
      repeat match goal with
             | |- context [(?a <=? ?b)%N] => destruct (N.leb_spec a b); try lia
             | |- context [(?a =? ?b)%N] => destruct (N.eqb_spec a b); try lia
             end; reflexivity. }
  rewrite (extract_legal_terms_kept nlp text Hs).
  pose proof (candidates_keys nlp text) as Hkeys.
  unfold candidates in *.
  destruct (quoted_candidates_head prefix suffix q1 q2 c rest Hp Hq1 Hq2 Hc Hrest Hlen)
    as (more & E).
  fold text in E. fold t in E. rewrite E in *. clear E.
  set (k0 := lower t) in *.
  cbn [app] in *.
  set (cands := more ++ _) in *.
  cbn [kept fst] in *.
  destruct (decide (k0 ∈ (∅ : gset str))) as [Hin|_]; [set_solver|].
  cbn [List.map List.filter snd term new_term].
  assert (Ett : str_eqb t t = true) by now apply str_eqb_eq.
  rewrite Ett. f_equal. apply filter_nil_iff.
  intros r Hr. apply List.in_map_iff in Hr as (c' & <- & Hc').
  destruct (str_eqb (term (snd c')) t) eqn:Et; [|reflexivity]. exfalso.
  apply str_eqb_eq in Et.
  pose proof (kept_subset _ _ _ Hc') as Hsub.
  apply kept_first in Hc' as (_ & _ & _ & Hns & _).
  inversion Hkeys as [|? ? _ Hk]; subst.
  rewrite List.Forall_forall in Hk. specialize (Hk c' Hsub).
  apply Hns. rewrite Hk, Et. fold k0. set_solver.
Qed.

(** The quoted loop decides a key at its first match with that key: the
    records with a term [t] of that key are the one of that match, when
    its term is [t], and none otherwise. *)
Lemma first_quoted_match_decides (nlp : option (str -> option (list entity)))
    (text : str) (before after : list rmatch) (m : rmatch) (t : str) :
  truthy (strip text) = true ->
  finditer quoted_pattern text = before ++ m :: after ->
  Forall (fun m' => lower (match_term text m') <> lower t) before ->
  lower (match_term text m) = lower t ->
  List.filter (fun r => str_eqb (term r) t) (extract_legal_terms nlp text)
  = if str_eqb (match_term text m) t
    then [new_term (match_term text m) (lit "Defined Term") (lower (match_term text m))]
    else [].
Proof.
  intros Hs Hfi Hbefore Hk.
  rewrite (extract_legal_terms_kept nlp text Hs).
  pose proof (candidates_keys nlp text) as Hkeys.
  unfold candidates in *. unfold pattern_candidates at 1 in Hkeys.
  unfold pattern_candidates at 1. rewrite Hfi in *.
  rewrite List.map_app in *. cbn [List.map] in *. fold (match_term text m) in *.
  rewrite <- app_assoc in *. cbn [app] in *.
  set (f := fun m0 : rmatch =>
              (lower (strip (group1 text m0)),
               new_term (strip (group1 text m0)) (lit "Defined Term")
                 (lower (strip (group1 text m0))))) in *.
  set (A := List.map f before) in *.
  set (c0 := (lower (match_term text m),
              new_term (match_term text m) (lit "Defined Term")
                (lower (match_term text m)))) in *.
  set (B := List.map f after ++ _) in *.
  apply List.Forall_app in Hkeys as [HA HcB].
  apply List.Forall_cons_iff in HcB as [_ HB].
  assert (HkA : ~ In (lower t) (List.map fst A)).
  { intros Hin. apply List.in_map_iff in Hin as (c & Ec & Hc).
    subst A. apply List.in_map_iff in Hc as (m' & <- & Hm').
    rewrite List.Forall_forall in Hbefore. apply (Hbefore m' Hm'). exact Ec. }
  rewrite kept_app. cbn [kept fst].
  destruct (decide (fst c0 ∈ (∅ ∪ list_to_set (List.map fst A) : gset str))) as [Hin|_].
  { exfalso. apply HkA. rewrite <- Hk.
    apply elem_of_union in Hin as [Hin|Hin]; [set_solver|].
    apply elem_of_list_to_set in Hin. now apply list_elem_of_In. }
  rewrite List.map_app, List.filter_app. cbn [List.map List.filter].
  rewrite (filter_nil_iff _ (List.map snd (kept ∅ A))).
  2:{ intros r Hr. apply List.in_map_iff in Hr as (c & <- & Hc).
      apply kept_subset in Hc.
      destruct (str_eqb (term (snd c)) t) eqn:Et; [|reflexivity]. exfalso.
      apply str_eqb_eq in Et. apply HkA. apply List.in_map_iff. exists c.
      split; [|exact Hc]. rewrite List.Forall_forall in HA. rewrite (HA c Hc). now rewrite Et. }
  rewrite (filter_nil_iff _ (List.map snd (kept _ B))).
  2:{ intros r Hr. apply List.in_map_iff in Hr as (c & <- & Hc).
      pose proof (kept_subset _ _ _ Hc) as Hsub.
      apply kept_first in Hc as (_ & _ & _ & Hns & _).
      destruct (str_eqb (term (snd c)) t) eqn:Et; [|reflexivity]. exfalso.
      apply str_eqb_eq in Et. apply Hns.
      rewrite List.Forall_forall in HB. rewrite (HB c Hsub), Et, <- Hk.
      subst c0. cbn [fst]. set_solver. }
  cbn [app snd term new_term]. subst c0. cbn [snd].
  reflexivity.
Qed.

(** A quoted phrase that the earlier matches leave alone gives its
    record. *)
Lemma quoted_term_general (nlp : option (str -> option (list entity)))
    (prefix suffix : str) (q1 q2 c : char) (rest : str) :
  is_quote q1 = true -> is_quote q2 = true ->
  ascii_isupper c = true ->
  Forall (fun x => term_char x = true) rest ->
  2 <= length rest <= 30 ->
  let text := prefix ++ q1 :: c :: rest ++ q2 :: suffix in
  let t := strip (c :: rest) in
  Forall (leaves_phrase text (length prefix) t) (finditer quoted_pattern text) ->
  List.filter (fun r => str_eqb (term r) t) (extract_legal_terms nlp text)
  = [new_term t (lit "Defined Term") (lower t)].
Proof.
  intros Hq1 Hq2 Hc Hrest Hlen text t Hall.
  assert (Hs : truthy (strip text) = true).
  { apply strip_truthy with c.
    - unfold text. apply List.in_or_app. right. right. now left.
    - now apply ascii_isupper_not_space. }
  destruct (finditer_from_split quoted_pattern prefix
              (q1 :: c :: rest ++ q2 :: suffix) None 0 0) as (before & prev' & E & Hb).
  { lia. }
  { fold text. fold (finditer quoted_pattern text).
    eapply List.Forall_impl; [|exact Hall]. intros m Hm Hlt. now apply Hm. }
  fold text in E. fold (finditer quoted_pattern text) in E.
  cbn [Nat.add] in E, Hb.
  assert (Estep : forall prev x s pos,
             finditer_from quoted_pattern prev (x :: s) pos 0
             = match match_here quoted_pattern prev (x :: s) pos with
               | Some m => m :: finditer_from quoted_pattern (Some x) s (S pos)
                                  (m_end m - pos - 1)
               | None => finditer_from quoted_pattern (Some x) s (S pos) 0
               end) by reflexivity.
  rewrite Estep in E. clear Estep.
  rewrite (match_here_quoted q1 q2 c rest suffix prev' (length prefix)) in E
    by assumption.
  set (m0 := {| m_start := length prefix;
                m_end := S (S (S (length prefix) + length rest));
                m_group1 := Some (S (length prefix), S (S (length prefix) + length rest)) |})
    in E.
  set (later := finditer_from _ _ _ _ _) in E.
  assert (G : match_term text m0 = t).
  { unfold match_term, group1, m0. cbn [m_group1]. unfold text.
    change (prefix ++ q1 :: c :: rest ++ q2 :: suffix)
      with (prefix ++ [q1] ++ (c :: rest) ++ q2 :: suffix).
    rewrite app_assoc.
    replace (S (length prefix)) with (length (prefix ++ [q1]))
      by (rewrite length_app; cbn; lia).
    replace (S (length (prefix ++ [q1]) + length rest))
      with (length (prefix ++ [q1]) + length (c :: rest)) by (cbn; lia).
    now rewrite slice_middle. }
  assert (Hearlier : Forall (fun m => lower (match_term text m) = lower t ->
                                      match_term text m = t) before).
  { apply List.Forall_forall. intros m Hm.
    rewrite List.Forall_forall in Hall, Hb.
    apply Hall; [|now apply Hb]. rewrite E. apply List.in_or_app. now left. }
  destruct (first_with (fun m => str_eqb (lower (match_term text m)) (lower t)) before)
    as [Hnone | (l1 & m1 & l2 & -> & Hl1 & Hm1)].
  - rewrite (first_quoted_match_decides nlp text before later m0 t Hs E).
    + rewrite G. now rewrite (proj2 (str_eqb_eq t t) eq_refl).
    + eapply List.Forall_impl; [|exact Hnone]. intros m Hm Em.
      apply str_eqb_eq in Em. congruence.
    + now rewrite G.
  - apply str_eqb_eq in Hm1.
    assert (Hm1t : match_term text m1 = t).
    { rewrite List.Forall_forall in Hearlier. apply Hearlier; [|exact Hm1].
      apply List.in_or_app. right. now left. }
    rewrite <- app_assoc in E. cbn [app] in E.
    rewrite (first_quoted_match_decides nlp text l1 (l2 ++ m0 :: later) m1 t Hs E).
    + rewrite Hm1t. now rewrite (proj2 (str_eqb_eq t t) eq_refl).
    + eapply List.Forall_impl; [|exact Hl1]. intros m Hm Em.
      apply str_eqb_eq in Em. congruence.
    + exact Hm1.
Qed.

(** C5, as stated, fails: in the text of the two quoted phrases
    "EFFECTIVE DATE" and "Effective Date" (straight quotes) the first one
    takes the key, and no record has the term "Effective Date". *)
Lemma quoted_effective_date_counterexample :
  ~ (forall (U : UnicodeData) (nlp : option (str -> option (list entity)))
            (text : str),
       contains (DQUOTE :: lit "Effective Date" ++ [DQUOTE]) text = true ->
       exists r,
         List.filter (fun r => str_eqb (term r) (lit "Effective Date"))
           (extract_legal_terms nlp text) = [r]
         /\ category r = lit "Defined Term").
Proof.
  intros H.
  specialize (H ascii_only None
                (DQUOTE :: lit "EFFECTIVE DATE" ++ [DQUOTE] ++ lit " and "
                 ++ DQUOTE :: lit "Effective Date" ++ [DQUOTE])).
  destruct H as (r & Hr & _); [vm_compute; reflexivity|].
  vm_compute in Hr. discriminate Hr.
Qed.

(** C5, amended: [extract_legal_terms] recognises as a quoted defined
    term a phrase of 3 to 31 characters (an ASCII capital followed by 2
    to 30 ASCII letters or whitespace characters) enclosed in straight
    single or double quotation marks (curly ones are not recognised),
    when every match of the quoted pattern that starts before the phrase
    leaves it alone: none runs over its opening quotation mark, and none
    has the same lower-cased term in another spelling.  The result then
    has exactly one record whose term is the phrase (stripped), and its
    category is "Defined Term".  This is so in particular when no
    straight quotation mark comes before the phrase, and for the phrase
    "Effective Date" in double quotes under the same conditions.  The
    condition on the spelling cannot be dropped: when the first match of
    the quoted pattern with the key of a term has another spelling, no
    record has that term. *)
Theorem quoted_term_recognized (nlp : option (str -> option (list entity))) :
  (forall (prefix suffix : str) (q1 q2 c : char) (rest : str),
     is_quote q1 = true -> is_quote q2 = true ->
     ascii_isupper c = true ->
     Forall (fun x => term_char x = true) rest ->
     2 <= length rest <= 30 ->
     let text := prefix ++ q1 :: c :: rest ++ q2 :: suffix in
     let t := strip (c :: rest) in
     Forall (leaves_phrase text (length prefix) t) (finditer quoted_pattern text) ->
     List.filter (fun r => str_eqb (term r) t) (extract_legal_terms nlp text)
     = [new_term t (lit "Defined Term") (lower t)])
  /\ (forall (prefix suffix : str) (q1 q2 c : char) (rest : str),
        Forall (fun x => is_quote x = false) prefix ->
        is_quote q1 = true -> is_quote q2 = true ->
        ascii_isupper c = true ->
        Forall (fun x => term_char x = true) rest ->
        2 <= length rest <= 30 ->
        List.filter (fun r => str_eqb (term r) (strip (c :: rest)))
          (extract_legal_terms nlp (prefix ++ q1 :: c :: rest ++ q2 :: suffix))
        = [new_term (strip (c :: rest)) (lit "Defined Term")
             (lower (strip (c :: rest)))])
  /\ (forall (prefix suffix : str),
        let text := prefix ++ DQUOTE :: lit "Effective Date" ++ DQUOTE :: suffix in
        Forall (leaves_phrase text (length prefix) (lit "Effective Date"))
          (finditer quoted_pattern text) ->
        List.filter (fun r => str_eqb (term r) (lit "Effective Date"))
          (extract_legal_terms nlp text)
        = [new_term (lit "Effective Date") (lit "Defined Term") (lit "effective date")])
  /\ (forall (prefix suffix : str),
        Forall (fun x => is_quote x = false) prefix ->
        List.filter (fun r => str_eqb (term r) (lit "Effective Date"))
          (extract_legal_terms nlp
             (prefix ++ DQUOTE :: lit "Effective Date" ++ DQUOTE :: suffix))
        = [new_term (lit "Effective Date") (lit "Defined Term") (lit "effective date")])
  /\ (forall (text t : str) (before after : list rmatch) (m : rmatch),
        finditer quoted_pattern text = before ++ m :: after ->
        Forall (fun m' => lower (match_term text m') <> lower t) before ->
        lower (match_term text m) = lower t ->
        match_term text m <> t ->
        List.filter (fun r => str_eqb (term r) t) (extract_legal_terms nlp text) = []).
Proof.
  split; [|split; [|split; [|split]]].
  - intros. now apply quoted_term_general.
  - intros. now apply quoted_term_first.
  - intros prefix suffix text Hall.
    apply (quoted_term_general nlp prefix suffix DQUOTE DQUOTE 69 (lit "ffective Date"));
      try reflexivity.
    + repeat constructor.
    + cbn. lia.
    + exact Hall.
  - intros prefix suffix Hp.
    apply (quoted_term_first nlp prefix suffix DQUOTE DQUOTE 69 (lit "ffective Date"));
      try reflexivity; try assumption.
    + repeat constructor.
    + cbn. lia.
  - intros text t before after m Hfi Hbefore Hk Hne.
    destruct (truthy (strip text)) eqn:Hs.
    + rewrite (first_quoted_match_decides nlp text before after m t Hs Hfi Hbefore Hk).
      destruct (str_eqb (match_term text m) t) eqn:E; [|reflexivity].
      apply str_eqb_eq in E. contradiction.
    + unfold extract_legal_terms. rewrite Hs, orb_true_r. reflexivity.
Qed.

End Quoted_claims.

(** The quoted phrase "Effective Date" after another quoted phrase, in
    the text: "Company" and the "Effective Date" apply. *)
Lemma quoted_term_recognized_witness :
  List.filter (fun r => str_eqb (term r) (lit "Effective Date"))
    (@extract_legal_terms ascii_only None
       ((DQUOTE :: lit "Company" ++ DQUOTE :: lit " and the ")
        ++ DQUOTE :: lit "Effective Date" ++ DQUOTE :: lit " apply."))
  = [new_term (lit "Effective Date") (lit "Defined Term") (lit "effective date")].
Proof.
  apply (proj1 (proj2 (proj2 (@quoted_term_recognized ascii_only None)))
           (DQUOTE :: lit "Company" ++ DQUOTE :: lit " and the ") (lit " apply.")).
  apply List.Forall_forall. intros m Hm. vm_compute in Hm.
  destruct Hm as [<- | [<- | []]]; intros Hlt.
  - split; [vm_compute; lia|]. intros Hk. vm_compute in Hk. discriminate Hk.
  - vm_compute in Hlt. lia.
Defined.

(** Runs of [extract_legal_terms] without spaCy on four short texts:
    a curly-quoted phrase and a quoted phrase of two characters give no
    record, a quoted phrase of 31 characters gives one, and a term that
    is both quoted and in the lexicon gives the quoted record only. *)
Example extract_legal_terms_runs :
  @extract_legal_terms ascii_only None (LDQUO :: lit "Effective Date" ++ [RDQUO]) = []
  /\ @extract_legal_terms ascii_only None (DQUOTE :: lit "Ab" ++ [DQUOTE]) = []
  /\ List.map term
       (@extract_legal_terms ascii_only None
          (DQUOTE :: lit "Abcdefghijklmnopqrstuvwxyzabcde" ++ [DQUOTE]))
     = [lit "Abcdefghijklmnopqrstuvwxyzabcde"]
  /\ List.map (fun r => (term r, category r))
       (@extract_legal_terms ascii_only None
          (lit "The " ++ DQUOTE :: lit "Indemnity" ++ DQUOTE :: lit " covers indemnity."))
     = [(lit "Indemnity", lit "Defined Term")].
Proof. repeat split; vm_compute; reflexivity. Qed.

(** ** The simplifier *)

Section Simplifier_claims.
Context {U : UnicodeData}.

(** C7: when no paraphrasing capability is available (none is loaded,
    and none can be: [transformers] is missing, or loading was attempted
    before, or loading fails now), [simplify_text] returns its input
    unchanged for every input and every level; and whatever the
    capability, an input of fewer than 10 words (indeed of at most 10)
    is returned unchanged. *)
Theorem simplify_text_unchanged (env : simplifier_env) (st : simplifier_state)
    (text : str) (max_length : nat) (level : str) :
  (_simplifier st = None ->
   _HAS_HF env = false \/ _load_attempted st = true \/ pipeline env = None ->
   fst (simplify_text env st text max_length level) = text)
  /\ (length (split text) < 10 ->
      fst (simplify_text env st text max_length level) = text)
  /\ (length (split text) <= 10 ->
      fst (simplify_text env st text max_length level) = text).
Proof.
  assert (Hshort : length (split text) <= 10 ->
                   fst (simplify_text env st text max_length level) = text).
  { intros Hw. unfold simplify_text.
    destruct (negb (truthy text) || negb (truthy (strip text))); [reflexivity|].
    match goal with |- context [_simplifier ?s] => destruct (_simplifier s) end;
      [|reflexivity].
    assert (E : (10 <? length (split text)) = false) by (apply Nat.ltb_ge; lia).
    now rewrite E. }
  split; [|split; [intros H; apply Hshort; lia | exact Hshort]].
  intros Hnone Hwhy. unfold simplify_text.
  destruct (negb (truthy text) || negb (truthy (strip text))); [reflexivity|].
  rewrite Hnone. cbn [andb].
  unfold ensure_simplifier_loaded. rewrite Hnone.
  destruct (_HAS_HF env) eqn:Ehf; cbn [andb negb]; [|now rewrite Hnone].
  destruct (_load_attempted st) eqn:Ela; cbn [negb]; [now rewrite Hnone|].
  destruct Hwhy as [H|[H|H]]; try discriminate.
  rewrite H. reflexivity.
Qed.


End Simplifier_claims.

(** A long text without capability, and a short text with a loaded
    pipeline. *)
Lemma simplify_text_unchanged_witness :
  fst (@simplify_text ascii_only no_hf
         {| _simplifier := None; _load_attempted := false |}
         (lit "The parties hereby agree to all of the terms that are stated herein today.")
         60 (lit "advanced"))
  = lit "The parties hereby agree to all of the terms that are stated herein today."
  /\ fst (@simplify_text ascii_only with_pipeline
            {| _simplifier := Some fixed_summary; _load_attempted := true |}
            (lit "The parties agree to the terms.") 60 (lit "advanced"))
     = lit "The parties agree to the terms.".
Proof.
  split.
  - apply (proj1 (@simplify_text_unchanged ascii_only no_hf
                    {| _simplifier := None; _load_attempted := false |}
                    (lit "The parties hereby agree to all of the terms that are stated herein today.")
                    60 (lit "advanced"))).
    + reflexivity.
    + left. reflexivity.
  - apply (proj1 (proj2 (@simplify_text_unchanged ascii_only with_pipeline
                    {| _simplifier := Some fixed_summary; _load_attempted := true |}
                    (lit "The parties agree to the terms.") 60 (lit "advanced")))).
    vm_compute. lia.
Defined.



(** ** Readability *)

Section Readability_claims.
Context {U : UnicodeData}.

(** The shortcut of [count_syllables] for words of at most one
    character agrees with the general rule. *)
Lemma count_syllables_estimate (word : str) :
  count_syllables word = syllable_estimate word.
Proof.
  unfold count_syllables, syllable_estimate, strip_trailing_e.
  destruct (lower word) as [|c [|d w]]; try reflexivity.
  cbn [length Nat.leb endswith_e rev app].
  destruct (c =? 101)%N; [reflexivity|].
  cbn [vowel_groups]. destruct (is_vowel c); reflexivity.
Qed.

(** C8, amended: [calculate_reading_ease] is total.  It returns exactly
    0.0 for empty or whitespace-only input, when a tokeniser raises, and
    when the text has no sentence or no alphabetic token.  For every
    other input it returns 206.835 - 1.015 (words/sentences) - 84.6
    (syllables/words), clamped to [0,100] and rounded to 2 decimals,
    where the syllables of a word are estimated by lower-casing,
    stripping one trailing 'e' and counting the entries into a vowel
    group, with a minimum of 1. *)
Theorem calculate_reading_ease_cases (tk : tokenizers) (text : str) :
  (truthy (strip text) = false -> calculate_reading_ease tk text = 0.0%float)
  /\ (nltk_sent_tokenize tk text = None \/ nltk_word_tokenize tk text = None ->
      calculate_reading_ease tk text = 0.0%float)
  /\ (forall sentences tokens,
        nltk_sent_tokenize tk text = Some sentences ->
        nltk_word_tokenize tk text = Some tokens ->
        sentences = [] \/ List.filter isalpha tokens = [] ->
        calculate_reading_ease tk text = 0.0%float)
  /\ (forall sentences tokens,
        truthy (strip text) = true ->
        nltk_sent_tokenize tk text = Some sentences ->
        nltk_word_tokenize tk text = Some tokens ->
        sentences <> [] -> List.filter isalpha tokens <> [] ->
        calculate_reading_ease tk text
        = reading_ease_formula (length sentences)
            (length (List.filter isalpha tokens))
            (list_sum (List.map syllable_estimate (List.filter isalpha tokens))))
  /\ (forall word, count_syllables word = syllable_estimate word).
Proof.
  split; [|split; [|split; [|split]]].
  - intros E. unfold calculate_reading_ease. rewrite E. now rewrite orb_true_r.
  - intros H. unfold calculate_reading_ease.
    destruct (negb (truthy text) || negb (truthy (strip text))); [reflexivity|].
    destruct H as [H|H]; rewrite H; [reflexivity|].
    destruct (nltk_sent_tokenize tk text); reflexivity.
  - intros sentences tokens Hs Hw H. unfold calculate_reading_ease.
    destruct (negb (truthy text) || negb (truthy (strip text))); [reflexivity|].
    rewrite Hs, Hw. destruct H as [-> | ->]; [reflexivity|].
    cbn [length]. now rewrite orb_true_r.
  - intros sentences tokens Ht Hs Hw Hne1 Hne2. unfold calculate_reading_ease.
    assert (Ett : truthy text = true) by (destruct text; [discriminate | reflexivity]).
    rewrite Ett, Ht, Hs, Hw. cbn [negb orb].
    set (words := List.filter isalpha tokens) in *.
    destruct sentences as [|s0 ss]; [contradiction|].
    destruct words as [|w0 ws] eqn:Ew; [contradiction|].
    cbn [length Nat.eqb orb]. unfold reading_ease_formula.
    rewrite !Nat.max_l by (cbn; lia).
    rewrite (List.map_ext count_syllables syllable_estimate count_syllables_estimate).
    reflexivity.
  - exact count_syllables_estimate.
Qed.

End Readability_claims.

(** A blank text, and "the cat sat": one sentence, three words, three
    syllables. *)
Lemma calculate_reading_ease_witness :
  @calculate_reading_ease ascii_only whitespace_tokenizers (lit "   ") = 0.0%float
  /\ @calculate_reading_ease ascii_only whitespace_tokenizers (lit "the cat sat")
     = reading_ease_formula 1 3 3.
Proof.
  destruct (@calculate_reading_ease_cases ascii_only whitespace_tokenizers (lit "   "))
    as (H1 & _).
  destruct (@calculate_reading_ease_cases ascii_only whitespace_tokenizers
              (lit "the cat sat")) as (_ & _ & _ & H4 & _).
  split.
  - apply H1. reflexivity.
  - apply (H4 [lit "the cat sat"] [lit "the"; lit "cat"; lit "sat"]);
      try reflexivity; discriminate.
Defined.

(** C8, as stated, fails: the text "123" is not blank and has one
    sentence but no alphabetic token; the code returns 0.0, while the
    formula divides zero syllables by zero words, which is not 0.0 (and
    with the code's own guard of the divisor it would be 100.0). *)
Lemma calculate_reading_ease_counterexample :
  ~ (forall (U : UnicodeData) (tk : tokenizers) (text : str)
            (sentences tokens : list str),
       truthy (strip text) = true ->
       nltk_sent_tokenize tk text = Some sentences ->
       nltk_word_tokenize tk text = Some tokens ->
       calculate_reading_ease tk text
       = reading_ease_formula (length sentences)
           (length (List.filter isalpha tokens))
           (list_sum (List.map count_syllables (List.filter isalpha tokens)))).
Proof.
  intros H.
  specialize (H ascii_only whitespace_tokenizers (lit "123") [lit "123"] [lit "123"]
                eq_refl eq_refl eq_refl).
  apply (f_equal (fun x => PrimFloat.eqb x x)) in H.
  vm_compute in H. discriminate H.
Qed.

(** * Further properties *)

(** ** The text normaliser, continued *)

(** Whitespace is all that a text of whitespace-free characters loses. *)
Lemma filter_all_space (l : str) :
  Forall (fun c => isspace c = true) l ->
  List.filter (fun c => negb (isspace c)) l = [].
Proof.
  induction 1 as [|c l Hc _ IH]; [reflexivity|]. cbn. now rewrite Hc.
Qed.

Lemma filter_strip (t : str) :
  List.filter (fun c => negb (isspace c)) (strip t)
  = List.filter (fun c => negb (isspace c)) t.
Proof.
  destruct (strip_parts t) as (pre & post & E & Hpre & Hpost).
  rewrite E at 2. rewrite !List.filter_app.
  rewrite (filter_all_space pre Hpre), (filter_all_space post Hpost).
  now rewrite app_nil_r.
Qed.

Lemma filter_collapse_space (t : str) (b : bool) :
  List.filter (fun c => negb (isspace c)) (collapse isspace [SPACE] t b)
  = List.filter (fun c => negb (isspace c)) t.
Proof.
  revert b; induction t as [|c t IH]; intros b; [reflexivity|].
  cbn [collapse List.filter]. destruct (isspace c) eqn:E; cbn [negb].
  - destruct b; [apply IH|]. cbn. apply IH.
  - cbn [List.filter]. rewrite E. cbn [negb]. f_equal. apply IH.
Qed.

Lemma is_cr_ff_vt_space (c : char) : is_cr_ff_vt c = true -> isspace c = true.
Proof.
  unfold is_cr_ff_vt. intros H.
  repeat (apply orb_true_iff in H as [H|H]); apply N.eqb_eq in H; subst c; reflexivity.
Qed.

Section Normaliser_more.
Context {U : UnicodeData}.

(** X1: the output of [clean_text] is in normal form: its only
    whitespace character is the ordinary space, no two of them are
    adjacent, and it neither begins nor ends with one. *)
Theorem clean_text_shape (s : str) :
  Forall (fun c => isspace c = true -> c = SPACE) (clean_text s)
  /\ (forall l1 a b l2,
        clean_text s = l1 ++ a :: b :: l2 ->
        ~ (isspace a = true /\ isspace b = true))
  /\ (forall c rest, clean_text s = c :: rest -> isspace c = false)
  /\ (forall front c, clean_text s = front ++ [c] -> isspace c = false).
Proof.
  destruct (clean_text_normalized s) as (H1 & H2 & H3 & H4).
  split; [exact H1|]. split; [|split].
  - intros l1 a b l2 E [Ha Hb]. exact (H2 l1 a b l2 E Ha Hb).
  - intros c rest E. rewrite E in H3. exact H3.
  - intros front c E. rewrite E, rev_app_distr in H4. exact H4.
Qed.

(** X2: [clean_text] changes whitespace only: the characters that are
    not whitespace come out as they came in, in the same order; so the
    result is empty exactly when the input is blank. *)
Theorem clean_text_keeps_non_whitespace (s : str) :
  List.filter (fun c => negb (isspace c)) (clean_text s)
  = List.filter (fun c => negb (isspace c)) s
  /\ (clean_text s = [] <-> forallb isspace s = true).
Proof.
  assert (E : List.filter (fun c => negb (isspace c)) (clean_text s)
              = List.filter (fun c => negb (isspace c)) s).
  { rewrite clean_text_closed_form, filter_strip, filter_collapse_space.
    induction s as [|c s IH]; [reflexivity|].
    cbn [List.map List.filter].
    destruct (N.eqb_spec NBSP c) as [<-|Hn].
    - cbn. exact IH.
    - destruct (is_cr_ff_vt c) eqn:Ec; cbn [negb].
      + rewrite (is_cr_ff_vt_space c Ec). cbn. exact IH.
      + cbn [List.filter]. destruct (isspace c); cbn [negb]; [exact IH|].
        f_equal. exact IH. }
  split; [exact E|]. split.
  - intros H. rewrite H in E. cbn in E.
    apply forallb_forall. intros c Hc.
    destruct (isspace c) eqn:Ec; [reflexivity|]. exfalso.
    assert (Hin : In c (List.filter (fun c => negb (isspace c)) s)).
    { apply List.filter_In. split; [exact Hc|]. now rewrite Ec. }
    rewrite <- E in Hin. exact Hin.
  - intros H. destruct (clean_text s) as [|c rest] eqn:Ec; [reflexivity|]. exfalso.
    destruct (clean_text_normalized s) as (_ & _ & Hl & _).
    rewrite Ec in Hl. cbn in Hl.
    assert (Hin : In c (List.filter (fun c => negb (isspace c)) s)).
    { rewrite <- E. cbn. rewrite Hl. now left. }
    apply List.filter_In in Hin as [Hin Hc].
    rewrite forallb_forall in H. rewrite (H c Hin) in Hc. discriminate.
Qed.

(** X3: a carriage return, form feed or vertical tab is deleted, not
    turned into a space: the text on its two sides is joined. *)
Theorem clean_text_drops_cr_ff_vt (a b : str) (c : char) :
  is_cr_ff_vt c = true ->
  clean_text (a ++ c :: b) = clean_text (a ++ b).
Proof.
  intros Hc. rewrite !clean_text_closed_form. do 2 f_equal.
  rewrite !List.map_app, !List.filter_app. f_equal.
  cbn [List.map List.filter].
  assert (Hn : (NBSP =? c)%N = false).
  { unfold is_cr_ff_vt in Hc.
    repeat (apply orb_true_iff in Hc as [Hc|Hc]); apply N.eqb_eq in Hc; subst c;
      reflexivity. }
  rewrite Hn, Hc. reflexivity.
Qed.

End Normaliser_more.

(** The words of a line and of the next one, separated by a lone
    carriage return, come out as one word. *)
Lemma clean_text_drops_cr_ff_vt_witness :
  @clean_text ascii_only (lit "first" ++ CR :: lit "second")
  = @clean_text ascii_only (lit "first" ++ lit "second").
Proof.
  apply (@clean_text_drops_cr_ff_vt ascii_only (lit "first") (lit "second") CR).
  reflexivity.
Defined.

(** ** Patterns that need a character the text lacks *)

Section Failing.
Context {U : UnicodeData}.

Lemma rep_greedy_none {A} (p : char -> bool) (s : str) :
  forall lo hi prev pos g (k : kont A),
    (forall pre s' prev' pos' g', s = pre ++ s' -> k prev' s' pos' g' = None) ->
    rep_greedy p lo hi prev s pos g k = None.
Proof.
  induction s as [|c s IH]; intros lo hi prev pos g k Hk; cbn [rep_greedy].
  - destruct lo; [|reflexivity]. now apply (Hk []).
  - rewrite (IH (pred lo) (option_map pred hi) (Some c) (S pos) g k).
    + destruct (p c && more_allowed hi); (destruct lo; [|reflexivity]);
        now apply (Hk []).
    + intros pre s' prev' pos' g' E. apply (Hk (c :: pre)). now rewrite E.
Qed.

(** A pattern in front of a failing continuation fails. *)
Lemma rmatch_at_none {A} (r : regex) :
  forall (s : str) prev pos g (k : kont A),
    (forall pre s' prev' pos' g', s = pre ++ s' -> k prev' s' pos' g' = None) ->
    rmatch_at r prev s pos g k = None.
Proof.
  induction r as [|p| |r1 IH1 r2 IH2|r1 IH1 r2 IH2|p lo hi|r1 IH1];
    intros s prev pos g k Hk; cbn [rmatch_at].
  - now apply (Hk []).
  - destruct s as [|c s]; [reflexivity|]. destruct (p c); [|reflexivity].
    now apply (Hk [c]).
  - destruct (xorb _ _); [|reflexivity]. now apply (Hk []).
  - apply IH1. intros pre s' prev' pos' g' E. apply IH2.
    intros pre2 s2 prev2 pos2 g2 E2. apply (Hk (pre ++ pre2)).
    now rewrite E, E2, app_assoc.
  - rewrite IH1 by exact Hk. now apply IH2.
  - now apply rep_greedy_none.
  - apply IH1. intros pre s' prev' pos' g' E. now apply (Hk pre).
Qed.

Lemma fails_chr (q : char -> bool) (s : str) :
  Forall (fun c => q c = false) s -> fails (Chr q) s.
Proof.
  intros H A k pre s' prev pos g E. cbn [rmatch_at].
  destruct s' as [|c s']; [reflexivity|].
  rewrite List.Forall_forall in H. rewrite (H c); [reflexivity|].
  rewrite E. apply List.in_or_app. right. now left.
Qed.

Lemma fails_seq_l (r1 r2 : regex) (s : str) : fails r1 s -> fails (Seq r1 r2) s.
Proof. intros H A k pre s' prev pos g E. cbn [rmatch_at]. now apply (H _ _ pre). Qed.

Lemma fails_seq_r (r1 r2 : regex) (s : str) : fails r2 s -> fails (Seq r1 r2) s.
Proof.
  intros H A k pre s' prev pos g E. cbn [rmatch_at]. apply rmatch_at_none.
  intros pre2 s2 prev2 pos2 g2 E2. apply (H _ _ (pre ++ pre2)).
  now rewrite E, E2, app_assoc.
Qed.

Lemma fails_grp (r : regex) (s : str) : fails r s -> fails (Grp r) s.
Proof. intros H A k pre s' prev pos g E. cbn [rmatch_at]. now apply (H _ _ pre). Qed.

Lemma fails_tail (r : regex) (c : char) (s : str) : fails r (c :: s) -> fails r s.
Proof.
  intros H A k pre s' prev pos g E. apply (H _ _ (c :: pre)). now rewrite E.
Qed.

Lemma finditer_fails (r : regex) (s : str) :
  fails r s -> forall prev pos, finditer_from r prev s pos 0 = [].
Proof.
  induction s as [|c s IH]; intros H prev pos; [reflexivity|].
  cbn [finditer_from]. unfold match_here. rewrite (H _ _ []) by reflexivity.
  apply IH. now apply fails_tail with c.
Qed.

Lemma split_re_fails (r : regex) (s : str) :
  fails r s ->
  forall prev pos cur, split_re_from r prev s pos 0 cur = [rev cur ++ s].
Proof.
  induction s as [|c s IH]; intros H prev pos cur; cbn [split_re_from].
  - now rewrite app_nil_r.
  - unfold match_here. rewrite (H _ _ []) by reflexivity.
    rewrite IH by now apply fails_tail with c.
    cbn [rev]. now rewrite <- app_assoc.
Qed.

End Failing.

(** ** The segmenter on normalised text *)

Lemma In_insert_split (x y : split_point) (l : list split_point) :
  In x (insert_split y l) -> x = y \/ In x l.
Proof.
  induction l as [|z l IH]; cbn [insert_split].
  - intros [<-|[]]. now left.
  - destruct (sp_pos y <=? sp_pos z).
    + intros [<-|H]; [now left | now right].
    + intros [<-|H]; [right; now left|].
      destruct (IH H) as [->|H']; [now left | right; now right].
Qed.

Lemma In_sort_splits (x : split_point) (l : list split_point) :
  In x (sort_splits l) -> In x l.
Proof.
  induction l as [|y l IH]; cbn; [auto|]. intros H.
  apply In_insert_split in H as [->|H]; [now left | right; now apply IH].
Qed.

Lemma slice_segment (t : str) (a b : nat) :
  exists pre post, t = pre ++ slice t a b ++ post.
Proof.
  exists (firstn a t), (skipn (b - a) (skipn a t)). unfold slice.
  now rewrite List.firstn_skipn, List.firstn_skipn.
Qed.

Lemma normalized_strip_segment (t pre x post : str) :
  only isspace SPACE t -> no_pair isspace t -> t = pre ++ x ++ post ->
  normalized (strip x).
Proof.
  intros H1 H2 E. destruct (strip_parts x) as (p1 & p2 & Ex & _ & _).
  assert (Et : t = (pre ++ p1) ++ strip x ++ (p2 ++ post)).
  { rewrite E, Ex at 1. now rewrite <- !app_assoc. }
  rewrite Et in H1, H2. split; [|split; [|split]].
  - now apply only_segment in H1.
  - now apply no_pair_segment in H2.
  - apply strip_no_lead.
  - apply strip_no_trail.
Qed.

Section Pipeline.
Context {U : UnicodeData}.

(** Every split point stems from a match of its marker. *)
Lemma find_splits_origin (t : str) (x : split_point) :
  In x (find_splits t) ->
  exists pl, In pl markers /\ sp_label x = snd pl /\ finditer (fst pl) t <> [].
Proof.
  intros H. apply In_sort_splits in H. apply List.in_flat_map in H as (pl & Hpl & H).
  exists pl. split; [exact Hpl|]. apply List.in_map_iff in H as (m & <- & Hm).
  split; [reflexivity|]. intros E. rewrite E in Hm. exact Hm.
Qed.

Lemma no_newline_fails_and (t : str) :
  ~ In NL t ->
  fails (Grp (seq [WordB; word_i (lit "AND"); star isspace; Chr (eqc NL)])) t.
Proof.
  intros H. apply fails_grp. cbn [seq fold_right].
  do 3 apply fails_seq_r. apply fails_seq_l. apply fails_chr.
  apply List.Forall_forall. intros c Hc. unfold eqc.
  destruct (N.eqb_spec NL c); [subst; contradiction | reflexivity].
Qed.

Lemma no_newline_fails_numbered (t : str) :
  ~ In NL t ->
  fails (Grp (seq [Chr (eqc NL); star isspace; plus isdecimal_char; Chr (eqc DOT);
                   plus isspace; Chr upper_i])) t.
Proof.
  intros H. apply fails_grp. cbn [seq fold_right].
  apply fails_seq_l. apply fails_chr.
  apply List.Forall_forall. intros c Hc. unfold eqc.
  destruct (N.eqb_spec NL c); [subst; contradiction | reflexivity].
Qed.

Lemma normalized_no_newline (t : str) : normalized t -> ~ In NL t.
Proof.
  intros (H & _). apply only_absent with isspace SPACE;
    [exact H | reflexivity | discriminate].
Qed.

(** X4: [preprocess_contract_text] segments the output of [clean_text],
    which has no newline; so the two markers that need one, the numbered
    clause and the AND separator, never produce a split point there. *)
Theorem newline_markers_never_match_clean_text (raw : str) :
  Forall (fun x => sp_label x <> lit "NUMBERED_CLAUSE"
                   /\ sp_label x <> lit "AND_SEPARATOR")
    (find_splits (clean_text raw)).
Proof.
  set (t := clean_text raw).
  assert (Hnl : ~ In NL t)
    by (apply normalized_no_newline, clean_text_normalized).
  apply List.Forall_forall. intros x Hx.
  apply find_splits_origin in Hx as (pl & Hpl & -> & Hm).
  unfold markers in Hpl. cbn [In] in Hpl.
  repeat (destruct Hpl as [Hpl|Hpl];
          [subst pl; cbn [fst snd] in *;
           first [ exfalso; apply Hm; unfold finditer;
                   apply finditer_fails;
                   first [now apply no_newline_fails_and
                         | now apply no_newline_fails_numbered]
                 | split; intros E; vm_compute in E; discriminate E ] |]).
  contradiction.
Qed.

(** On the output of [clean_text] the paragraph pattern never matches. *)
Lemma re_split_clean (t : str) :
  ~ In NL t ->
  re_split (seq [Chr (eqc NL); star isspace; plus (eqc NL)]) t = [t].
Proof.
  intros H. unfold re_split. rewrite split_re_fails; [reflexivity|].
  cbn [seq fold_right]. apply fails_seq_l. apply fails_chr.
  apply List.Forall_forall. intros c Hc. unfold eqc.
  destruct (N.eqb_spec NL c); [subst; contradiction | reflexivity].
Qed.

(** X5: when no marker matches in the output of [clean_text], the
    paragraph fallback cannot split it: the whole normalised text is the
    only clause, whatever its length. *)
Theorem segment_clauses_clean_text_no_marker (raw : str) :
  find_splits (clean_text raw) = [] ->
  segment_clauses (clean_text raw) = [clean_text raw].
Proof.
  intros Hm. set (t := clean_text raw) in *.
  assert (Hn : normalized t) by apply clean_text_normalized.
  assert (Hs : strip t = t).
  { destruct Hn as (_ & _ & H3 & H4). now apply strip_id. }
  unfold segment_clauses. rewrite Hs.
  destruct (truthy t) eqn:Et; cbn [negb orb]; [|reflexivity].
  rewrite (normalize_breaks_normalized t Hn), Hm.
  unfold paragraph_clauses. rewrite (re_split_clean t (normalized_no_newline t Hn)).
  cbn [List.filter List.map]. rewrite Hs, Et. cbn [List.map List.filter].
  rewrite Hs. destruct (20 <? length t); reflexivity.
Qed.

Lemma segment_clauses_not_nil (text : str) : segment_clauses text <> [].
Proof.
  unfold segment_clauses.
  destruct (negb (truthy text) || negb (truthy (strip text))); [discriminate|].
  destruct (find_splits _).
  - destruct (paragraph_clauses _); cbn; discriminate.
  - destruct (clean_up _); cbn; discriminate.
Qed.

(** The clauses of a normalised text are normalised. *)
Lemma segment_clauses_normalized (t : str) :
  normalized t -> Forall normalized (segment_clauses t).
Proof.
  intros Hn. pose proof Hn as (H1 & H2 & H3 & H4).
  assert (Hs : strip t = t) by now apply strip_id.
  unfold segment_clauses. rewrite Hs.
  destruct (truthy t) eqn:Et; cbn [negb orb]; [|now repeat constructor].
  rewrite (normalize_breaks_normalized t Hn).
  assert (Hseg : forall a b, normalized (strip (slice t a b))).
  { intros a b. destruct (slice_segment t a b) as (pre & post & E).
    now apply (normalized_strip_segment t pre _ post). }
  destruct (find_splits t) as [|x rest] eqn:Em.
  - unfold paragraph_clauses. rewrite (re_split_clean t (normalized_no_newline t Hn)).
    cbn [List.filter List.map]. rewrite Hs, Et. cbn [List.map List.filter].
    rewrite Hs. destruct (20 <? length t); cbn [truthy_list]; now repeat constructor.
  - set (cl := clean_up _).
    assert (Hcl : Forall normalized cl).
    { subst cl. unfold clean_up. apply List.Forall_forall. intros c Hc.
      apply List.in_map_iff in Hc as (c0 & <- & Hc0).
      apply List.filter_In in Hc0 as [Hc0 _].
      apply List.in_app_or in Hc0 as [Hc0|Hc0].
      - cbn [pre_marker_clause] in Hc0. destruct (0 <? sp_pos x); [|contradiction].
        destruct Hc0 as [<-|[]]. rewrite strip_strip. apply Hseg.
      - pose proof (marker_clauses_long t (x :: rest)) as Hl.
        rewrite List.Forall_forall in Hl. destruct (Hl c0 Hc0) as [Hid _].
        clear Hl. revert Hc0. generalize (x :: rest). intros l.
        induction l as [|y l IH]; cbn [marker_clauses]; [contradiction|].
        intros Hin. apply List.in_app_or in Hin as [Hin|Hin]; [|now apply IH].
        match type of Hin with In _ (if ?b then _ else _) => destruct b end;
          [|contradiction].
        destruct Hin as [<-|[]]. rewrite strip_strip. apply Hseg. }
    destruct (truthy_list cl); [exact Hcl | now repeat constructor].
Qed.

Lemma preprocess_clauses_records (tokenize : str -> option (list str))
    (nlp : option (str -> option (list entity))) (clauses : list str) :
  forall records,
    preprocess_clauses tokenize nlp clauses = Some records ->
    List.map raw_text records = clauses
    /\ Forall (fun r => cleaned_text r = clean_text (raw_text r)) records.
Proof.
  induction clauses as [|c clauses IH]; intros records H; cbn in H.
  - injection H as <-. split; [reflexivity | constructor].
  - unfold preprocess_clause in H. destruct (tokenize (clean_text c)) as [sents|];
      [|discriminate].
    destruct (preprocess_clauses tokenize nlp clauses) as [processed|];
      [|discriminate].
    injection H as <-. destruct (IH processed eq_refl) as [E F].
    split; [cbn; now rewrite E | constructor; [reflexivity | exact F]].
Qed.

(** X6: whenever [preprocess_contract_text] returns, it returns at least
    one record, the records are the clauses of the cleaned text in
    order, and the second cleaning changes nothing: in every record
    [cleaned_text] equals [raw_text]. *)
Theorem preprocess_contract_text_records (tokenize : str -> option (list str))
    (nlp : option (str -> option (list entity))) (raw : str)
    (records : list clause_record) :
  preprocess_contract_text tokenize nlp raw = Some records ->
  records <> []
  /\ List.map raw_text records = segment_clauses (clean_text raw)
  /\ Forall (fun r => cleaned_text r = raw_text r) records.
Proof.
  unfold preprocess_contract_text. intros H.
  apply preprocess_clauses_records in H as [E F].
  split; [|split; [exact E|]].
  - intros ->. cbn in E. now apply (segment_clauses_not_nil (clean_text raw)).
  - pose proof (segment_clauses_normalized (clean_text raw)
                  (clean_text_normalized raw)) as Hn.
    rewrite <- E in Hn. rewrite List.Forall_forall in F, Hn.
    apply List.Forall_forall. intros r Hr. rewrite (F r Hr).
    apply clean_text_fixes_normalized. apply Hn. now apply List.in_map.
Qed.

End Pipeline.

(** Two words with blanks around them: no marker, one clause. *)
Lemma segment_clauses_clean_text_no_marker_witness :
  @segment_clauses ascii_only (@clean_text ascii_only (lit "  Hello   world  "))
  = [@clean_text ascii_only (lit "  Hello   world  ")].
Proof.
  apply (@segment_clauses_clean_text_no_marker ascii_only (lit "  Hello   world  ")).
  vm_compute. reflexivity.
Defined.

(** The same text through [preprocess_contract_text], with a tokeniser
    that takes a text as one sentence and without spaCy. *)
Lemma preprocess_contract_text_records_witness :
  [ {| raw_text := lit "Hello world"; cleaned_text := lit "Hello world";
       sentences := [lit "Hello world"]; entities := [] |} ] <> []
  /\ List.map raw_text
       [ {| raw_text := lit "Hello world"; cleaned_text := lit "Hello world";
            sentences := [lit "Hello world"]; entities := [] |} ]
     = @segment_clauses ascii_only (@clean_text ascii_only (lit "  Hello   world  "))
  /\ Forall (fun r => cleaned_text r = raw_text r)
       [ {| raw_text := lit "Hello world"; cleaned_text := lit "Hello world";
            sentences := [lit "Hello world"]; entities := [] |} ].
Proof.
  apply (@preprocess_contract_text_records ascii_only (fun t => Some [t]) None
           (lit "  Hello   world  ")).
  vm_compute. reflexivity.
Defined.

(** ** The classifier, continued *)

(** The sixteen labels. *)
Lemma first_rule_label (rules : list (list str * str)) (t : str) :
  In (first_rule rules t) (lit "Other" :: List.map snd rules).
Proof.
  induction rules as [|[ks l] rules IH]; cbn [first_rule List.map snd].
  - now left.
  - destruct (any_in ks t).
    + right. now left.
    + destruct IH as [IH|IH]; [now left | right; now right].
Qed.

Lemma map_tolower_toupper (s : str) :
  List.map ascii_tolower (List.map ascii_toupper s) = List.map ascii_tolower s.
Proof.
  rewrite List.map_map. apply List.map_ext. intros c.
  unfold ascii_toupper. destruct (ascii_islower c) eqn:El; [|reflexivity].
  unfold ascii_islower, in_range in El. apply andb_true_iff in El as [H1 H2].
  apply N.leb_le in H1, H2.
  assert (Eu : ascii_isupper (c - 32) = true).
  { unfold ascii_isupper, in_range. apply andb_true_iff.
    split; apply N.leb_le; lia. }
  assert (En : ascii_isupper c = false).
  { unfold ascii_isupper, in_range. apply andb_false_iff. right.
    apply N.leb_gt. lia. }
  unfold ascii_tolower. rewrite Eu, En. lia.
Qed.

Lemma forallb_ascii_toupper (s : str) :
  forallb is_ascii s = true -> forallb is_ascii (List.map ascii_toupper s) = true.
Proof.
  intros H. apply forallb_forall. intros c Hc.
  apply List.in_map_iff in Hc as (d & <- & Hd).
  rewrite forallb_forall in H. specialize (H d Hd).
  unfold is_ascii in *. apply N.ltb_lt in H. apply N.ltb_lt.
  unfold ascii_toupper. destruct (ascii_islower d); lia.
Qed.

Section Classifier_more.
Context {U : UnicodeData}.

(** X7: whatever the model answers, and whether it is loaded or not,
    [detect_clause_type] returns one of the fifteen labels of
    [CLAUSE_LABELS] or "Other"; so does every entry of
    [detect_clause_types_batch]. *)
Theorem detect_clause_type_in_taxonomy (model : option (str -> option nat)) :
  (forall text, In (detect_clause_type model text) (lit "Other" :: CLAUSE_LABELS))
  /\ (forall texts,
        Forall (fun label => In label (lit "Other" :: CLAUSE_LABELS))
          (detect_clause_types_batch model texts)).
Proof.
  assert (Hr : forall text, In (_rule_based_classify text) (lit "Other" :: CLAUSE_LABELS)).
  { intros text. unfold _rule_based_classify.
    apply (first_rule_label RULES (lower text)). }
  assert (H : forall text, In (detect_clause_type model text) (lit "Other" :: CLAUSE_LABELS)).
  { intros text. unfold detect_clause_type.
    destruct (negb (truthy text) || negb (truthy (strip text))); [now left|].
    destruct model as [predict|]; [|apply Hr].
    destruct (predict text) as [predicted|]; [|apply Hr].
    destruct (Nat.lt_ge_cases predicted (length CLAUSE_LABELS)) as [Hlt|Hge].
    - right. now apply List.nth_In.
    - left. symmetry. now apply List.nth_overflow. }
  split; [exact H|]. intros texts. unfold detect_clause_types_batch.
  apply List.Forall_forall. intros label Hl.
  apply List.in_map_iff in Hl as (text & <- & _). apply H.
Qed.

(** X8: the rules are tried in order and the first one with a keyword in
    the lower-cased text decides, for every label: a keyword of a rule
    wins exactly when no rule listed before it has a keyword in the
    text. *)
Theorem rule_based_classify_priority (earlier later : list (list str * str))
    (keywords : list str) (label keyword text : str) :
  RULES = earlier ++ (keywords, label) :: later ->
  In keyword keywords ->
  contains keyword (lower text) = true ->
  Forall (fun rule => any_in (fst rule) (lower text) = false) earlier ->
  _rule_based_classify text = label.
Proof.
  intros E Hin Hc He. unfold _rule_based_classify. rewrite E.
  apply first_rule_first_match; [exact He|].
  now apply any_in_member with keyword.
Qed.

(** X9: on ASCII text the rule-based classifier does not see case: a
    text and its upper-cased form get the same label. *)
Theorem rule_based_classify_ignores_ascii_case (text : str) :
  forallb is_ascii text = true ->
  _rule_based_classify (List.map ascii_toupper text) = _rule_based_classify text.
Proof.
  intros H. unfold _rule_based_classify, lower.
  rewrite H, (forallb_ascii_toupper text H), map_tolower_toupper. reflexivity.
Qed.

(** X10: [ensure_model_loaded] loads anew at every call and keeps no
    record of a failure: after a call that fails while [transformers] is
    present no model is left, whatever was loaded before, and
    [detect_clause_type] then answers by the rules alone; after a call
    that succeeds the new model is the one in place. *)
Theorem ensure_model_loaded_reloads (env : classifier_env)
    (before : option (str -> option nat)) :
  _HAS_TRANSFORMERS env = true ->
  (from_pretrained env = None ->
   ensure_model_loaded env before = (false, None)
   /\ forall text,
        truthy (strip text) = true ->
        detect_clause_type (snd (ensure_model_loaded env before)) text
        = _rule_based_classify text)
  /\ (forall m, from_pretrained env = Some m ->
        ensure_model_loaded env before = (true, Some m)).
Proof.
  intros Hh. unfold ensure_model_loaded, _load_model. rewrite Hh. cbn [negb].
  split.
  - intros ->. split; [reflexivity|]. intros text Ht. cbn [snd].
    unfold detect_clause_type. rewrite Ht.
    assert (E : truthy text = true) by (destruct text; [discriminate | reflexivity]).
    now rewrite E.
  - intros m ->. reflexivity.
Qed.

End Classifier_more.

(** "breach" belongs to the second rule, Termination; the text has no
    keyword of the first rule. *)
Lemma rule_based_classify_priority_witness :
  @_rule_based_classify ascii_only (lit "A breach of payment duties.")
  = lit "Termination".
Proof.
  apply (@rule_based_classify_priority ascii_only (firstn 1 RULES) (skipn 2 RULES)
           (fst (List.nth 1 RULES ([], []))) (lit "Termination") (lit "breach")
           (lit "A breach of payment duties.")).
  - reflexivity.
  - cbn. tauto.
  - vm_compute. reflexivity.
  - repeat constructor.
Defined.

Lemma rule_based_classify_ignores_ascii_case_witness :
  @_rule_based_classify ascii_only
     (List.map ascii_toupper (lit "The Contractor shall indemnify the Employer."))
  = @_rule_based_classify ascii_only (lit "The Contractor shall indemnify the Employer.").
Proof.
  apply (@rule_based_classify_ignores_ascii_case ascii_only
           (lit "The Contractor shall indemnify the Employer.")).
  vm_compute. reflexivity.
Defined.

(** A process with [transformers] where loading fails, after a model
    had been loaded. *)
Lemma ensure_model_loaded_reloads_witness :
  ensure_model_loaded {| _HAS_TRANSFORMERS := true; from_pretrained := None |}
    (Some (fun _ => Some 3)) = (false, None).
Proof.
  apply (proj1 (@ensure_model_loaded_reloads ascii_only
                  {| _HAS_TRANSFORMERS := true; from_pretrained := None |}
                  (Some (fun _ => Some 3)) eq_refl)).
  reflexivity.
Defined.

(** ** The legal-term extractor, continued *)

(** No key is lost: a candidate's key is seen already or kept. *)
Lemma kept_covers (cands : list (str * legal_term)) :
  forall seen c,
    In c cands ->
    fst c ∈ seen \/ exists c', In c' (kept seen cands) /\ fst c' = fst c.
Proof.
  induction cands as [|d rest IH]; intros seen c Hc; [contradiction|].
  cbn [kept]. destruct (decide (fst d ∈ seen)) as [Hin|Hin].
  - destruct Hc as [->|Hc]; [now left | now apply IH].
  - destruct Hc as [->|Hc].
    + right. exists c. split; [now left | reflexivity].
    + destruct (IH (seen ∪ {[ fst d ]}) c Hc) as [H|(c' & H1 & H2)].
      * apply elem_of_union in H as [H|H]; [now left|].
        apply elem_of_singleton in H. right. exists d. split; [now left | now symmetry].
      * right. exists c'. split; [now right | exact H2].
Qed.

Lemma definitions_nonempty :
  forallb (fun kv => truthy (snd kv)) _DEFINITIONS_items = true.
Proof. vm_compute. reflexivity. Qed.

Lemma define_nonempty (key : str) : define key <> [].
Proof.
  unfold define. destruct (_DEFINITIONS !! key) as [v|] eqn:E; cbn; [|discriminate].
  unfold _DEFINITIONS in E. apply elem_of_list_to_map_2 in E.
  apply list_elem_of_In in E.
  pose proof definitions_nonempty as H. rewrite forallb_forall in H.
  specialize (H _ E). cbn in H. now destruct v.
Qed.

Lemma lexicon_keys_NoDup : List.NoDup (List.map fst _LEXICON).
Proof.
  unfold _LEXICON. cbn [List.map fst].
  repeat (constructor; [vm_compute; intuition discriminate|]). constructor.
Qed.

Lemma NoDup_keys_functional {A} (l : list (str * A)) (k : str) (a b : A) :
  List.NoDup (List.map fst l) -> In (k, a) l -> In (k, b) l -> a = b.
Proof.
  induction l as [|[k' x] l IH]; intros Hn Ha Hb; [contradiction|].
  cbn in Hn. inversion Hn as [|? ? Hk Hn']; subst.
  destruct Ha as [Ha|Ha], Hb as [Hb|Hb].
  - congruence.
  - injection Ha as -> ->. exfalso. apply Hk.
    apply List.in_map_iff. now exists (k, b).
  - injection Hb as -> ->. exfalso. apply Hk.
    apply List.in_map_iff. now exists (k, a).
  - now apply IH.
Qed.

Section Terms_more.
Context {U : UnicodeData}.

Lemma pattern_candidates_category (pattern : regex) (text : str) c :
  In c (pattern_candidates pattern text) -> category (snd c) = lit "Defined Term".
Proof.
  unfold pattern_candidates. intros H.
  apply List.in_map_iff in H as (m & <- & _). reflexivity.
Qed.

Lemma lexicon_candidates_origin (text : str) c :
  In c (lexicon_candidates text) ->
  exists cat, In (fst c, cat) _LEXICON /\ category (snd c) = cat
              /\ contains (fst c) (lower text) = true.
Proof.
  unfold lexicon_candidates. intros H.
  apply List.in_map_iff in H as ([kw cat] & <- & H).
  apply List.filter_In in H as [H1 H2]. exists cat. now repeat split.
Qed.

Lemma entity_candidates_category nlp (text : str) c :
  In c (entity_candidates nlp text) ->
  In (category (snd c)) [lit "LAW Entity"; lit "ORG Entity"; lit "EVENT Entity"].
Proof.
  unfold entity_candidates. destruct nlp as [run|]; [|contradiction].
  destruct (run _) as [ents|]; [|contradiction]. intros H.
  apply List.in_map_iff in H as (e & <- & H).
  apply List.filter_In in H as [_ H]. unfold entity_kept in H.
  apply andb_true_iff in H as [H _]. cbn [snd category new_term].
  cbn [existsb] in H. rewrite orb_false_r in H.
  apply orb_true_iff in H as [H|H]; [|apply orb_true_iff in H as [H|H]];
    apply str_eqb_eq in H; rewrite H; cbn; tauto.
Qed.

(** What every candidate carries besides its term. *)
Lemma candidates_definitions nlp (text : str) :
  Forall (fun c => definition (snd c) = define (fst c)
                   /\ simplified_explanation (snd c) = define (fst c))
    (candidates nlp text).
Proof.
  unfold candidates. repeat (apply Forall_app; split);
    apply List.Forall_forall; intros c Hc.
  - unfold pattern_candidates in Hc.
    apply List.in_map_iff in Hc as (m & <- & _). now split.
  - unfold pattern_candidates in Hc.
    apply List.in_map_iff in Hc as (m & <- & _). now split.
  - unfold lexicon_candidates in Hc.
    apply List.in_map_iff in Hc as (kc & <- & _). now split.
  - unfold entity_candidates in Hc. destruct nlp as [run|]; [|contradiction].
    destruct (run _) as [ents|]; [|contradiction].
    apply List.in_map_iff in Hc as (e & <- & _). now split.
Qed.

(** The records are the second components of the kept candidates. *)
Lemma extract_legal_terms_origin nlp (text : str) r :
  In r (extract_legal_terms nlp text) ->
  exists c, snd c = r /\ In c (kept ∅ (candidates nlp text)).
Proof.
  intros H. destruct (truthy (strip text)) eqn:Hs.
  - rewrite (extract_legal_terms_kept nlp text Hs) in H.
    apply List.in_map_iff in H as (c & E & Hc). now exists c.
  - unfold extract_legal_terms in H. rewrite Hs, orb_true_r in H. contradiction.
Qed.

(** X11: a lexicon keyword that occurs in the lower-cased text is never
    lost: the result has a record whose lower-cased term is the keyword,
    with the keyword's lexicon category, or with "Defined Term" when a
    quoted or defined term took the key first. *)
Theorem lexicon_keyword_represented
    (nlp : option (str -> option (list entity))) (text kw cat : str) :
  truthy (strip text) = true ->
  In (kw, cat) _LEXICON ->
  contains kw (lower text) = true ->
  exists r,
    In r (extract_legal_terms nlp text)
    /\ lower (term r) = kw
    /\ (category r = cat \/ category r = lit "Defined Term").
Proof.
  intros Hs Hl Hc.
  set (c0 := (kw, new_term (title kw) cat kw)).
  assert (H3 : In c0 (lexicon_candidates text)).
  { unfold lexicon_candidates. apply List.in_map_iff. exists (kw, cat).
    split; [reflexivity|]. apply List.filter_In. now split. }
  assert (Hin : In c0 (candidates nlp text)).
  { unfold candidates. apply List.in_or_app. right. apply List.in_or_app. right.
    apply List.in_or_app. now left. }
  destruct (kept_covers _ ∅ c0 Hin) as [H|(c' & Hk & Ek)]; [set_solver|].
  cbn [fst c0] in Ek. exists (snd c').
  pose proof (candidates_keys nlp text) as Hkeys. rewrite List.Forall_forall in Hkeys.
  split; [|split].
  - rewrite (extract_legal_terms_kept nlp text Hs). now apply List.in_map.
  - rewrite <- (Hkeys c' (kept_subset _ _ _ Hk)). exact Ek.
  - apply kept_first in Hk as (l1 & l2 & E & _ & Hn). unfold candidates in E.
    destruct (first_in_app _ _ _ _ _ E Hn) as [H1|(_ & l1' & E2 & Hn2)].
    { right. now apply pattern_candidates_category in H1. }
    destruct (first_in_app _ _ _ _ _ E2 Hn2) as [H2|(_ & l2' & E3 & Hn3)].
    { right. now apply pattern_candidates_category in H2. }
    destruct (first_in_app _ _ _ _ _ E3 Hn3) as [H4|(N3 & _)].
    + left. apply lexicon_candidates_origin in H4 as (cat' & Hc' & <- & _).
      rewrite Ek in Hc'.
      symmetry. exact (NoDup_keys_functional _ kw cat _ lexicon_keys_NoDup Hl Hc').
    + exfalso. apply N3. rewrite Ek. apply List.in_map_iff. now exists c0.
Qed.

(** X12: in every record the definition and the simplified explanation
    are the same text, the entry of [_DEFINITIONS] for the lower-cased
    term or else the placeholder, and never the empty string. *)
Theorem legal_term_definitions
    (nlp : option (str -> option (list entity))) (text : str) :
  Forall (fun r => definition r = define (lower (term r))
                   /\ simplified_explanation r = definition r
                   /\ definition r <> [])
    (extract_legal_terms nlp text).
Proof.
  apply List.Forall_forall. intros r Hr.
  apply extract_legal_terms_origin in Hr as (c & <- & Hc).
  apply kept_subset in Hc.
  pose proof (candidates_keys nlp text) as Hk.
  pose proof (candidates_definitions nlp text) as Hd.
  rewrite List.Forall_forall in Hk, Hd.
  destruct (Hd c Hc) as [D1 D2]. rewrite <- (Hk c Hc).
  split; [exact D1|]. split; [congruence|]. rewrite D1. apply define_nonempty.
Qed.

(** X13: the category of a record is "Defined Term", a category of the
    lexicon, or one of "LAW Entity", "ORG Entity" and "EVENT Entity". *)
Theorem legal_term_categories
    (nlp : option (str -> option (list entity))) (text : str) :
  Forall (fun r =>
            In (category r)
               (lit "Defined Term" :: List.map snd _LEXICON
                ++ [lit "LAW Entity"; lit "ORG Entity"; lit "EVENT Entity"]))
    (extract_legal_terms nlp text).
Proof.
  apply List.Forall_forall. intros r Hr.
  apply extract_legal_terms_origin in Hr as (c & <- & Hc).
  apply kept_subset in Hc. unfold candidates in Hc.
  apply List.in_app_or in Hc as [Hc|Hc];
    [left; symmetry; now apply pattern_candidates_category in Hc|].
  apply List.in_app_or in Hc as [Hc|Hc];
    [left; symmetry; now apply pattern_candidates_category in Hc|].
  right. apply List.in_or_app.
  apply List.in_app_or in Hc as [Hc|Hc].
  - left. apply lexicon_candidates_origin in Hc as (cat & Hl & <- & _).
    apply List.in_map_iff. now exists (fst c, category (snd c)).
  - right. now apply entity_candidates_category in Hc.
Qed.

End Terms_more.

(** The end-to-end text of the specification: "indemnify" is in the
    lexicon with category "Indemnity Clause". *)
Lemma lexicon_keyword_represented_witness :
  exists r,
    In r (@extract_legal_terms ascii_only None
            (lit "The Contractor shall indemnify the Employer against all claims."))
    /\ @lower ascii_only (term r) = lit "indemnify"
    /\ (category r = lit "Indemnity Clause" \/ category r = lit "Defined Term").
Proof.
  apply (@lexicon_keyword_represented ascii_only None
           (lit "The Contractor shall indemnify the Employer against all claims.")
           (lit "indemnify") (lit "Indemnity Clause")).
  - vm_compute. reflexivity.
  - cbn. tauto.
  - vm_compute. reflexivity.
Defined.

(** ** The simplifier, continued *)

Lemma replace_not_contained (old new s : str) :
  contains old s = false -> replace old new s = s.
Proof.
  unfold replace. induction s as [|c s IH]; intros H; [reflexivity|].
  cbn [contains] in H. apply orb_false_iff in H as [H1 H2].
  cbn [replace_from]. rewrite H1. f_equal. now apply IH.
Qed.

Section Simplifier_more.
Context {U : UnicodeData}.

(** X14: [ensure_simplifier_loaded] attempts to load once: after any
    call the attempt is recorded, and a later call, in whatever
    environment, neither loads nor changes the state; it only reports
    whether a pipeline is there.  A failed load is thus never retried. *)
Theorem ensure_simplifier_loaded_once (env later : simplifier_env)
    (st : simplifier_state) :
  let st1 := snd (ensure_simplifier_loaded env st) in
  _load_attempted st1 = true
  /\ ensure_simplifier_loaded later st1
     = (match _simplifier st1 with Some _ => true | None => false end, st1).
Proof.
  cbv zeta.
  assert (Ha : _load_attempted (snd (ensure_simplifier_loaded env st)) = true).
  { unfold ensure_simplifier_loaded. destruct (_load_attempted st) eqn:Ea;
      [exact Ea|].
    destruct (_HAS_HF env); cbn [negb]; [destruct (pipeline env)|]; reflexivity. }
  split; [exact Ha|]. unfold ensure_simplifier_loaded at 1. now rewrite Ha.
Qed.

(** X15: once [simplify_text] has run on a text that is not blank, no
    later call in the same process changes the globals: the pipeline is
    loaded at most once, however many texts are simplified. *)
Theorem simplify_text_loads_once (env : simplifier_env) (st : simplifier_state)
    (text1 text2 : str) (max_length1 max_length2 : nat) (level1 level2 : str) :
  truthy (strip text1) = true ->
  let st1 := snd (simplify_text env st text1 max_length1 level1) in
  snd (simplify_text env st1 text2 max_length2 level2) = st1.
Proof.
  intros Hs. cbv zeta.
  assert (Ht : truthy text1 = true) by (destruct text1; [discriminate | reflexivity]).
  assert (Hstable : forall s,
            (_HAS_HF env
             && (match _simplifier s with None => true | Some _ => false end)
             && negb (_load_attempted s)) = false ->
            forall t m l, snd (simplify_text env s t m l) = s).
  { intros s Hg t m l. unfold simplify_text.
    destruct (negb (truthy t) || negb (truthy (strip t))); [reflexivity|].
    rewrite Hg. destruct (_simplifier s); [|reflexivity].
    destruct (10 <? length (split t)); [|reflexivity].
    destruct (sent_tokenize env t); reflexivity. }
  unfold simplify_text at 2 3. rewrite Ht, Hs. cbn [negb orb].
  destruct (_HAS_HF env
            && (match _simplifier st with None => true | Some _ => false end)
            && negb (_load_attempted st)) eqn:Hg.
  - apply andb_true_iff in Hg as [Hg Ha]. apply andb_true_iff in Hg as [Hh Hn].
    apply negb_true_iff in Ha.
    unfold ensure_simplifier_loaded. rewrite Ha, Hh. cbn [negb].
    destruct (pipeline env) as [p|]; cbn [snd _simplifier].
    + destruct (10 <? length (split text1)); [destruct (sent_tokenize env text1)|];
        cbn [snd]; apply Hstable; cbn; now rewrite Hh.
    + apply Hstable. cbn. now rewrite Hh.
  - assert (E : snd (match _simplifier st with
                     | Some simplifier =>
                         if 10 <? length (split text1)
                         then match sent_tokenize env text1 with
                              | Some sents =>
                                  (join [SPACE]
                                     (simplify_sentences simplifier level1 0 sents), st)
                              | None => (text1, st)
                              end
                         else (text1, st)
                     | None => (text1, st)
                     end) = st).
    { destruct (_simplifier st); [|reflexivity].
      destruct (10 <? length (split text1)); [|reflexivity].
      destruct (sent_tokenize env text1); reflexivity. }
    rewrite E. now apply Hstable.
Qed.

(** X16: the loop over the sentences gives one output per sentence, and
    an output that is not the sentence itself is an accepted summary: it
    is longer than 5 characters and not longer than 1.5 times the
    sentence, and the sentence has at least 20 characters after
    stripping. *)
Theorem simplify_sentences_guard (simplifier : paraphraser) (level : str)
    (sents : list str) :
  forall n,
    List.Forall2
      (fun sent out =>
         out = sent
         \/ (5 < length out
             /\ (float_of_nat (length out) <=? float_of_nat (length sent) * 1.5)%float
                = true
             /\ 20 <= length (strip sent)))
      sents (simplify_sentences simplifier level n sents).
Proof.
  induction sents as [|sent rest IH]; intros n; cbn [simplify_sentences];
    [constructor|].
  destruct (length (strip sent) <? 20) eqn:El.
  - constructor; [now left | apply IH].
  - apply Nat.ltb_ge in El. constructor; [|apply IH].
    unfold simplify_sentence.
    destruct (simplifier n sent _ _) as [[|[s|] l]|]; try (now left).
    match goal with |- context [if ?b then _ else _] => destruct b eqn:Eb end;
      [|now left].
    apply andb_true_iff in Eb as [E1 E2]. apply Nat.ltb_lt in E1.
    right. now repeat split.
Qed.

(** X17: a pipeline that raises at every call leaves each sentence as it
    is; [simplify_text] then returns the sentences of the tokeniser
    joined by single spaces (which need not be the input text). *)
Theorem simplify_text_failing_pipeline (env : simplifier_env) (st : simplifier_state)
    (simplifier : paraphraser) (text : str) (max_length : nat) (level : str)
    (sents : list str) :
  _simplifier st = Some simplifier ->
  (forall n sent m t, simplifier n sent m t = None) ->
  truthy (strip text) = true ->
  10 < length (split text) ->
  sent_tokenize env text = Some sents ->
  fst (simplify_text env st text max_length level) = join [SPACE] sents.
Proof.
  intros Hsome Hfail Hs Hw Htok. unfold simplify_text.
  assert (Ht : truthy text = true) by (destruct text; [discriminate | reflexivity]).
  rewrite Ht, Hs, Hsome. cbn [negb orb andb]. rewrite andb_false_r.
  cbn [andb]. rewrite Hsome.
  apply Nat.ltb_lt in Hw. rewrite Hw, Htok. cbn [fst]. f_equal.
  clear Htok. generalize 0.
  induction sents as [|sent rest IH]; intros n; [reflexivity|].
  cbn [simplify_sentences]. destruct (length (strip sent) <? 20).
  - f_equal. apply IH.
  - unfold simplify_sentence. rewrite Hfail. f_equal. apply IH.
Qed.

(** X18: post-processing changes nothing in a text that has none of the
    listed connectives, in lower case or capitalised: the intermediate
    pass is then the identity, and so is the advanced pass on a text
    within the word budget. *)
Theorem post_processing_without_connectives (text : str) (max_length : nat) :
  (forall w,
     In w [lit "aforementioned"; lit "herein"; lit "thereof"; lit "whereby";
           lit "hereunder"; lit "thereto"; lit "pursuant to"; lit "notwithstanding"] ->
     contains w text = false /\ contains (capitalize w) text = false) ->
  _moderate_simplification text max_length = text
  /\ (length (split text) <= max_length ->
      _aggressive_simplification text max_length = text).
Proof.
  intros H.
  assert (Hr : forall w new,
             In w [lit "aforementioned"; lit "herein"; lit "thereof"; lit "whereby";
                   lit "hereunder"; lit "thereto"; lit "pursuant to";
                   lit "notwithstanding"] ->
             replace (capitalize w) (capitalize new) (replace w new text) = text).
  { intros w new Hw. destruct (H w Hw) as [H1 H2].
    rewrite (replace_not_contained w new text H1).
    now apply replace_not_contained. }
  split.
  - unfold _moderate_simplification, apply_replacements. cbn [fold_left fst snd].
    rewrite !Hr; [reflexivity | cbn; tauto ..].
  - intros Hw. unfold _aggressive_simplification.
    assert (E : (max_length <? length (split text)) = false)
      by (apply Nat.ltb_ge; lia).
    rewrite E. unfold apply_replacements. cbn [fold_left fst snd].
    rewrite !Hr; [reflexivity | cbn; tauto ..].
Qed.

End Simplifier_more.

(** Two texts in a process where the pipeline loads at the first. *)
Lemma simplify_text_loads_once_witness :
  snd (@simplify_text ascii_only with_pipeline
         (snd (@simplify_text ascii_only with_pipeline
                 {| _simplifier := None; _load_attempted := false |}
                 (lit "First text.") 60 (lit "basic")))
         (lit "Second text.") 60 (lit "advanced"))
  = snd (@simplify_text ascii_only with_pipeline
           {| _simplifier := None; _load_attempted := false |}
           (lit "First text.") 60 (lit "basic")).
Proof.
  apply (@simplify_text_loads_once ascii_only with_pipeline
           {| _simplifier := None; _load_attempted := false |}
           (lit "First text.") (lit "Second text.") 60 60
           (lit "basic") (lit "advanced")).
  vm_compute. reflexivity.
Defined.

(** Two sentences with three blanks between them, and a pipeline that
    always raises: the result has one blank between them. *)
Lemma simplify_text_failing_pipeline_witness :
  fst (@simplify_text ascii_only
         {| _HAS_HF := true; pipeline := None;
            sent_tokenize := fun _ =>
              Some [lit "One two three four five six.";
                    lit "Seven eight nine ten eleven twelve."] |}
         {| _simplifier := Some (fun _ _ _ _ => None); _load_attempted := true |}
         (lit "One two three four five six.   Seven eight nine ten eleven twelve.")
         60 (lit "basic"))
  = join [SPACE] [lit "One two three four five six.";
                  lit "Seven eight nine ten eleven twelve."].
Proof.
  apply (@simplify_text_failing_pipeline ascii_only
           {| _HAS_HF := true; pipeline := None;
              sent_tokenize := fun _ =>
                Some [lit "One two three four five six.";
                      lit "Seven eight nine ten eleven twelve."] |}
           {| _simplifier := Some (fun _ _ _ _ => None); _load_attempted := true |}
           (fun _ _ _ _ => None)).
  - reflexivity.
  - reflexivity.
  - vm_compute. reflexivity.
  - vm_compute. lia.
  - reflexivity.
Defined.

(** A text of three words without connective, with a budget of 20. *)
Lemma post_processing_without_connectives_witness :
  @_moderate_simplification (lit "The parties agree.") 20 = lit "The parties agree."
  /\ (length (split (lit "The parties agree.")) <= 20 ->
      @_aggressive_simplification ascii_only (lit "The parties agree.") 20
      = lit "The parties agree.").
Proof.
  apply (@post_processing_without_connectives ascii_only (lit "The parties agree.") 20).
  intros w Hw. cbn [In] in Hw.
  repeat (destruct Hw as [<-|Hw]; [split; vm_compute; reflexivity|]).
  contradiction.
Defined.

(** ** Readability, continued *)

(** A vowel group needs a character that is not a vowel before the
    next one: at most every second character opens a group. *)
Lemma vowel_groups_bound (word : str) :
  forall prev,
    2 * vowel_groups word prev <= length word + (if prev then 0 else 1).
Proof.
  induction word as [|c rest IH]; intros prev; cbn [vowel_groups length].
  - destruct prev; lia.
  - specialize (IH (is_vowel c)).
    destruct (is_vowel c), prev; cbn [andb negb] in *; lia.
Qed.

Lemma length_removelast_le (word : str) : length (removelast word) <= length word.
Proof.
  induction word as [|c [|d rest] IH]; cbn [removelast length] in *; lia.
Qed.

Section Readability_more.
Context {U : UnicodeData}.

(** X19: [count_syllables] gives at least 1, and at most half the
    length of the lower-cased word, rounded up (or 1); so a word counted
    as complex, with 3 syllables or more, has at least 5 characters in
    lower case. *)
Theorem count_syllables_bounds (word : str) :
  1 <= count_syllables word
  /\ 2 * count_syllables word <= Nat.max 2 (length (lower word) + 1)
  /\ (3 <= count_syllables word -> 5 <= length (lower word)).
Proof.
  assert (H : 1 <= count_syllables word
              /\ 2 * count_syllables word <= Nat.max 2 (length (lower word) + 1)).
  { unfold count_syllables. destruct (length (lower word) <=? 1); [lia|].
    set (w := if endswith_e (lower word) then removelast (lower word) else lower word).
    assert (Hw : length w <= length (lower word)).
    { subst w. destruct (endswith_e (lower word));
        [apply length_removelast_le | lia]. }
    pose proof (vowel_groups_bound w false) as Hb. cbn in Hb. lia. }
  destruct H as [H1 H2]. split; [exact H1|]. split; [exact H2|]. lia.
Qed.

(** X20: [calculate_all_metrics] returns the all-zero metrics for a
    blank text and whenever a tokeniser call raises; otherwise the
    counts are those of the tokenisers: the sentences, the alphabetic
    tokens (never more than the tokens), and an average that is the
    integer 0 only when there is no sentence. *)
Theorem calculate_all_metrics_cases (tk : tokenizers) (text : str) :
  (truthy (strip text) = false -> calculate_all_metrics tk text = zero_metrics)
  /\ (nltk_sent_tokenize tk text = None \/ nltk_word_tokenize tk text = None
      \/ nltk_word_tokenize tk (lower text) = None ->
      calculate_all_metrics tk text = zero_metrics)
  /\ (forall sents tokens lowered,
        truthy (strip text) = true ->
        nltk_sent_tokenize tk text = Some sents ->
        nltk_word_tokenize tk text = Some tokens ->
        nltk_word_tokenize tk (lower text) = Some lowered ->
        let m := calculate_all_metrics tk text in
        sentence_count m = length sents
        /\ word_count m = length (List.filter isalpha tokens)
        /\ word_count m <= length tokens
        /\ complex_word_count m <= length lowered
        /\ (avg_words_per_sentence m = Int 0 <-> sents = [])).
Proof.
  split; [|split].
  - intros E. unfold calculate_all_metrics.
    destruct (strip text); [|discriminate]. cbn. now rewrite orb_true_r.
  - intros H. unfold calculate_all_metrics, count_complex_words.
    destruct (negb (truthy text) || (length (strip text) =? 0)); [reflexivity|].
    destruct H as [H|[H|H]]; rewrite H.
    + reflexivity.
    + destruct (nltk_sent_tokenize tk text); reflexivity.
    + destruct (nltk_sent_tokenize tk text), (nltk_word_tokenize tk text);
        reflexivity.
  - intros sents tokens lowered Ht Hs Hw Hl m. subst m.
    unfold calculate_all_metrics, count_complex_words.
    assert (Ett : truthy text = true) by (destruct text; [discriminate | reflexivity]).
    assert (Els : (length (strip text) =? 0) = false)
      by (destruct (strip text); [discriminate | reflexivity]).
    rewrite Ett, Els, Hs, Hw, Hl.
    cbn [negb orb sentence_count word_count avg_words_per_sentence complex_word_count].
    split; [reflexivity|]. split; [reflexivity|].
    split; [apply List.filter_length_le|]. split; [apply List.filter_length_le|].
    destruct sents as [|s0 ss]; cbn [length Nat.ltb Nat.leb].
    + split; reflexivity.
    + split; discriminate.
Qed.

End Readability_more.

Lemma calculate_all_metrics_cases_witness :
  @calculate_all_metrics ascii_only whitespace_tokenizers (lit "   ") = zero_metrics.
Proof.
  apply (proj1 (@calculate_all_metrics_cases ascii_only whitespace_tokenizers
                  (lit "   "))).
  reflexivity.
Defined.

(** ** Document ingestion *)

Section Ingestion_properties.
Context {U : UnicodeData}.

(** X21: every outcome of [extract_text] other than the stripped text of
    an existing file with extension .pdf or .docx (in any case), read
    without exception, is a text that begins with "[ERROR]", the prefix
    that [process_document] tests; a file of any other extension, .txt
    included, gives the unsupported-type message. *)
Theorem extract_text_outcomes (env : ingestion_env) (file_path : str) :
  (startswith (lit "[ERROR]") (extract_text env file_path) = true
   \/ (path_exists env file_path = true
       /\ ((lower (splitext_ext file_path) = lit ".pdf"
            /\ exists pages, fitz_pages env file_path = inr pages
                             /\ extract_text env file_path = strip (concat pages))
           \/ (lower (splitext_ext file_path) = lit ".docx"
               /\ exists paragraphs,
                    docx_paragraphs env file_path = inr paragraphs
                    /\ extract_text env file_path
                       = extract_text_from_docx env file_path))))
  /\ (path_exists env file_path = true ->
      lower (splitext_ext file_path) <> lit ".pdf" ->
      lower (splitext_ext file_path) <> lit ".docx" ->
      extract_text env file_path
      = lit "[ERROR] Unsupported file type. Only PDF and DOCX are supported.").
Proof.
  split.
  - unfold extract_text. destruct (path_exists env file_path) eqn:Ee; cbn [negb];
      [|now left].
    destruct (str_eqb (lower (splitext_ext file_path)) (lit ".pdf")) eqn:Ep.
    + apply str_eqb_eq in Ep. unfold extract_text_from_pdf.
      destruct (fitz_pages env file_path) as [e|pages] eqn:Er; [now left|].
      right. split; [reflexivity|]. left. split; [exact Ep|]. now exists pages.
    + destruct (str_eqb (lower (splitext_ext file_path)) (lit ".docx")) eqn:Ed;
        [|now left].
      apply str_eqb_eq in Ed. unfold extract_text_from_docx.
      destruct (docx_paragraphs env file_path) as [e|paragraphs] eqn:Er; [now left|].
      right. split; [reflexivity|]. right. split; [exact Ed|]. now exists paragraphs.
  - intros Ee Hp Hd. unfold extract_text. rewrite Ee. cbn [negb].
    destruct (str_eqb (lower (splitext_ext file_path)) (lit ".pdf")) eqn:Ep;
      [apply str_eqb_eq in Ep; contradiction|].
    destruct (str_eqb (lower (splitext_ext file_path)) (lit ".docx")) eqn:Ed;
      [apply str_eqb_eq in Ed; contradiction|].
    reflexivity.
Qed.

End Ingestion_properties.

(** ** The terms that the patterns capture *)

Lemma strip_head (x : char) (rest : str) :
  isspace x = false ->
  exists rest' post,
    strip (x :: rest) = x :: rest' /\ rest = rest' ++ post.
Proof.
  intros Hx. destruct (strip_parts (x :: rest)) as (pre & post & E & Hpre & _).
  destruct pre as [|p pre].
  - cbn [app] in E. destruct (strip (x :: rest)) as [|y t] eqn:Es.
    + exfalso. assert (Ht : truthy (strip (x :: rest)) = true).
      { apply strip_truthy with x; [now left | exact Hx]. }
      rewrite Es in Ht. discriminate.
    + cbn [app] in E. injection E as <- E. now exists t, post.
  - exfalso. injection E as <- _. inversion Hpre as [|? ? Hp _]. congruence.
Qed.

Lemma accepts_term_group pos g (w : str) g' :
  accepts term_group pos g w g' ->
  (exists c rest,
      w = c :: rest /\ ascii_isupper c = true
      /\ Forall (fun x => term_char x = true) rest /\ length rest <= 30)
  /\ g' = Some (pos, pos + length w).
Proof.
  unfold term_group. cbn [accepts].
  intros [(g1 & w1 & w2 & g2 & -> & (c & -> & Hc & _) & Hf & _ & Hhi & _) ->].
  split; [|reflexivity]. exists c, w2. cbn [app]. repeat split; auto.
Qed.

Section Term_shape.
Context {U : UnicodeData}.

Lemma captured_term_strip (w : str) :
  (exists c rest,
      w = c :: rest /\ ascii_isupper c = true
      /\ Forall (fun x => term_char x = true) rest /\ length rest <= 30) ->
  captured_term (strip w).
Proof.
  intros (c & rest & -> & Hc & Hf & Hl).
  destruct (strip_head c rest (ascii_isupper_not_space c Hc)) as (rest' & post & E & ->).
  exists c, rest'. split; [exact E|]. split; [exact Hc|].
  apply List.Forall_app in Hf as [Hf _]. rewrite length_app in Hl.
  split; [exact Hf|]. split; [lia|]. apply strip_no_trail.
Qed.

Lemma quoted_candidates_shape (text : str) c :
  In c (pattern_candidates quoted_pattern text) -> captured_term (term (snd c)).
Proof.
  unfold pattern_candidates. intros H.
  apply List.in_map_iff in H as (m & <- & Hm). cbn [snd term new_term].
  apply finditer_sound in Hm as (pre & w & s' & g' & -> & Ha & ->).
  unfold quoted_pattern in Ha. cbn [accepts] in Ha.
  destruct Ha as (w1 & w2 & g1 & -> & (q & -> & _ & ->) & w3 & w4 & g2 & -> & Hg & Hq).
  destruct Hq as (q' & -> & _ & ->).
  apply accepts_term_group in Hg as [Hw ->].
  apply captured_term_strip.
  unfold group1. cbn [m_group1 length].
  replace (pre ++ ([q] ++ w3 ++ [q']) ++ s')
    with ((pre ++ [q]) ++ w3 ++ ([q'] ++ s'))
    by (rewrite <- !app_assoc; reflexivity).
  replace (length pre + 1) with (length (pre ++ [q]))
    by (rewrite length_app; reflexivity).
  now rewrite slice_middle.
Qed.

Lemma definition_candidates_shape (text : str) c :
  In c (pattern_candidates definition_pattern text) -> captured_term (term (snd c)).
Proof.
  unfold pattern_candidates. intros H.
  apply List.in_map_iff in H as (m & <- & Hm). cbn [snd term new_term].
  apply finditer_sound in Hm as (pre & w & s' & g' & -> & Ha & ->).
  unfold definition_pattern in Ha.
  remember (Seq (star isspace) _) as tail eqn:Etail.
  destruct Ha as (w1 & w2 & g1 & -> & Hg & Ht).
  apply accepts_term_group in Hg as [Hw ->].
  assert (Hg' : g' = Some (length pre, length pre + length w1)).
  { revert Ht. apply accepts_group_free. subst tail. reflexivity. }
  subst g'. apply captured_term_strip.
  unfold group1. cbn [m_group1].
  rewrite <- app_assoc. now rewrite slice_middle.
Qed.

(** X22: a record with category "Defined Term" carries a term that one
    of the two patterns captured: it begins with an ASCII capital
    letter, goes on with at most 30 ASCII letters and whitespace
    characters, and does not end with whitespace. *)
Theorem defined_terms_well_formed
    (nlp : option (str -> option (list entity))) (text : str) :
  Forall (fun r =>
            category r = lit "Defined Term" ->
            exists c rest,
              term r = c :: rest /\ ascii_isupper c = true
              /\ Forall (fun x => ascii_isalpha x || isspace x = true) rest
              /\ length rest <= 30
              /\ no_lead (rev (term r)))
    (extract_legal_terms nlp text).
Proof.
  apply List.Forall_forall. intros r Hr Hcat.
  apply extract_legal_terms_origin in Hr as (c & <- & Hc).
  apply kept_subset in Hc. unfold candidates in Hc.
  apply List.in_app_or in Hc as [Hc|Hc];
    [exact (quoted_candidates_shape text c Hc)|].
  apply List.in_app_or in Hc as [Hc|Hc];
    [exact (definition_candidates_shape text c Hc)|].
  exfalso. apply List.in_app_or in Hc as [Hc|Hc].
  - apply lexicon_candidates_origin in Hc as (cat & Hl & Hc & _).
    rewrite Hcat in Hc. subst cat. vm_compute in Hl.
    repeat (destruct Hl as [Hl|Hl]; [discriminate Hl|]). exact Hl.
  - apply entity_candidates_category in Hc. rewrite Hcat in Hc. vm_compute in Hc.
    repeat (destruct Hc as [Hc|Hc]; [discriminate Hc|]). exact Hc.
Qed.

End Term_shape.

(** ** The segmenter returns pieces of the text *)

Lemma piece_of_refl (t : str) : piece_of t t.
Proof. exists [], []. cbn. now rewrite app_nil_r. Qed.

Lemma piece_of_trans (a b c : str) : piece_of a b -> piece_of b c -> piece_of a c.
Proof.
  intros (p1 & q1 & ->) (p2 & q2 & ->). exists (p2 ++ p1), (q1 ++ q2).
  now rewrite <- !app_assoc.
Qed.

Lemma piece_of_strip (s : str) : piece_of (strip s) s.
Proof. destruct (strip_parts s) as (pre & post & E & _). now exists pre, post. Qed.

Lemma piece_of_slice (t : str) (a b : nat) : piece_of (slice t a b) t.
Proof. apply slice_segment. Qed.

Section Pieces.
Context {U : UnicodeData}.

Lemma split_re_from_pieces (r : regex) (s : str) :
  forall prev pos skip cur front p,
    skip = 0 \/ cur = [] ->
    In p (split_re_from r prev s pos skip cur) ->
    exists pre post, front ++ rev cur ++ s = pre ++ p ++ post.
Proof.
  induction s as [|c s IH]; intros prev pos skip cur front p Hinv H;
    cbn [split_re_from] in H.
  - destruct H as [<-|[]]. exists front, []. reflexivity.
  - destruct skip as [|n].
    + destruct (match_here r prev (c :: s) pos) as [m|].
      * destruct H as [<-|H]; [now exists front, (c :: s)|].
        apply (IH _ _ _ _ (front ++ rev cur ++ [c])) in H as (pre & post & E);
          [|now right].
        exists pre, post. rewrite <- E. cbn [rev app]. now rewrite <- !app_assoc.
      * apply (IH _ _ _ _ front) in H as (pre & post & E); [|now left].
        exists pre, post. rewrite <- E. cbn [rev]. now rewrite <- !app_assoc.
    + destruct Hinv as [Hinv | ->]; [discriminate|].
      apply (IH _ _ _ _ (front ++ [c])) in H as (pre & post & E); [|now right].
      exists pre, post. rewrite <- E. cbn [rev app]. now rewrite <- !app_assoc.
Qed.

Lemma re_split_pieces (r : regex) (t p : str) : In p (re_split r t) -> piece_of p t.
Proof.
  unfold re_split. intros H.
  apply (split_re_from_pieces r t None 0 0 [] []) in H; [exact H | now left].
Qed.

Lemma marker_clauses_pieces (t : str) (splits : list split_point) c :
  In c (marker_clauses t splits) -> piece_of c t.
Proof.
  induction splits as [|x rest IH]; cbn [marker_clauses]; [contradiction|].
  intros H. apply List.in_app_or in H as [H|H]; [|now apply IH].
  destruct (truthy _ && _); [|contradiction]. destruct H as [<-|[]].
  eapply piece_of_trans; [apply piece_of_strip | apply piece_of_slice].
Qed.

Lemma pre_marker_clause_pieces (t : str) (splits : list split_point) c :
  In c (pre_marker_clause t splits) -> piece_of c t.
Proof.
  unfold pre_marker_clause. destruct splits as [|x rest]; [contradiction|].
  destruct (0 <? sp_pos x); [|contradiction]. intros [<-|[]].
  eapply piece_of_trans; [apply piece_of_strip | apply piece_of_slice].
Qed.

(** X23: [segment_clauses] invents no text: every clause it returns is
    a contiguous piece of the text with its line breaks normalised (of
    the input itself when that is blank). *)
Theorem segment_clauses_pieces (text : str) :
  Forall (fun c =>
            exists pre post,
              (if truthy (strip text) then normalize_breaks text else text)
              = pre ++ c ++ post)
    (segment_clauses text).
Proof.
  apply List.Forall_forall. intros c Hc. fold (piece_of c (if truthy (strip text) then normalize_breaks text else text)).
  unfold segment_clauses in Hc.
  destruct (truthy (strip text)) eqn:Es.
  - assert (Et : truthy text = true) by (destruct text; [discriminate | reflexivity]).
    rewrite Et in Hc. cbn [negb orb] in Hc.
    set (t := normalize_breaks text) in *.
    destruct (find_splits t) as [|x rest].
    + destruct (truthy_list (paragraph_clauses t)) eqn:Ep.
      * unfold paragraph_clauses in Hc.
        apply List.filter_In in Hc as [Hc _].
        apply List.in_map_iff in Hc as (p & <- & Hp).
        apply List.filter_In in Hp as [Hp _].
        eapply piece_of_trans; [apply piece_of_strip | now apply re_split_pieces in Hp].
      * destruct Hc as [<-|[]]. apply piece_of_refl.
    + destruct (truthy_list (clean_up _)) eqn:Ep.
      * unfold clean_up in Hc.
        apply List.in_map_iff in Hc as (p & <- & Hp).
        apply List.filter_In in Hp as [Hp _].
        eapply piece_of_trans; [apply piece_of_strip|].
        apply List.in_app_or in Hp as [Hp|Hp];
          [now apply pre_marker_clause_pieces in Hp
          | now apply marker_clauses_pieces in Hp].
      * destruct Hc as [<-|[]]. apply piece_of_refl.
  - rewrite orb_true_r in Hc. destruct Hc as [<-|[]]. apply piece_of_refl.
Qed.

End Pieces.

(** ** Uploads *)

Lemma startswith_prefix (p s : str) :
  startswith p s = true -> exists rest, s = p ++ rest.
Proof.
  revert s; induction p as [|a p IH]; intros s H; [now exists s|].
  destruct s as [|b s]; [discriminate|]. cbn [startswith] in H.
  apply andb_true_iff in H as [H1 H2]. apply N.eqb_eq in H1. subst b.
  apply IH in H2 as (rest & ->). now exists rest.
Qed.

Lemma endswith_suffix (e s : str) :
  endswith e s = true -> exists base, s = base ++ e.
Proof.
  unfold endswith. intros H. apply startswith_prefix in H as (rest & E).
  exists (rev rest). rewrite <- (rev_involutive s), E, rev_app_distr.
  now rewrite rev_involutive.
Qed.

Lemma rfind_from_app (c : char) (a b : str) :
  forall i last,
    rfind_from c (a ++ b) i last
    = rfind_from c b (i + length a) (rfind_from c a i last).
Proof.
  induction a as [|x a IH]; intros i last; cbn [app rfind_from length].
  - now rewrite Nat.add_0_r.
  - rewrite IH. f_equal. lia.
Qed.

Lemma ascii_tolower_dot (c : char) : ascii_tolower c = DOT -> c = DOT.
Proof.
  unfold ascii_tolower, ascii_isupper, in_range, DOT.
  destruct (_ && _) eqn:E; [|auto].
  apply andb_true_iff in E as [E1 E2]. apply N.leb_le in E1. lia.
Qed.

Lemma ascii_tolower_letter (c l : char) :
  in_range 97 122 l = true -> ascii_tolower c = l -> c = l \/ c = (l - 32)%N.
Proof.
  unfold ascii_tolower, ascii_isupper, in_range. intros Hl.
  apply andb_true_iff in Hl as [H1 H2]. apply N.leb_le in H1. apply N.leb_le in H2.
  destruct (_ && _); intros E; [right; lia | now left].
Qed.

Section Upload_properties.
Context {U : UnicodeData}.

Lemma txt_extension (p : str) (filename : str) :
  forallb is_ascii filename = true ->
  endswith (lit ".txt") (lower filename) = true ->
  let ext := lower (splitext_ext (p ++ filename)) in
  ext = [] \/ ext = lit ".txt".
Proof.
  intros Ha He. unfold lower in He. rewrite Ha in He.
  apply endswith_suffix in He as (base & E).
  apply List.map_eq_app in E as (b0 & sfx & -> & _ & E).
  destruct sfx as [|a [|b [|c [|d [|]]]]]; try discriminate E.
  cbn [List.map] in E. change (lit ".txt") with [DOT; 116%N; 120%N; 116%N] in E.
  injection E as Ea Eb Ec Ed.
  apply ascii_tolower_dot in Ea.
  apply (ascii_tolower_letter b 116) in Eb; [|reflexivity].
  apply (ascii_tolower_letter c 120) in Ec; [|reflexivity].
  apply (ascii_tolower_letter d 116) in Ed; [|reflexivity].
  cbv zeta. unfold splitext_ext, rfind.
  rewrite !app_assoc, rfind_from_app.
  set (q := p ++ b0).
  assert (Hr : rfind_from DOT [a; b; c; d] (0 + length q) (rfind_from DOT q 0 None)
               = Some (length q)).
  { subst a. destruct Eb as [-> | ->], Ec as [-> | ->], Ed as [-> | ->]; reflexivity. }
  rewrite Hr.
  destruct (length q <? _); [left; reflexivity|].
  destruct (existsb _ _); [|left; reflexivity]. right.
  rewrite List.skipn_app, List.skipn_all, Nat.sub_diag, List.skipn_O. cbn [app].
  subst a. destruct Eb as [-> | ->], Ec as [-> | ->], Ed as [-> | ->]; reflexivity.
Qed.

(** X24: app.py lets a file whose name ends in ".txt" (in any case)
    through its filter, but [extract_text] reads PDF and DOCX only: the
    text it returns for the saved file is the unsupported-type message,
    which is not blank, so that the check on the extracted text lets it
    through as the text of the document. *)
Theorem txt_upload_extracts_error_message
    (env : ingestion_env) (folder filename : str) :
  forallb is_ascii filename = true ->
  endswith (lit ".txt") (lower filename) = true ->
  path_exists env (folder ++ SLASH :: filename) = true ->
  allowed_upload filename = true
  /\ extract_text env (folder ++ SLASH :: filename)
     = lit "[ERROR] Unsupported file type. Only PDF and DOCX are supported."
  /\ no_text (extract_text env (folder ++ SLASH :: filename)) = false.
Proof.
  intros Ha He Hp.
  assert (Hx : extract_text env (folder ++ SLASH :: filename)
               = lit "[ERROR] Unsupported file type. Only PDF and DOCX are supported.").
  { unfold extract_text. rewrite Hp. cbn [negb].
    change (folder ++ SLASH :: filename) with (folder ++ [SLASH] ++ filename).
    rewrite app_assoc.
    destruct (txt_extension (folder ++ [SLASH]) filename Ha He) as [-> | ->];
      reflexivity. }
  split; [|split; [exact Hx|]].
  - unfold allowed_upload. cbn [existsb]. rewrite He. now rewrite !orb_true_r.
  - rewrite Hx. reflexivity.
Qed.

End Upload_properties.

(** An upload named "Lease.TXT". *)
Lemma txt_upload_extracts_error_message_witness :
  @extract_text ascii_only
    {| path_exists := fun _ => true;
       fitz_pages := fun _ => inr [];
       docx_paragraphs := fun _ => inr [] |}
    (lit "temp_uploads" ++ SLASH :: lit "Lease.TXT")
  = lit "[ERROR] Unsupported file type. Only PDF and DOCX are supported.".
Proof.
  apply (@txt_upload_extracts_error_message ascii_only
           {| path_exists := fun _ => true;
              fitz_pages := fun _ => inr [];
              docx_paragraphs := fun _ => inr [] |}
           (lit "temp_uploads") (lit "Lease.TXT")); reflexivity.
Defined.
